(** * RedisGraph: the Gustavson numeric kernel and the record accessors

    A shallow embedding of

    - [deps/GraphBLAS/Source/Template/GB_AxB_Gustavson_nomask.c], the numeric
      phase of Gustavson's sparse matrix product over an arbitrary semiring,
      for a result whose pattern is already known, and
    - the records of [src/execution_plan/record.c]: the typed accessors and
      the operations on whole records.

    Conventions.  An [int64_t] is an array position or a dimension; it is
    modelled in [Z].  Every array access of the C code is an access of the
    model, and an access outside the array (undefined behaviour in C) is the
    outcome [OutOfBounds].  A failed [ASSERT] is the outcome [AssertFail].
    The binary search of the vector locator is a [while] loop; it runs on
    fuel, and running out of fuel is the outcome [Diverge]. *)

From Stdlib Require Import ZArith Lia List Bool.
From stdpp Require Import base option list numbers list_numbers sorting.

Local Open Scope Z_scope.

(** ** Outcomes of a call *)

Inductive outcome (X : Type) : Type :=
| Done (x : X)
| AssertFail
| OutOfBounds
| Diverge.

Arguments Done {X} x.
Arguments AssertFail {X}.
Arguments OutOfBounds {X}.
Arguments Diverge {X}.

#[global] Instance outcome_ret : MRet outcome := fun _ x => Done x.

#[global] Instance outcome_bind : MBind outcome := fun _ _ f m =>
  match m with
  | Done x => f x
  | AssertFail => AssertFail
  | OutOfBounds => OutOfBounds
  | Diverge => Diverge
  end.

(** [ASSERT (c)].

    Modelled from the spec: the macro [ASSERT] is declared outside the source
    files at hand.  The specification makes a failed invariant check fatal
    for the call. *)
Definition ASSERT (c : bool) : outcome unit :=
  if c then Done tt else AssertFail.

(** ** Arrays *)

(** [a [i]] as an rvalue. *)
Definition array_get {X : Type} (a : list X) (i : Z) : outcome X :=
  if decide (0 <= i) then
    match a !! Z.to_nat i with
    | Some v => Done v
    | None => OutOfBounds
    end
  else OutOfBounds.

(** [a [i] = v]. *)
Definition array_set {X : Type} (a : list X) (i : Z) (v : X) : outcome (list X) :=
  if decide (0 <= i < Z.of_nat (length a)) then Done (<[Z.to_nat i := v]> a)
  else OutOfBounds.

Notation "a .[ i ]" := (array_get a i) (at level 1, format "a .[ i ]").

(** ** Counted loops

    [for (int64_t p = lo ; p < hi ; p++) body], for a body that changes
    neither [p] nor the bounds.  A [continue] is the body returning early. *)

Fixpoint for_iter {S : Type} (n : nat) (lo : Z)
    (body : Z -> S -> outcome S) (s : S) : outcome S :=
  match n with
  | O => Done s
  | Datatypes.S n' => s' ← body lo s; for_iter n' (lo + 1) body s'
  end.

Definition for_loop {S : Type} (lo hi : Z)
    (body : Z -> S -> outcome S) (s : S) : outcome S :=
  for_iter (Z.to_nat (hi - lo)) lo body s.

(** * The record layer ([record.c]) *)

Module Rec.

(** [RecordEntryType], of [record.h]. *)
Inductive RecordEntryType : Type :=
| REC_TYPE_UNKNOWN
| REC_TYPE_SCALAR
| REC_TYPE_NODE
| REC_TYPE_EDGE.

Section RecordLayer.

(** The entry types come from headers that are not among the sources:
    [SIValue], [Node], [Edge], and the union [value] of an [Entry], of
    which [s], [n] and [e] are the three members. *)
Variables SIValue Node Edge EntryValue : Type.
Variable member_s : EntryValue -> SIValue.
Variable member_n : EntryValue -> Node.
Variable member_e : EntryValue -> Edge.

Record Entry : Type := mkEntry {
  value : EntryValue;
  type : RecordEntryType
}.

(** A [Record] is a pointer to its entries; the alias mapping plays no
    part in the accessors. *)
Definition Record : Type := list Entry.

(** What [Record_GetNode] and [Record_GetEdge] return: the address of
    member [n] (or [e]) of the union of entry [idx]. *)
Inductive entry_ref : Type :=
| RefNode (idx : Z)
| RefEdge (idx : Z).

Definition set_type (t : RecordEntryType) (e : Entry) : Entry :=
  {| value := value e; type := t |}.

(** [r->entries[idx].type = t]. *)
Definition store_type (r : Record) (idx : Z) (t : RecordEntryType)
    : outcome Record :=
  e ← r.[idx];
  array_set r idx (set_type t e).

(** [Record_GetType]: a read. *)
Definition Record_GetType (r : Record) (idx : Z) : outcome RecordEntryType :=
  e ← r.[idx];
  Done (type e).

(** [Record_GetScalar]: the tag is stored, then the member [s] is read. *)
Definition Record_GetScalar (r : Record) (idx : Z)
    : outcome (Record * SIValue) :=
  r' ← store_type r idx REC_TYPE_SCALAR;
  e ← r'.[idx];
  Done (r', member_s (value e)).

(** [Record_GetNode]: the tag is stored, then the address of the member
    [n] is returned. *)
Definition Record_GetNode (r : Record) (idx : Z)
    : outcome (Record * entry_ref) :=
  r' ← store_type r idx REC_TYPE_NODE;
  Done (r', RefNode idx).

(** [Record_GetEdge]: the tag is stored, then the address of the member
    [e] is returned. *)
Definition Record_GetEdge (r : Record) (idx : Z)
    : outcome (Record * entry_ref) :=
  r' ← store_type r idx REC_TYPE_EDGE;
  Done (r', RefEdge idx).

(** Reading through a returned address. *)
Definition deref_node (r : Record) (q : entry_ref) : outcome Node :=
  match q with
  | RefNode idx => e ← r.[idx]; Done (member_n (value e))
  | RefEdge _ => OutOfBounds
  end.

Definition deref_edge (r : Record) (q : entry_ref) : outcome Edge :=
  match q with
  | RefEdge idx => e ← r.[idx]; Done (member_e (value e))
  | RefNode _ => OutOfBounds
  end.

End RecordLayer.

End Rec.

(** * The operations of [record.c] on whole records *)

(** [assert (c)] of [<assert.h>], with the assertions compiled in. *)
Definition c_assert (c : bool) : outcome unit :=
  if c then Done tt else AssertFail.

(** The conversions of C between [int], [unsigned] and wider integers:
    the value of a [uint], and of an [int], that an integer converts to. *)
Definition to_uint (z : Z) : Z := z mod 2 ^ 32.

Definition to_int (z : Z) : Z := (z + 2 ^ 31) mod 2 ^ 32 - 2 ^ 31.

(** [memcpy (dst, src, n * sizeof (X))]: the first [n] elements of [dst]
    become those of [src].  A negative [n] is, once converted to [size_t],
    a size beyond that of any object. *)
Definition memcpy {X : Type} (dst src : list X) (n : Z) : outcome (list X) :=
  if decide (0 <= n <= Z.of_nat (length src) /\ n <= Z.of_nat (length dst))
  then Done (take (Z.to_nat n) src ++ drop (Z.to_nat n) dst)
  else OutOfBounds.

(** [SIType], of [value.h]: the tags that [record.c] names; [T_other]
    stands for the remaining ones. *)
Inductive SIType : Type :=
| T_NULL
| T_STRING
| T_INT64
| T_BOOL
| T_PTR
| T_DOUBLE
| T_NODE
| T_EDGE
| T_other (tag : Z).

(** What [record.c] takes from headers that are not among the sources.
    - The types [SIValue], [Node], [Edge], the union [value] of an entry
      with its members [s], [n] and [e] (read by [member_s], ..., written
      by [assign_s], ...), and the alias mapping [rax] with [raxSize].
    - [SI_TYPE (v)]; [Node_at v] and [Edge_at v], the node and the edge
      that [v.ptrval] points to when a call is made; [ptrval v] itself.
    - [SI_Node] and [SI_Edge], which wrap the address of a node or an
      edge in a value.
    - [SIValue_MakeVolatile] and [SIValue_Persist], which change a value
      in place. *)
Class RecordTypes : Type := {
  SIValue : Type;
  Node : Type;
  Edge : Type;
  EntryValue : Type;
  rax : Type;
  pointer : Type;
  member_s : EntryValue -> SIValue;
  member_n : EntryValue -> Node;
  member_e : EntryValue -> Edge;
  assign_s : EntryValue -> SIValue -> EntryValue;
  assign_n : EntryValue -> Node -> EntryValue;
  assign_e : EntryValue -> Edge -> EntryValue;
  raxSize : rax -> Z;
  SI_TYPE : SIValue -> SIType;
  ptrval : SIValue -> pointer;
  Node_at : SIValue -> Node;
  Edge_at : SIValue -> Edge;
  SI_Node : Rec.entry_ref -> SIValue;
  SI_Edge : Rec.entry_ref -> SIValue;
  SIValue_MakeVolatile : SIValue -> SIValue;
  SIValue_Persist : SIValue -> SIValue
}.

(** A member of a union that is written and read back is the value
    written. *)
Class UnionLaws (RT : RecordTypes) : Prop := {
  member_assign_s : forall u v, member_s (assign_s u v) = v;
  member_assign_n : forall u n, member_n (assign_n u n) = n;
  member_assign_e : forall u e, member_e (assign_e u e) = e
}.

Section RecordOperations.

Context {RT : RecordTypes}.

Abbreviation Entry := (Rec.Entry EntryValue).

(** The struct [_Record]: the alias mapping and the entries. *)
Record _Record : Type := mk_Record {
  mapping : rax;
  entries : list Entry
}.

Definition with_entries (r : _Record) (ents : list Entry) : _Record :=
  {| mapping := mapping r; entries := ents |}.

Definition entry_type (e : Entry) : Rec.RecordEntryType := Rec.type _ e.

Definition entry_value (e : Entry) : EntryValue := Rec.value _ e.

(** [Record_length], line 36: [raxSize] returns a [uint64_t], the result
    is a [uint]. *)
Definition Record_length (r : _Record) : Z := to_uint (raxSize (mapping r)).

(** [r->entries[idx].value.s = v], and the same for the members [n] and
    [e]. *)
Definition store_s (r : list Entry) (idx : Z) (v : SIValue)
    : outcome (list Entry) :=
  e ← r.[idx];
  array_set r idx (Rec.mkEntry _ (assign_s (entry_value e) v) (entry_type e)).

Definition store_n (r : list Entry) (idx : Z) (n : Node)
    : outcome (list Entry) :=
  e ← r.[idx];
  array_set r idx (Rec.mkEntry _ (assign_n (entry_value e) n) (entry_type e)).

Definition store_e (r : list Entry) (idx : Z) (x : Edge)
    : outcome (list Entry) :=
  e ← r.[idx];
  array_set r idx (Rec.mkEntry _ (assign_e (entry_value e) x) (entry_type e)).

(** [f (&r->entries[idx].value.s)] for an [f] that changes the value it
    is given the address of. *)
Definition update_s (f : SIValue -> SIValue) (r : list Entry) (idx : Z)
    : outcome (list Entry) :=
  e ← r.[idx];
  store_s r idx (f (member_s (entry_value e))).

(** [Record_AddScalar], [Record_AddNode], [Record_AddEdge], lines
    150-163: the member is written, then the tag. *)
Definition Record_AddScalar (r : list Entry) (idx : Z) (v : SIValue)
    : outcome (list Entry) :=
  r1 ← store_s r idx v;
  Rec.store_type _ r1 idx Rec.REC_TYPE_SCALAR.

Definition Record_AddNode (r : list Entry) (idx : Z) (node : Node)
    : outcome (list Entry) :=
  r1 ← store_n r idx node;
  Rec.store_type _ r1 idx Rec.REC_TYPE_NODE.

Definition Record_AddEdge (r : list Entry) (idx : Z) (edge : Edge)
    : outcome (list Entry) :=
  r1 ← store_e r idx edge;
  Rec.store_type _ r1 idx Rec.REC_TYPE_EDGE.

(** [Record_Add], lines 135-148.  In [idx < Record_length (r)] the [int]
    is converted to [unsigned]. *)
Definition Record_Add (r : _Record) (idx : Z) (v : SIValue)
    : outcome _Record :=
  _ ← c_assert (to_uint idx <? Record_length r);
  ents ←
    match SI_TYPE v with
    | T_NODE => Record_AddNode (entries r) idx (Node_at v)
    | T_EDGE => Record_AddEdge (entries r) idx (Edge_at v)
    | _ => Record_AddScalar (entries r) idx v
    end;
  Done (with_entries r ents).

(** [Record_Get], lines 106-118: the entry is read, and the accessor of
    its type is called.  Past [assert (false)] the function would end
    without a [return]. *)
Definition Record_Get (r : list Entry) (idx : Z)
    : outcome (list Entry * SIValue) :=
  e ← r.[idx];
  match entry_type e with
  | Rec.REC_TYPE_NODE =>
      '(r', q) ← Rec.Record_GetNode _ r idx;
      Done (r', SI_Node q)
  | Rec.REC_TYPE_EDGE =>
      '(r', q) ← Rec.Record_GetEdge _ r idx;
      Done (r', SI_Edge q)
  | Rec.REC_TYPE_SCALAR => Rec.Record_GetScalar _ _ member_s r idx
  | Rec.REC_TYPE_UNKNOWN => _ ← c_assert false; OutOfBounds
  end.

(** What [Record_GetGraphEntity] returns: the address of an entry's
    node or edge, or the pointer that a scalar holds. *)
Inductive entity_ptr : Type :=
| EntityAt (q : Rec.entry_ref)
| EntityPtr (p : pointer).

(** [Record_GetGraphEntity], lines 120-133; [None] is [NULL]. *)
Definition Record_GetGraphEntity (r : list Entry) (idx : Z)
    : outcome (list Entry * option entity_ptr) :=
  e ← r.[idx];
  match entry_type e with
  | Rec.REC_TYPE_NODE =>
      '(r', q) ← Rec.Record_GetNode _ r idx;
      Done (r', Some (EntityAt q))
  | Rec.REC_TYPE_EDGE =>
      '(r', q) ← Rec.Record_GetEdge _ r idx;
      Done (r', Some (EntityAt q))
  | Rec.REC_TYPE_SCALAR =>
      '(r', v) ← Rec.Record_GetScalar _ _ member_s r idx;
      Done (r', Some (EntityPtr (ptrval v)))
  | Rec.REC_TYPE_UNKNOWN => _ ← c_assert false; Done (r, None)
  end.

(** [Record_Clone], lines 50-67.  [entry_count] is an [int]. *)
Definition Record_Clone (r clone : _Record) : outcome _Record :=
  let entry_count := to_int (Record_length r) in
  ents ← memcpy (entries clone) (entries r) entry_count;
  ents' ← for_loop 0 entry_count (fun i c =>
    t ← Rec.Record_GetType _ c i;
    match t with
    | Rec.REC_TYPE_SCALAR => update_s SIValue_MakeVolatile c i
    | _ => Done c
    end) ents;
  Done (with_entries clone ents').

(** [Record_Merge], lines 69-76; [a] is what [*a] points to, and [b] is
    another record. *)
Definition Record_Merge (a b : _Record) : outcome _Record :=
  let len := Record_length b in
  ents ← for_loop 0 len (fun i ea =>
    e ← (entries b).[i];
    match entry_type e with
    | Rec.REC_TYPE_UNKNOWN => Done ea
    | _ => array_set ea i e
    end) (entries a);
  Done (with_entries a ents).

(** [_RecordPropagateEntry], lines 14-19, for two records [dest] and
    [src] that are not the same one. *)
Definition _RecordPropagateEntry (dest src : list Entry) (idx : Z)
    : outcome (list Entry * list Entry) :=
  e ← src.[idx];
  dest' ← array_set dest idx e;
  match entry_type e with
  | Rec.REC_TYPE_SCALAR =>
      src' ← update_s SIValue_MakeVolatile src idx;
      Done (dest', src')
  | _ => Done (dest', src)
  end.

(** [Record_TransferEntries], lines 78-85. *)
Definition Record_TransferEntries (to from : _Record)
    : outcome (_Record * _Record) :=
  let len := Record_length from in
  tf ← for_loop 0 len (fun i (tf : list Entry * list Entry) =>
    e ← (tf.2).[i];
    match entry_type e with
    | Rec.REC_TYPE_UNKNOWN => Done tf
    | _ => _RecordPropagateEntry tf.1 tf.2 i
    end) (entries to, entries from);
  Done (with_entries to tf.1, with_entries from tf.2).

(** [Record_PersistScalars], lines 165-170. *)
Definition Record_PersistScalars (r : _Record) : outcome _Record :=
  let len := Record_length r in
  ents ← for_loop 0 len (fun i c =>
    e ← c.[i];
    match entry_type e with
    | Rec.REC_TYPE_SCALAR => update_s SIValue_Persist c i
    | _ => Done c
    end) (entries r);
  Done (with_entries r ents).

(** [Record_FreeEntries], lines 275-283.  The record is not written; the
    result is the values handed to [SIValue_Free], in the order of the
    calls. *)
Definition Record_FreeEntries (r : _Record) : outcome (list SIValue) :=
  let length := Record_length r in
  for_loop 0 length (fun i freed =>
    e ← (entries r).[i];
    match entry_type e with
    | Rec.REC_TYPE_SCALAR => Done (freed ++ [member_s (entry_value e)])
    | _ => Done freed
    end) [].

(** ** What the operations are to compute *)

(** An entry whose scalar, if it holds one, went through [f]. *)
Definition map_scalar (f : SIValue -> SIValue) (e : Entry) : Entry :=
  match entry_type e with
  | Rec.REC_TYPE_SCALAR =>
      Rec.mkEntry _ (assign_s (entry_value e) (f (member_s (entry_value e))))
        Rec.REC_TYPE_SCALAR
  | _ => e
  end.

(** The entry of [b] where it is set, that of [a] otherwise. *)
Definition override (ea eb : Entry) : Entry :=
  match entry_type eb with
  | Rec.REC_TYPE_UNKNOWN => ea
  | _ => eb
  end.

(** What [Record_Get] answers for an entry that is set. *)
Definition got (idx : Z) (e : Entry) : SIValue :=
  match entry_type e with
  | Rec.REC_TYPE_NODE => SI_Node (Rec.RefNode idx)
  | Rec.REC_TYPE_EDGE => SI_Edge (Rec.RefEdge idx)
  | _ => member_s (entry_value e)
  end.

(** The entry that [Record_Add] makes of [e] for the value [v]. *)
Definition added (v : SIValue) (e : Entry) : Entry :=
  match SI_TYPE v with
  | T_NODE =>
      Rec.mkEntry _ (assign_n (entry_value e) (Node_at v)) Rec.REC_TYPE_NODE
  | T_EDGE =>
      Rec.mkEntry _ (assign_e (entry_value e) (Edge_at v)) Rec.REC_TYPE_EDGE
  | _ => Rec.mkEntry _ (assign_s (entry_value e) v) Rec.REC_TYPE_SCALAR
  end.

(** The entries of [a] after those of [b] that are set were written
    over them. *)
Definition merged (a b : list Entry) : list Entry :=
  zip_with override a b ++ drop (length b) a.

Definition unset (e : Entry) : bool :=
  match entry_type e with
  | Rec.REC_TYPE_UNKNOWN => true
  | _ => false
  end.

Definition is_scalar (e : Entry) : bool :=
  match entry_type e with
  | Rec.REC_TYPE_SCALAR => true
  | _ => false
  end.

(** The scalars that a list of entries holds, in the order of the
    entries. *)
Definition scalars (l : list Entry) : list SIValue :=
  (fun e => member_s (entry_value e)) <$> filter (fun e => is_scalar e = true) l.

(** A record as [Record_New] lays it out: as many entries as the mapping
    has aliases, and a number of them that an [int] holds. *)
Definition Record_ok (r : _Record) : Prop :=
  Z.of_nat (length (entries r)) = raxSize (mapping r) /\
  raxSize (mapping r) < 2 ^ 31.

End RecordOperations.

(** ** Making a record *)

(** What [Record_New] needs of the layout: [sizeof (_Record)],
    [sizeof (Entry)], and the entry whose bytes are all zero. *)
Class Layout (RT : RecordTypes) : Type := {
  sizeof_Record : Z;
  sizeof_Entry : Z;
  zero_entry : Rec.Entry EntryValue
}.

Section RecordMaking.

Context {RT : RecordTypes} {LT : Layout RT}.

(** [Record_New], lines 22-33.  [rec_size] is a [uint]: the sum of the
    sizes is reduced modulo 2^32.  [rm_calloc] gives [rec_size] bytes
    set to zero, which hold the struct and the entries that fit behind
    it; a block smaller than the struct is written past its end by
    [r->mapping = mapping]. *)
Definition Record_New (m : rax) : outcome _Record :=
  let entries_count := to_uint (raxSize m) in
  let rec_size := to_uint (sizeof_Record + sizeof_Entry * entries_count) in
  if rec_size <? sizeof_Record then OutOfBounds
  else
    Done {| mapping := m;
            entries :=
              replicate (Z.to_nat ((rec_size - sizeof_Record) / sizeof_Entry))
                zero_entry |}.

End RecordMaking.

(** ** Printing and hashing a record *)

(** The characters of the string literals of [record.c]. *)
Definition chars_UNKNOWN : list Byte.byte :=
  [Byte.x55; Byte.x4e; Byte.x4b; Byte.x4e; Byte.x4f; Byte.x57; Byte.x4e].

Definition chars_REC_TYPE_UNKNOWN : list Byte.byte :=
  [Byte.x52; Byte.x45; Byte.x43; Byte.x5f; Byte.x54; Byte.x59; Byte.x50;
   Byte.x45; Byte.x5f; Byte.x55; Byte.x4e; Byte.x4b; Byte.x4e; Byte.x4f;
   Byte.x57; Byte.x4e].

Definition chars_comma : list Byte.byte := [Byte.x2c].

(** What [Record_ToString] takes from [value.h] and [rmalloc.h]: the
    constant string value of a literal, the length and the text of the
    values joined by a delimiter, written to a buffer of a given capacity
    (the join returns the buffer, its capacity and the bytes written),
    and [rm_realloc]. *)
Class Strings (RT : RecordTypes) : Type := {
  buffer : Type;
  SI_ConstStringVal : list Byte.byte -> SIValue;
  SIValue_StringJoinLen : list SIValue -> list Byte.byte -> Z;
  SIValue_StringJoin :
    list SIValue -> list Byte.byte -> buffer -> Z -> buffer * Z * Z;
  rm_realloc : buffer -> Z -> buffer
}.

(** [XXH_errorcode], of [xxhash.h]. *)
Inductive XXH_errorcode : Type :=
| XXH_OK
| XXH_ERROR.

(** What [Record_Hash64] takes from [xxhash.h], [graph_entity.h] and
    [value.h]: the streaming hash; [ENTITY_GET_ID] of the graph entity
    that the union of an entry holds; the bytes of an object of type
    [EntityID] and of an object of type [long long] or [int64_t]; and of
    a scalar its [longval], the characters of its [stringval], and the
    bytes of its [ptrval] and of its [doubleval]. *)
Class Hashing (RT : RecordTypes) : Type := {
  EntityID : Type;
  XXH64_state_t : Type;
  XXH64_reset : Z -> XXH_errorcode * XXH64_state_t;
  XXH64_update : XXH64_state_t -> list Byte.byte -> XXH_errorcode * XXH64_state_t;
  XXH64_digest : XXH64_state_t -> Z;
  ENTITY_GET_ID : EntryValue -> EntityID;
  bytes_of_EntityID : EntityID -> list Byte.byte;
  bytes_of_int64 : Z -> list Byte.byte;
  longval : SIValue -> Z;
  stringval : SIValue -> list Byte.byte;
  bytes_of_ptrval : SIValue -> list Byte.byte;
  bytes_of_doubleval : SIValue -> list Byte.byte
}.

(** The hash never reports an error. *)
Class HashingOk {RT : RecordTypes} (H : Hashing RT) : Prop := {
  XXH64_reset_ok : forall seed, (XXH64_reset seed).1 = XXH_OK;
  XXH64_update_ok : forall st data, (XXH64_update st data).1 = XXH_OK
}.

Definition is_XXH_ERROR (res : XXH_errorcode) : bool :=
  match res with
  | XXH_ERROR => true
  | XXH_OK => false
  end.

Section RecordPrinting.

Context {RT : RecordTypes} {ST : Strings RT}.

Abbreviation Entry := (Rec.Entry EntryValue).

(** [Record_ToString], lines 172-193.  The loop carries the record and
    the values [values[0..i-1]]; the result is the record, the buffer,
    its capacity and the bytes written. *)
Definition Record_ToString (r : _Record) (buf : buffer) (buf_cap : Z)
    : outcome (_Record * buffer * Z * Z) :=
  let rLen := Record_length r in
  rv ← for_loop 0 rLen (fun i (rv : list Entry * list SIValue) =>
    t ← Rec.Record_GetType _ rv.1 i;
    match t with
    | Rec.REC_TYPE_UNKNOWN =>
        Done (rv.1, rv.2 ++ [SI_ConstStringVal chars_UNKNOWN])
    | _ =>
        '(r', v) ← Record_Get rv.1 i;
        Done (r', rv.2 ++ [v])
    end) (entries r, []);
  let required_len := SIValue_StringJoinLen rv.2 chars_comma in
  let bc :=
    if buf_cap <? required_len
    then (rm_realloc buf required_len, required_len)
    else (buf, buf_cap) in
  let '(buf', buf_cap', bytesWritten) :=
    SIValue_StringJoin rv.2 chars_comma bc.1 bc.2 in
  Done (with_entries r rv.1, buf', buf_cap', bytesWritten).

(** The value printed for entry [idx]. *)
Definition shown (idx : Z) (e : Entry) : SIValue :=
  match entry_type e with
  | Rec.REC_TYPE_UNKNOWN => SI_ConstStringVal chars_UNKNOWN
  | _ => got idx e
  end.

End RecordPrinting.

Section RecordHashing.

Context {RT : RecordTypes} {H : Hashing RT}.

Abbreviation Entry := (Rec.Entry EntryValue).

(** [ENTITY_GET_ID] through the pointer that [Record_GetGraphEntity]
    has returned for a node or an edge of the record: the id is read in
    the union of that entry.  [Record_Hash64] passes no other pointer. *)
Definition entity_id_at (r : list Entry) (p : option entity_ptr)
    : outcome EntityID :=
  match p with
  | Some (EntityAt (Rec.RefNode idx)) | Some (EntityAt (Rec.RefEdge idx)) =>
      e ← r.[idx];
      Done (ENTITY_GET_ID (entry_value e))
  | _ => OutOfBounds
  end.

(** Lines 210-268, the body of the loop of [Record_Hash64]: the bytes
    [data[0..len-1]] of entry [i] are chosen and fed to the hash. *)
Definition hash_entry (i : Z) (rs : list Entry * XXH64_state_t)
    : outcome (list Entry * XXH64_state_t) :=
  e ← (rs.1).[i];
  rd ←
    match entry_type e with
    | Rec.REC_TYPE_NODE | Rec.REC_TYPE_EDGE =>
        '(r', p) ← Record_GetGraphEntity rs.1 i;
        id ← entity_id_at r' p;
        Done (r', bytes_of_EntityID id)
    | Rec.REC_TYPE_SCALAR =>
        '(r', si) ← Rec.Record_GetScalar _ _ member_s rs.1 i;
        match SI_TYPE si with
        | T_NULL => Done (r', bytes_of_int64 0)
        | T_STRING => Done (r', stringval si)
        | T_INT64 | T_BOOL => Done (r', bytes_of_int64 (longval si))
        | T_PTR => Done (r', bytes_of_ptrval si)
        | T_DOUBLE => Done (r', bytes_of_doubleval si)
        | _ => _ ← c_assert false; OutOfBounds
        end
    | Rec.REC_TYPE_UNKNOWN => Done (rs.1, chars_REC_TYPE_UNKNOWN)
    end;
  let res := XXH64_update rs.2 rd.2 in
  _ ← c_assert (negb (is_XXH_ERROR res.1));
  Done (rd.1, res.2).

(** [Record_Hash64], lines 195-273. *)
Definition Record_Hash64 (r : _Record) : outcome (_Record * Z) :=
  let rec_len := Record_length r in
  let res := XXH64_reset 0 in
  _ ← c_assert (negb (is_XXH_ERROR res.1));
  rs ← for_loop 0 rec_len hash_entry (entries r, res.2);
  Done (with_entries r rs.1, XXH64_digest rs.2).

(** The bytes that stand for an entry in the hash; a scalar of a type
    that [Record_Hash64] does not handle has none. *)
Definition hash_data (e : Entry) : option (list Byte.byte) :=
  match entry_type e with
  | Rec.REC_TYPE_NODE | Rec.REC_TYPE_EDGE =>
      Some (bytes_of_EntityID (ENTITY_GET_ID (entry_value e)))
  | Rec.REC_TYPE_SCALAR =>
      let si := member_s (entry_value e) in
      match SI_TYPE si with
      | T_NULL => Some (bytes_of_int64 0)
      | T_STRING => Some (stringval si)
      | T_INT64 | T_BOOL => Some (bytes_of_int64 (longval si))
      | T_PTR => Some (bytes_of_ptrval si)
      | T_DOUBLE => Some (bytes_of_doubleval si)
      | _ => None
      end
  | Rec.REC_TYPE_UNKNOWN => Some chars_REC_TYPE_UNKNOWN
  end.

(** The state of the hash after the pieces [ds]. *)
Definition feed (st : XXH64_state_t) (ds : list (list Byte.byte))
    : XXH64_state_t :=
  foldl (fun st d => (XXH64_update st d).2) st ds.

End RecordHashing.

(** * Matrices, semirings and the kernel state *)

(** A matrix in compressed-column form.  [handle] is the address of the
    matrix object (zero is [NULL]); [mat_p], [mat_h], [mat_i] and [mat_x] are
    the arrays [p], [h], [i] and [x]. *)
Record Matrix (V : Type) : Type := mkMatrix {
  handle : Z;
  magic : Z;
  vlen : Z;
  vdim : Z;
  nvec : Z;
  is_hyper : bool;
  mat_p : list Z;
  mat_h : list Z;
  mat_i : list Z;
  mat_x : list V
}.

Arguments mkMatrix {V}.
Arguments handle {V} _.
Arguments magic {V} _.
Arguments vlen {V} _.
Arguments vdim {V} _.
Arguments nvec {V} _.
Arguments is_hyper {V} _.
Arguments mat_p {V} _.
Arguments mat_h {V} _.
Arguments mat_i {V} _.
Arguments mat_x {V} _.

(** The semiring the template is expanded for: the three element types,
    [IDENTITY], and the multiply and add operators behind [MULTADD_NOMASK]. *)
Class Semiring : Type := {
  atype : Type;
  btype : Type;
  ztype : Type;
  IDENTITY : ztype;
  multiply : atype -> btype -> ztype;
  accumulate : ztype -> ztype -> ztype
}.

(** Constants of [GB.h], which is not among the sources. *)
Class Constants : Type := {
  MAGIC : Z
}.

Inductive GrB_Info : Type :=
| GrB_SUCCESS
| GrB_FAILURE (code : Z).

Definition is_success (info : GrB_Info) : bool :=
  match info with
  | GrB_SUCCESS => true
  | GrB_FAILURE _ => false
  end.

(** What the kernel does to memory and to the locator, in program order.
    The trace of these events is not part of the C state: it is kept with
    the state to say which accesses and which calls were made, and nothing
    the kernel computes depends on it.
    - [EvClear i]: [w [i] = identity];
    - [EvTrim imax pright]: [GB_bracket_right] was called with [imax] and
      left the right bound [pright];
    - [EvLookup k pright slot ps pe]: [GB_lookup] was called for vector [k]
      with right bound [pright], located [slot] and returned the range
      [ps], [pe];
    - [EvMultAdd i]: [w [i]] was read and written by [MULTADD_NOMASK];
    - [EvGather pC i]: [w [i]] was read and [Cx [pC]] written. *)
Inductive event : Type :=
| EvClear (i : Z)
| EvTrim (imax pright : Z)
| EvLookup (k pright : Z) (slot : option Z) (pA_start pA_end : Z)
| EvMultAdd (i : Z)
| EvGather (pC i : Z).

(** The positions of [Cx] written, in order. *)
Definition gather_pos (e : event) : option Z :=
  match e with
  | EvGather pC _ => Some pC
  | _ => None
  end.

Definition gather_positions (t : list event) : list Z := omap gather_pos t.

(** The probes of the locator, in order: the vector looked for, the slot
    located if any, and the range returned. *)
Definition probe (e : event) : option (Z * option Z * Z * Z) :=
  match e with
  | EvLookup k _ slot pA_start pA_end => Some (k, slot, pA_start, pA_end)
  | _ => None
  end.

Definition probes (t : list event) : list (Z * option Z * Z * Z) :=
  omap probe t.

(** The events of the clear and gather loops over the positions [lo, hi)
    of C. *)
Definition clear_events (Ci : list Z) (lo hi : Z) : list event :=
  (fun q => EvClear (Ci !!! Z.to_nat q)) <$> seqZ lo (hi - lo).

Definition gather_events (Ci : list Z) (lo hi : Z) : list event :=
  (fun q => EvGather q (Ci !!! Z.to_nat q)) <$> seqZ lo (hi - lo).





Section Kernel.

Context {SR : Semiring} {KC : Constants}.

(** The memory the call can reach: the three matrices and the workspace
    [w], with the trace of events so far. *)
Record state : Type := mkState {
  stA : Matrix atype;
  stB : Matrix btype;
  stC : Matrix ztype;
  w : list ztype;
  trace : list event
}.

Definition set_w (w' : list ztype) (s : state) : state :=
  {| stA := stA s; stB := stB s; stC := stC s; w := w'; trace := trace s |}.

Definition set_x {V : Type} (x' : list V) (M : Matrix V) : Matrix V :=
  {| handle := handle M; magic := magic M; vlen := vlen M; vdim := vdim M;
     nvec := nvec M; is_hyper := is_hyper M; mat_p := mat_p M;
     mat_h := mat_h M; mat_i := mat_i M; mat_x := x' |}.

Definition set_magic {V : Type} (m : Z) (M : Matrix V) : Matrix V :=
  {| handle := handle M; magic := m; vlen := vlen M; vdim := vdim M;
     nvec := nvec M; is_hyper := is_hyper M; mat_p := mat_p M;
     mat_h := mat_h M; mat_i := mat_i M; mat_x := mat_x M |}.

Definition set_C (C' : Matrix ztype) (s : state) : state :=
  {| stA := stA s; stB := stB s; stC := C'; w := w s; trace := trace s |}.

Definition emit (e : event) (s : state) : state :=
  {| stA := stA s; stB := stB s; stC := stC s; w := w s;
     trace := trace s ++ [e] |}.

(** ** Macros and helpers of [GB.h] *)

(** Modelled from the spec: [NOT_ALIASED_3] is defined outside the sources.
    The precondition it checks is that C, A and B occupy disjoint memory;
    a [NULL] argument (the absent mask) aliases nothing. *)
Definition NOT_ALIASED (x y : Z) : bool :=
  (x =? 0) || (y =? 0) || negb (x =? y).

(** Modelled from the spec: [NOT_ALIASED_3 (C, M, A, B)], as above: C, A
    and B are pairwise disjoint, and C is disjoint from the mask. *)
Definition NOT_ALIASED_3 (c m a b : Z) : bool :=
  NOT_ALIASED c m && NOT_ALIASED c a && NOT_ALIASED c b && NOT_ALIASED a b.

(** Modelled from the spec: the macro [COPY_SCALAR_TO_ARRAY] is defined
    outside the sources.  [COPY_SCALAR_TO_ARRAY (w, i, IDENTITY, zsize)] is
    the clear step, [w [i] = identity], as the comment at its use says. *)
Definition COPY_SCALAR_TO_ARRAY (i : Z) (s : state) : outcome state :=
  w' ← array_set (w s) i IDENTITY;
  Done (emit (EvClear i) (set_w w' s)).

(** Modelled from the spec: the macro [MULTADD_NOMASK] is defined outside
    the sources.  It is the accumulate step, [w [i] += A(i,k) * B(k,j)], that
    is [w [i] = accumulate (w [i], multiply (a_ik, b_kj))], with [A(i,k)] at
    [Ax [pA]] and [B(k,j)] in the scalar [bkj]. *)
Definition MULTADD_NOMASK (Ax : list atype) (i pA : Z) (bkj : btype)
    (s : state) : outcome state :=
  aik ← Ax.[pA];
  wi ← (w s).[i];
  w' ← array_set (w s) i (accumulate wi (multiply aik bkj));
  Done (emit (EvMultAdd i) (set_w w' s)).

(** Modelled from the spec: the macro [COPY_ARRAY_TO_ARRAY] is defined
    outside the sources.  [COPY_ARRAY_TO_ARRAY (Cx, pC, w, i, zsize)] is the
    gather step, [Cx [pC] = w [i]], as the comment at its use says. *)
Definition COPY_ARRAY_TO_ARRAY (pC i : Z) (s : state) : outcome state :=
  wi ← (w s).[i];
  Cx' ← array_set (mat_x (stC s)) pC wi;
  Done (emit (EvGather pC i) (set_C (set_x Cx' (stC s)) s)).

(** Modelled from the spec: the binary search of the vector locator, over
    [X [pleft..pright]], is defined outside the sources.  It narrows the
    window to the first slot that is not below [i]. *)
Fixpoint GB_BINARY_TRIM_SEARCH (fuel : nat) (i : Z) (X : list Z)
    (pleft pright : Z) : outcome (Z * Z) :=
  if pleft <? pright then
    match fuel with
    | O => Diverge
    | S fuel' =>
        let pmiddle := Z.quot (pleft + pright) 2 in
        xm ← X.[pmiddle];
        if xm <? i then GB_BINARY_TRIM_SEARCH fuel' i X (pmiddle + 1) pright
        else GB_BINARY_TRIM_SEARCH fuel' i X pleft pmiddle
    end
  else Done (pleft, pright).

(** Modelled from the spec: [locate (column_id, window)], a binary search
    over [h] restricted to the window, answering a slot or not found. *)
Definition GB_BINARY_SEARCH (i : Z) (X : list Z) (pleft pright : Z)
    : outcome (Z * bool) :=
  '(pl, pr) ← GB_BINARY_TRIM_SEARCH (Z.to_nat (pright - pleft)) i X pleft pright;
  if pl =? pr then
    xl ← X.[pl];
    Done (pl, xl =? i)
  else Done (pl, false).

(** Modelled from the spec: [trim_right (max_row_id, window)] shrinks the
    right bound of the window to exclude the vector slots whose column id
    exceeds [imax]. *)
Definition GB_bracket_right (imax : Z) (X : list Z) (kleft kright : Z)
    : outcome Z :=
  '(pl, pr) ← GB_BINARY_TRIM_SEARCH (Z.to_nat (kright - kleft)) imax X kleft kright;
  if pl =? pr then
    xl ← X.[pl];
    Done (if imax <? xl then pl - 1 else pl)
  else Done kright.

(** Modelled from the spec: [GB_lookup] is defined outside the sources.
    It finds the range of vector [j] of A: directly when A is sparse, by
    [locate] in the window [pleft..pright] when A is hypersparse, in which
    case [pleft] advances to where the search ended.  It answers the new
    [pleft], the slot if one is found, and the range, which is empty for
    a vector that is not stored. *)
Definition GB_lookup (A_is_hyper : bool) (Ah Ap : list Z)
    (pleft pright j : Z) : outcome (Z * option Z * Z * Z) :=
  if A_is_hyper then
    '(pl, found) ← GB_BINARY_SEARCH j Ah pleft pright;
    if (found : bool) then
      pstart ← Ap.[pl];
      pend ← Ap.[pl + 1];
      Done (pl, Some pl, pstart, pend)
    else Done (pl, None, -1, -1)
  else
    pstart ← Ap.[j];
    pend ← Ap.[j + 1];
    Done (pleft, Some j, pstart, pend).

(** The slot of [Xh], counted from [k], that holds [j]. *)
Fixpoint index_of (j : Z) (Xh : list Z) (k : Z) : option Z :=
  match Xh with
  | [] => None
  | y :: ys => if y =? j then Some k else index_of j ys (k + 1)
  end.

(** Modelled from the spec: the range of column [j] of a matrix, the
    matrix accessor of the iterator.  A sparse matrix is addressed
    directly; a hypersparse one through its vector list, and a column it
    does not store has an empty range. *)
Definition vector_range {V : Type} (M : Matrix V) (j : Z) : outcome (Z * Z) :=
  if is_hyper M then
    match index_of j (mat_h M) 0 with
    | Some k =>
        pstart ← (mat_p M).[k];
        pend ← (mat_p M).[k + 1];
        Done (pstart, pend)
    | None => Done (-1, -1)
    end
  else
    pstart ← (mat_p M).[j];
    pend ← (mat_p M).[j + 1];
    Done (pstart, pend).

(** Modelled from the spec: [GBI2_initj (Iter, j, pB_start, pB_end,
    pC_start, pC_end)] for the iterator of [for_each_vector2 (B, C)], which
    are defined outside the sources.  The iteration is over every stored
    vector of B; slot [kB] of B fixes the column [j], and with it the
    range of C. *)
Definition GBI2_initj {VB VC : Type} (B : Matrix VB) (C : Matrix VC) (kB : Z)
    : outcome (Z * Z * Z * Z * Z) :=
  j ← (if is_hyper B then (mat_h B).[kB] else Done kB);
  pB_start ← (mat_p B).[kB];
  pB_end ← (mat_p B).[kB + 1];
  '(pC_start, pC_end) ← vector_range C j;
  Done (j, pB_start, pB_end, pC_start, pC_end).

(** Modelled from the spec: the loop header [for_each_vector2 (B, C)],
    defined outside the sources, iterates over every stored vector of B, in
    the order of the slots. *)
Definition for_each_vector2 {VB VC : Type} (B : Matrix VB) (C : Matrix VC)
    (body : Z -> state -> outcome state) (s : state) : outcome state :=
  for_loop 0 (nvec B) body s.

End Kernel.

(** * The template [GB_AxB_Gustavson_nomask.c] *)

Section Template.

Context {SR : Semiring} {KC : Constants}.

(** What the including file fixes before the template is expanded:
    whether [HYPER] is defined, and the status [info].  The other free
    names of the template are read off the state: [A_is_hyper] is
    [A->is_hyper], [Ax] and [Bx] are [A->x] and [B->x], [Cx] is [C->x],
    [w] is the workspace, and the mask [M] is [NULL]. *)
Variable HYPER : bool.
Variable info : GrB_Info.

Definition NULL : Z := 0.

(** Lines 84-88: clear [w] over the pattern of C(:,j). *)
Definition clear_w (Ci : list Z) (pC_start pC_end : Z)
    : state -> outcome state :=
  for_loop pC_start pC_end (fun pC s =>
    i ← Ci.[pC];
    COPY_SCALAR_TO_ARRAY i s).

(** Lines 90-99: the window of the locator for column j, trimmed on the
    right when A is hypersparse and B(:,j) has more than two entries. *)
Definition trim_Ah (A : Matrix atype) (Bi : list Z) (bjnz pB_end : Z)
    (s : state) : outcome (Z * Z * state) :=
  let pleft := 0 in
  let pright := nvec A - 1 in
  if is_hyper A && (2 <? bjnz) then
    imax ← Bi.[pB_end - 1];
    pright' ← GB_bracket_right imax (mat_h A) 0 pright;
    Done (pleft, pright', emit (EvTrim imax pright') s)
  else Done (pleft, pright, s).

(** Lines 116-123: find A(:,k). *)
Definition find_A (A : Matrix atype) (pleft pright k : Z) (s : state)
    : outcome (Z * Z * Z * state) :=
  if HYPER then
    '(pleft', slot, pA_start, pA_end) ←
      GB_lookup (is_hyper A) (mat_h A) (mat_p A) pleft pright k;
    Done (pleft', pA_start, pA_end,
          emit (EvLookup k pright slot pA_start pA_end) s)
  else
    pA_start ← (mat_p A).[k];
    pA_end ← (mat_p A).[k + 1];
    Done (pleft, pA_start, pA_end, s).

(** Lines 134-139: [w += A(:,k) * B(k,j)]. *)
Definition saxpy (A : Matrix atype) (pA_start pA_end : Z) (bkj : btype)
    : state -> outcome state :=
  for_loop pA_start pA_end (fun pA s =>
    i ← (mat_i A).[pA];
    MULTADD_NOMASK (mat_x A) i pA bkj s).

(** Lines 105-140, the body of the loop over B(:,j).  The loop carries
    [pleft] with the state; without [HYPER] there is no window and the
    carried [pleft] is not used. *)
Definition scatter_entry (A : Matrix atype) (B : Matrix btype) (pright : Z)
    (pB : Z) (ls : Z * state) : outcome (Z * state) :=
  k ← (mat_i B).[pB];
  '(pleft', pA_start, pA_end, s1) ← find_A A ls.1 pright k ls.2;
  if pA_start =? pA_end then Done (pleft', s1)
  else
    bkj ← (mat_x B).[pB];
    s2 ← saxpy A pA_start pA_end bkj s1;
    Done (pleft', s2).

(** Lines 146-150: gather C(:,j) from [w]. *)
Definition gather (Ci : list Z) (pC_start pC_end : Z)
    : state -> outcome state :=
  for_loop pC_start pC_end (fun pC s =>
    i ← Ci.[pC];
    COPY_ARRAY_TO_ARRAY pC i s).

(** Lines 76-150: one output column. *)
Definition column (A : Matrix atype) (B : Matrix btype) (Ci : list Z)
    (pB_start pB_end pC_start pC_end : Z) (s : state) : outcome state :=
  if pC_end =? pC_start then Done s
  else
    let bjnz := pB_end - pB_start in
    _ ← ASSERT (0 <? bjnz);
    s1 ← clear_w Ci pC_start pC_end s;
    '(pleft, pright, s2) ←
      (if HYPER then trim_Ah A (mat_i B) bjnz pB_end s1
       else Done (0, 0, s1));
    ls ← for_loop pB_start pB_end (scatter_entry A B pright) (pleft, s2);
    gather Ci pC_start pC_end ls.2.

(** The whole template.  [ASSERT (C->magic = MAGIC)] is an assignment: it
    stores [MAGIC] and tests the stored value. *)
Definition GB_AxB_Gustavson_nomask (s : state) : outcome state :=
  let A := stA s in
  let B := stB s in
  let C := stC s in
  _ ← ASSERT (NOT_ALIASED_3 (handle C) NULL (handle A) (handle B));
  _ ← ASSERT (vdim C =? vdim B);
  _ ← ASSERT (vlen C =? vlen A);
  _ ← ASSERT (vdim A =? vlen B);
  let Ci := mat_i C in
  _ ← ASSERT (nvec C <=? nvec B);
  let s1 := set_C (set_magic MAGIC C) s in
  _ ← ASSERT (negb (MAGIC =? 0));
  s2 ←
    (if HYPER then
       for_each_vector2 B C (fun kB s' =>
         '(j, pB_start, pB_end, pC_start, pC_end) ← GBI2_initj B C kB;
         column A B Ci pB_start pB_end pC_start pC_end s') s1
     else
       let Bp := mat_p B in
       let Cp := mat_p C in
       let n := vdim C in
       for_loop 0 n (fun j s' =>
         pB_start ← Bp.[j];
         pB_end ← Bp.[j + 1];
         pC_start ← Cp.[j];
         pC_end ← Cp.[j + 1];
         column A B Ci pB_start pB_end pC_start pC_end s') s1);
  _ ← ASSERT (is_success info);
  Done s2.

(** ** The reference of the specification for the locator

    No trimming, and a search of the full range [0..anvec-1] on every
    probe: each entry of B(:,j) is handled as the template does, but with
    the window set back to the full range. *)
Definition reference_scatter_entry (A : Matrix atype) (B : Matrix btype)
    (pB : Z) (s : state) : outcome state :=
  ls ← scatter_entry A B (nvec A - 1) pB (0, s);
  Done ls.2.

Definition reference_column (A : Matrix atype) (B : Matrix btype)
    (Ci : list Z) (pB_start pB_end pC_start pC_end : Z) (s : state)
    : outcome state :=
  if pC_end =? pC_start then Done s
  else
    let bjnz := pB_end - pB_start in
    _ ← ASSERT (0 <? bjnz);
    s1 ← clear_w Ci pC_start pC_end s;
    s2 ← for_loop pB_start pB_end (reference_scatter_entry A B) s1;
    gather Ci pC_start pC_end s2.

Definition reference_kernel (s : state) : outcome state :=
  let A := stA s in
  let B := stB s in
  let C := stC s in
  _ ← ASSERT (NOT_ALIASED_3 (handle C) NULL (handle A) (handle B));
  _ ← ASSERT (vdim C =? vdim B);
  _ ← ASSERT (vlen C =? vlen A);
  _ ← ASSERT (vdim A =? vlen B);
  let Ci := mat_i C in
  _ ← ASSERT (nvec C <=? nvec B);
  let s1 := set_C (set_magic MAGIC C) s in
  _ ← ASSERT (negb (MAGIC =? 0));
  s2 ←
    (if HYPER then
       for_each_vector2 B C (fun kB s' =>
         '(j, pB_start, pB_end, pC_start, pC_end) ← GBI2_initj B C kB;
         reference_column A B Ci pB_start pB_end pC_start pC_end s') s1
     else
       let Bp := mat_p B in
       let Cp := mat_p C in
       let n := vdim C in
       for_loop 0 n (fun j s' =>
         pB_start ← Bp.[j];
         pB_end ← Bp.[j + 1];
         pC_start ← Cp.[j];
         pC_end ← Cp.[j + 1];
         reference_column A B Ci pB_start pB_end pC_start pC_end s') s1);
  _ ← ASSERT (is_success info);
  Done s2.

End Template.

(** * What the arrays denote *)

Section Meaning.

Context {V : Type}.

(** The slot that stores column [j], if one does. *)
Definition slot_of (M : Matrix V) (j : Z) : option Z :=
  if is_hyper M then index_of j (mat_h M) 0
  else if decide (0 <= j < nvec M) then Some j else None.

(** The positions [pstart, pend) of a slot. *)
Definition slot_range (M : Matrix V) (k : Z) : option (Z * Z) :=
  pstart ← mat_p M !! Z.to_nat k;
  pend ← mat_p M !! Z.to_nat (k + 1);
  Some (pstart, pend).

(** The positions of column [j]; a column that is not stored has none. *)
Definition range_of (M : Matrix V) (j : Z) : option (Z * Z) :=
  k ← slot_of M j;
  slot_range M k.

(** The first position of [lo, hi) whose row id is [i]. *)
Definition row_pos (Mi : list Z) (i lo hi : Z) : option Z :=
  List.find (fun q => bool_decide (Mi !! Z.to_nat q = Some i))
            (seqZ lo (hi - lo)).

(** The position at which entry (i,j) is stored. *)
Definition position (M : Matrix V) (i j : Z) : option Z :=
  r ← range_of M j;
  row_pos (mat_i M) i r.1 r.2.

(** The value stored for row [i] among the positions [lo, hi). *)
Definition pick (M : Matrix V) (i lo hi : Z) : option V :=
  q ← row_pos (mat_i M) i lo hi;
  mat_x M !! Z.to_nat q.

(** The entry (i,j) of the matrix, when it is present. *)
Definition entry (M : Matrix V) (i j : Z) : option V :=
  r ← range_of M j;
  pick M i r.1 r.2.

(** The column a slot stores. *)
Definition column_of (M : Matrix V) (k : Z) : option Z :=
  if is_hyper M then mat_h M !! Z.to_nat k
  else if decide (0 <= k < nvec M) then Some k else None.

Definition col_nonempty (M : Matrix V) (j : Z) : Prop :=
  match range_of M j with
  | Some (pstart, pend) => pstart < pend
  | None => False
  end.

(** ** Well-formed matrices *)

Definition segment {X : Type} (l : list X) (lo hi : Z) : list X :=
  take (Z.to_nat (hi - lo)) (drop (Z.to_nat lo) l).

(** The row ids of slot [k]. *)
Definition vector_rows (M : Matrix V) (k : Z) : list Z :=
  match slot_range M k with
  | Some (pstart, pend) => segment (mat_i M) pstart pend
  | None => []
  end.

Record wf_matrix (M : Matrix V) : Prop := mk_wf {
  wf_vlen : 0 <= vlen M;
  wf_vdim : 0 <= vdim M;
  wf_nvec : 0 <= nvec M;
  wf_p_length : Z.of_nat (length (mat_p M)) = nvec M + 1;
  wf_p_first : mat_p M !! 0%nat = Some 0;
  wf_p_last : mat_p M !! Z.to_nat (nvec M) = Some (Z.of_nat (length (mat_i M)));
  wf_p_mono : StronglySorted Z.le (mat_p M);
  wf_h :
    if is_hyper M then
      Z.of_nat (length (mat_h M)) = nvec M /\
      StronglySorted Z.lt (mat_h M) /\
      Forall (fun j => 0 <= j < vdim M) (mat_h M)
    else nvec M = vdim M;
  wf_x_length : length (mat_x M) = length (mat_i M);
  wf_rows : Forall (fun r => 0 <= r < vlen M) (mat_i M);
  wf_sorted :
    Forall (fun k => StronglySorted Z.lt (vector_rows M k))
           (seqZ 0 (nvec M))
}.

End Meaning.

Section Product.

Context {SR : Semiring}.



(** The same sum written along the stored positions [lo, hi) of a column
    of B, in storage order. *)
Definition add_term (acc : ztype) (a : option atype) (bkj : btype) : ztype :=
  match a with
  | Some aik => accumulate acc (multiply aik bkj)
  | None => acc
  end.

Definition pterm (A : Matrix atype) (B : Matrix btype) (i : Z)
    (acc : ztype) (pB : Z) : ztype :=
  match mat_i B !! Z.to_nat pB, mat_x B !! Z.to_nat pB with
  | Some k, Some bkj => add_term acc (entry A i k) bkj
  | _, _ => acc
  end.

Definition dotp (A : Matrix atype) (B : Matrix btype) (i lo hi : Z) : ztype :=
  fold_left (pterm A B i) (seqZ lo (hi - lo)) IDENTITY.






End Product.

(** * What a call may change *)

Section Frame.

Context {SR : Semiring}.

(** From [s] to [s']: A and B are as they were, and so is C but for its
    value array, whose length is kept, as is the length of [w]. *)
Definition evolves (s s' : state) : Prop :=
  stA s' = stA s /\
  stB s' = stB s /\
  stC s' = set_x (mat_x (stC s')) (stC s) /\
  length (w s') = length (w s) /\
  length (mat_x (stC s')) = length (mat_x (stC s)).

(** The window [pleft..pright] of the locator cuts off no slot that a
    probe between [klow] and [kmax] can be looking for. *)
Definition window_ok (A : Matrix atype) (pleft pright klow kmax : Z) : Prop :=
  0 <= pleft /\
  pright < nvec A /\
  (forall s x, 0 <= s < pleft -> mat_h A !! Z.to_nat s = Some x -> x < klow) /\
  (forall s x, pright < s -> mat_h A !! Z.to_nat s = Some x -> kmax < x).

(** What [GB_lookup] has to answer for vector [k] of A. *)
Definition lookup_range (A : Matrix atype) (k : Z) : Z * Z :=
  default (-1, -1) (range_of A k).

(** The probe the kernel makes for the entry of B at position [q]. *)
Definition probe_at (A : Matrix atype) (B : Matrix btype) (q : Z)
    : Z * option Z * Z * Z :=
  let k := mat_i B !!! Z.to_nat q in
  (k, slot_of A k, (lookup_range A k).1, (lookup_range A k).2).

(** The events of the loop over B(:,j): lookups in the window that ends
    at [pright], and updates of [w]. *)
Definition scatter_event (pright : Z) (e : event) : Prop :=
  match e with
  | EvLookup _ pr _ _ _ => pr = pright
  | EvMultAdd _ => True
  | _ => False
  end.

(** The positions of C gathered, and the probes made, while slot [kB] of
    B is the current vector. *)
Definition col_positions (B : Matrix btype) (C : Matrix ztype) (kB : Z)
    : list Z :=
  match column_of B kB with
  | Some j =>
      match range_of C j with
      | Some (pC_start, pC_end) => seqZ pC_start (pC_end - pC_start)
      | None => []
      end
  | None => []
  end.

Definition col_probes (HYPER : bool) (A : Matrix atype) (B : Matrix btype)
    (C : Matrix ztype) (kB : Z) : list (Z * option Z * Z * Z) :=
  match column_of B kB with
  | Some j =>
      match range_of C j, slot_range B kB with
      | Some (pC_start, pC_end), Some (pB_start, pB_end) =>
          if HYPER && (pC_start <? pC_end)
          then probe_at A B <$> seqZ pB_start (pB_end - pB_start)
          else []
      | _, _ => []
      end
  | None => []
  end.

(** The state after the vectors of B below slot [m]. *)
Definition columns_done (HYPER : bool) (A : Matrix atype) (B : Matrix btype)
    (C : Matrix ztype) (s : state) (m : Z) (t : state) : Prop :=
  evolves s t /\
  (exists evs, trace t = trace s ++ evs /\
     gather_positions evs = concat (col_positions B C <$> seqZ 0 m) /\
     probes evs = concat (col_probes HYPER A B C <$> seqZ 0 m)) /\
  (forall kB j lo hi ps pe q r,
     0 <= kB < m -> column_of B kB = Some j ->
     slot_range B kB = Some (lo, hi) -> range_of C j = Some (ps, pe) ->
     ps <= q < pe -> mat_i C !! Z.to_nat q = Some r ->
     mat_x (stC t) !! Z.to_nat q = Some (dotp A B r lo hi)).

(** What the loop over the vectors of B needs of the code for one
    column: a column without entries in C is skipped, and a column with
    entries gets its sums, the other positions of [Cx] being kept. *)
Definition column_ok (HYPER : bool) (A : Matrix atype) (B : Matrix btype)
    (C : Matrix ztype) (col : Z -> Z -> Z -> Z -> state -> outcome state)
    : Prop :=
  (forall pB_start pB_end pC s, col pB_start pB_end pC pC s = Done s) /\
  (forall kB kC pB_start pB_end pC_start pC_end s,
     0 <= kB < nvec B -> slot_range B kB = Some (pB_start, pB_end) ->
     0 <= kC < nvec C -> slot_range C kC = Some (pC_start, pC_end) ->
     pC_start < pC_end -> pB_start < pB_end ->
     Z.of_nat (length (w s)) = vlen C ->
     length (mat_x (stC s)) = length (mat_i C) ->
     exists s' evs,
       col pB_start pB_end pC_start pC_end s = Done s' /\
       evolves s s' /\
       trace s' = trace s ++ evs /\
       gather_positions evs = seqZ pC_start (pC_end - pC_start) /\
       probes evs
         = (if HYPER then probe_at A B <$> seqZ pB_start (pB_end - pB_start)
            else []) /\
       (forall q r, pC_start <= q < pC_end ->
          mat_i C !! Z.to_nat q = Some r ->
          mat_x (stC s') !! Z.to_nat q = Some (dotp A B r pB_start pB_end)) /\
       (forall q, 0 <= q -> ~ pC_start <= q < pC_end ->
          mat_x (stC s') !! Z.to_nat q = mat_x (stC s) !! Z.to_nat q)).

(** The guarantee of the symbolic phase that the kernel relies on: a
    column with entries in C has entries in B. *)
Definition columns_covered (B : Matrix btype) (C : Matrix ztype) : Prop :=
  forall j, col_nonempty C j -> col_nonempty B j.

(** The preconditions of a call. *)
Record kernel_pre {KC : Constants} (HYPER : bool) (info : GrB_Info)
    (s : state) : Prop := mk_pre {
  pre_A : wf_matrix (stA s);
  pre_B : wf_matrix (stB s);
  pre_C : wf_matrix (stC s);
  pre_alias :
    NOT_ALIASED_3 (handle (stC s)) 0 (handle (stA s)) (handle (stB s)) = true;
  pre_vdim : vdim (stC s) = vdim (stB s);
  pre_vlen : vlen (stC s) = vlen (stA s);
  pre_inner : vdim (stA s) = vlen (stB s);
  pre_nvec : nvec (stC s) <= nvec (stB s);
  pre_magic : magic (stC s) = MAGIC;
  pre_magic_nonzero : MAGIC <> 0;
  pre_w : Z.of_nat (length (w s)) = vlen (stC s);
  pre_info : info = GrB_SUCCESS;
  pre_mode :
    HYPER = false ->
    is_hyper (stA s) = false /\ is_hyper (stB s) = false /\
    is_hyper (stC s) = false
}.

End Frame.


(** * The trimming rule as the specification words it *)

Section TrimRuleOfTheSpec.

Context {SR : Semiring}.

(** The trimming rule with the guard of the specification: "if B is
    hypersparse and this column has more than two entries, trim the
    locator window to the last row id B will reference in this column";
    otherwise the window stays [0..nvec(A)-1]. *)
Definition trim_rule_of_the_spec : Prop :=
  forall (A : Matrix atype) (B : Matrix btype) (C : Matrix ztype)
    (kB kC pB_start pB_end pC_start pC_end : Z) (s : state),
    wf_matrix A -> wf_matrix B -> wf_matrix C ->
    vdim A = vlen B -> vlen C = vlen A ->
    0 <= kB < nvec B -> slot_range B kB = Some (pB_start, pB_end) ->
    0 <= kC < nvec C -> slot_range C kC = Some (pC_start, pC_end) ->
    pC_start < pC_end -> pB_start < pB_end ->
    Z.of_nat (length (w s)) = vlen C ->
    length (mat_x (stC s)) = length (mat_i C) ->
    exists s' imax pright sc,
      column true A B (mat_i C) pB_start pB_end pC_start pC_end s = Done s' /\
      mat_i B !! Z.to_nat (pB_end - 1) = Some imax /\
      trace s' = trace s ++
        clear_events (mat_i C) pC_start pC_end ++
        (if is_hyper B && (2 <? pB_end - pB_start)
         then [EvTrim imax pright] else []) ++
        sc ++
        gather_events (mat_i C) pC_start pC_end /\
      Forall (scatter_event pright) sc /\
      if is_hyper B && (2 <? pB_end - pB_start) then
        pright <= nvec A - 1 /\
        (forall sl x, pright < sl -> mat_h A !! Z.to_nat sl = Some x ->
           imax < x) /\
        (forall sl x, 0 <= sl <= pright -> mat_h A !! Z.to_nat sl = Some x ->
           x <= imax)
      else pright = nvec A - 1.

End TrimRuleOfTheSpec.

(** * The claims about the whole call as the specification words them

    The specification states the claims below for every call that meets
    the preconditions of its section 4.4, which are those of [kernel_pre],
    on a pattern of C that meets the output contract of the symbolic
    phase.  What they say of the result is stated here of a call that
    returns. *)

Section ClaimsOfTheSpec.

Context {SR : Semiring} {KC : Constants}.






End ClaimsOfTheSpec.

(** * Checks by computation *)

Section Checks.

Context {SR : Semiring}.

Definition nonemptyb {V : Type} (M : Matrix V) (j : Z) : bool :=
  match range_of M j with
  | Some (pstart, pend) => pstart <? pend
  | None => false
  end.

(** [columns_covered], column by column. *)
Definition covered_check (B : Matrix btype) (C : Matrix ztype) : bool :=
  forallb (fun j => implb (nonemptyb C j) (nonemptyb B j))
          (seqZ 0 (vdim C)).




End Checks.

(** * Concrete inputs *)

(** The semiring (x, +) over the integers, identity 0. *)
Definition plus_times : Semiring :=
  {| atype := Z; btype := Z; ztype := Z;
     IDENTITY := 0; multiply := Z.mul; accumulate := Z.add |}.

(** A stand-in for the constant [MAGIC]. *)
Definition magic_constants : Constants := {| MAGIC := 1 |}.

(** The scenario of the specification: A has columns 0:{(0,1)} and
    1:{(1,2)}, B has columns 0:{(0,1)} and 1:{(0,1),(1,1)}; the pattern of C
    is the structure of the product.  [Cx] and [w] hold stale values. *)
Definition scenario_A : Matrix Z :=
  mkMatrix 1 1 2 2 2 false [0; 1; 2] [] [0; 1] [1; 2].

Definition scenario_B : Matrix Z :=
  mkMatrix 2 1 2 2 2 false [0; 1; 3] [] [0; 0; 1] [1; 1; 1].

Definition scenario_C : Matrix Z :=
  mkMatrix 3 1 2 2 2 false [0; 1; 3] [] [0; 0; 1] [7; 7; 7].

Definition scenario : @state plus_times :=
  @mkState plus_times scenario_A scenario_B scenario_C [9; 9] [].

(** The same call with another stale workspace. *)
Definition scenario_stale : @state plus_times :=
  @mkState plus_times scenario_A scenario_B scenario_C [5; -3] [].

(** The same matrices, C not marked as finalized. *)
Definition scenario_unfinalized : @state plus_times :=
  @mkState plus_times scenario_A scenario_B
    (mkMatrix 3 0 2 2 2 false [0; 1; 3] [] [0; 0; 1] [7; 7; 7]) [9; 9] [].

(** A hypersparse case: A is 4 by 6 and stores the columns 0, 1, 2 and 5,
    with A(0,0) = 1, A(1,1) = 2, A(2,2) = 3 and A(3,5) = 4; B is 6 by 2 and
    stores column 1 alone, with rows 0, 1 and 2; C is 4 by 2. *)
Definition hyper_A : Matrix Z :=
  mkMatrix 1 1 4 6 4 true [0; 1; 2; 3; 4] [0; 1; 2; 5] [0; 1; 2; 3] [1; 2; 3; 4].

Definition hyper_B : Matrix Z :=
  mkMatrix 2 1 6 2 1 true [0; 3] [1] [0; 1; 2] [1; 1; 1].

Definition hyper_C : Matrix Z :=
  mkMatrix 3 1 4 2 1 true [0; 3] [1] [0; 1; 2] [7; 7; 7].

Definition hyper_scenario : @state plus_times :=
  @mkState plus_times hyper_A hyper_B hyper_C [9; 9; 9; 9] [].

(** B hypersparse with three entries in its column, A sparse (4 by 6, one
    entry on each of the columns 0 to 3). *)
Definition sparse_A : Matrix Z :=
  mkMatrix 1 1 4 6 6 false [0; 1; 2; 3; 4; 4; 4] [] [0; 1; 2; 3] [1; 2; 3; 4].

Definition sparse_A_scenario : @state plus_times :=
  @mkState plus_times sparse_A hyper_B hyper_C [9; 9; 9; 9] [].

(** B sparse with three entries in its column 0, A hypersparse. *)
Definition sparse_B : Matrix Z :=
  mkMatrix 2 1 6 1 1 false [0; 3] [] [0; 1; 2] [1; 1; 1].

Definition sparse_C : Matrix Z :=
  mkMatrix 3 1 4 1 1 false [0; 3] [] [0; 1; 2] [7; 7; 7].

Definition sparse_B_scenario : @state plus_times :=
  @mkState plus_times hyper_A sparse_B sparse_C [9; 9; 9; 9] [].

(** B and C with an empty column 0: B has the column 1:{(0,1),(1,1)}
    alone, and so has the pattern of C. *)
Definition gap_B : Matrix Z :=
  mkMatrix 2 1 2 2 2 false [0; 0; 2] [] [0; 1] [1; 1].

Definition gap_C : Matrix Z :=
  mkMatrix 3 1 2 2 2 false [0; 0; 2] [] [0; 1] [7; 7].

Definition gap_scenario : @state plus_times :=
  @mkState plus_times scenario_A gap_B gap_C [9; 9] [].









(** The scenario of the specification with a workspace that is too
    short. *)
Definition short_scenario : @state plus_times :=
  @mkState plus_times scenario_A scenario_B scenario_C [9] [].

(** ** Records for the examples

    A value is a type tag, an integer and a mark that tells whether the
    value owns its allocation; the union of an entry is as large as a
    value; a node and an edge are their ids; a mapping is its size. *)
Definition example_records : RecordTypes :=
  {| SIValue := SIType * Z * bool;
     Node := Z;
     Edge := Z;
     EntryValue := SIType * Z * bool;
     rax := Z;
     pointer := Z;
     member_s := fun u => u;
     member_n := fun u => u.1.2;
     member_e := fun u => u.1.2;
     assign_s := fun _ v => v;
     assign_n := fun u n => (u.1.1, n, u.2);
     assign_e := fun u x => (u.1.1, x, u.2);
     raxSize := fun m => m;
     SI_TYPE := fun v => v.1.1;
     ptrval := fun v => v.1.2;
     Node_at := fun v => v.1.2;
     Edge_at := fun v => v.1.2;
     SI_Node := fun q =>
       (T_NODE, match q with Rec.RefNode i | Rec.RefEdge i => i end, false);
     SI_Edge := fun q =>
       (T_EDGE, match q with Rec.RefNode i | Rec.RefEdge i => i end, false);
     SIValue_MakeVolatile := fun v => (v.1, false);
     SIValue_Persist := fun v => (v.1, true) |}.

Definition example_layout : Layout example_records :=
  {| sizeof_Record := 8;
     sizeof_Entry := 40;
     zero_entry := Rec.mkEntry (@EntryValue example_records)
                     (T_NULL, 0, false) Rec.REC_TYPE_UNKNOWN |}.

Definition example_strings : Strings example_records :=
  {| buffer := list Byte.byte;
     SI_ConstStringVal := fun _ =>
       (T_STRING, 0, false) : @SIValue example_records;
     SIValue_StringJoinLen := fun vs _ => Z.of_nat (length vs);
     SIValue_StringJoin := fun vs _ buf cap =>
       (buf, cap, Z.of_nat (length vs));
     rm_realloc := fun buf _ => buf |}.

Definition example_hashing : Hashing example_records :=
  {| EntityID := Z;
     XXH64_state_t := list (list Byte.byte);
     XXH64_reset := fun _ => (XXH_OK, []);
     XXH64_update := fun st data => (XXH_OK, st ++ [data]);
     XXH64_digest := fun st => Z.of_nat (length (concat st));
     ENTITY_GET_ID := fun u : @EntryValue example_records => u.1.2;
     bytes_of_EntityID := fun id => replicate (Z.to_nat id) Byte.x01;
     bytes_of_int64 := fun z => replicate (Z.to_nat z) Byte.x01;
     longval := fun v : @SIValue example_records => v.1.2;
     stringval := fun _ => chars_REC_TYPE_UNKNOWN;
     bytes_of_ptrval := fun _ => [];
     bytes_of_doubleval := fun _ => [] |}.

(** Two records over a mapping of three aliases. *)
Definition example_entry (t : SIType) (z : Z) (owned : bool)
    (tag : Rec.RecordEntryType) : Rec.Entry (@EntryValue example_records) :=
  Rec.mkEntry _ (t, z, owned) tag.

Definition record_a : @_Record example_records :=
  @mk_Record example_records 3
    [example_entry T_INT64 5 true Rec.REC_TYPE_SCALAR;
     example_entry T_NULL 0 false Rec.REC_TYPE_UNKNOWN;
     example_entry T_NODE 7 false Rec.REC_TYPE_NODE].

(** [record_a] with other tags and values that stand for the same bytes
    in the hash. *)
Definition record_c : @_Record example_records :=
  @mk_Record example_records 3
    [example_entry T_BOOL 5 false Rec.REC_TYPE_SCALAR;
     example_entry T_STRING 0 true Rec.REC_TYPE_SCALAR;
     example_entry T_EDGE 7 false Rec.REC_TYPE_EDGE].

Definition record_b : @_Record example_records :=
  @mk_Record example_records 3
    [example_entry T_NULL 0 false Rec.REC_TYPE_UNKNOWN;
     example_entry T_STRING 2 true Rec.REC_TYPE_SCALAR;
     example_entry T_EDGE 7 false Rec.REC_TYPE_EDGE].

(** The scenario with a column of B missing: column 0 of C has an entry
    and column 0 of B has none. *)
Definition missing_scenario : @state plus_times :=
  @mkState plus_times scenario_A gap_B scenario_C [9; 9] [].

(** The scenario with a pattern of C that has no entry. *)
Definition empty_C : Matrix Z :=
  mkMatrix 3 1 2 2 2 false [0; 0; 0] [] [] [].

Definition empty_scenario : @state plus_times :=
  @mkState plus_times scenario_A scenario_B empty_C [9; 9] [EvClear 0].

(** * Loops, outcomes and arrays: the rules used below *)

Lemma bind_Done {X Y : Type} (f : X -> outcome Y) (x : X) :
  (Done x ≫= f) = f x.
Proof. reflexivity. Qed.

Lemma bind_Done_inv {X Y : Type} (f : X -> outcome Y) (m : outcome X) (y : Y) :
  (m ≫= f) = Done y -> exists x, m = Done x /\ f x = Done y.
Proof. destruct m; simpl; intros H; try discriminate. eauto. Qed.

Lemma array_get_Done {X : Type} (a : list X) (i : Z) (v : X) :
  a.[i] = Done v <-> 0 <= i /\ a !! Z.to_nat i = Some v.
Proof.
  unfold array_get. destruct (decide (0 <= i)) as [Hi|Hi].
  - destruct (a !! Z.to_nat i) eqn:E; split.
    + intros [= ->]. auto.
    + intros [_ [= ->]]. reflexivity.
    + discriminate.
    + intros [_ ?]. discriminate.
  - split; [discriminate | intros [? _]; lia].
Qed.

Lemma array_get_lookup {X : Type} (a : list X) (i : Z) (v : X) :
  0 <= i -> a !! Z.to_nat i = Some v -> a.[i] = Done v.
Proof. intros. apply array_get_Done. auto. Qed.

Lemma array_get_in_bounds {X : Type} (a : list X) (i : Z) :
  0 <= i < Z.of_nat (length a) -> exists v, a.[i] = Done v /\ a !! Z.to_nat i = Some v.
Proof.
  intros Hi. destruct (lookup_lt_is_Some_2 a (Z.to_nat i)) as [v Hv]; [lia|].
  exists v. split; [apply array_get_lookup; [lia | done] | done].
Qed.

Lemma array_set_Done {X : Type} (a : list X) (i : Z) (v : X) :
  0 <= i < Z.of_nat (length a) ->
  array_set a i v = Done (<[Z.to_nat i := v]> a).
Proof. intros Hi. unfold array_set. destruct (decide _); [done | lia]. Qed.

Lemma for_loop_empty {S : Type} (lo hi : Z) (body : Z -> S -> outcome S) (s : S) :
  hi <= lo -> for_loop lo hi body s = Done s.
Proof.
  intros H. unfold for_loop. replace (Z.to_nat (hi - lo)) with O by lia.
  reflexivity.
Qed.

Lemma for_loop_step {S : Type} (lo hi : Z) (body : Z -> S -> outcome S) (s : S) :
  lo < hi -> for_loop lo hi body s = body lo s ≫= for_loop (lo + 1) hi body.
Proof.
  intros H. unfold for_loop.
  replace (Z.to_nat (hi - lo)) with (Datatypes.S (Z.to_nat (hi - (lo + 1)))) by lia.
  reflexivity.
Qed.

(** The invariant rule of a counted loop: total correctness. *)
Lemma for_loop_rule {S : Type} (Inv : Z -> S -> Prop) (lo hi : Z)
    (body : Z -> S -> outcome S) (s : S) :
  lo <= hi ->
  Inv lo s ->
  (forall p t, lo <= p < hi -> Inv p t ->
     exists t', body p t = Done t' /\ Inv (p + 1) t') ->
  exists s', for_loop lo hi body s = Done s' /\ Inv hi s'.
Proof.
  intros Hle. remember (Z.to_nat (hi - lo)) as n eqn:Hn.
  revert lo s Hle Hn. induction n as [|n IH]; intros lo s Hle Hn H0 Hstep.
  - assert (lo = hi) as -> by lia. exists s. split; [|done].
    apply for_loop_empty. lia.
  - destruct (Hstep lo s) as (t & Hb & Ht); [lia | done |].
    destruct (IH (lo + 1) t) as (s' & Hl & Hs'); [lia | lia | done | |].
    + intros p u Hp Hu. apply Hstep; [lia | done].
    + exists s'. split; [|done].
      rewrite for_loop_step by lia. rewrite Hb. exact Hl.
Qed.

(** Two loops whose bodies agree on the range agree. *)
Lemma for_loop_ext {S : Type} (lo hi : Z) (f g : Z -> S -> outcome S) (s : S) :
  (forall p t, lo <= p < hi -> f p t = g p t) ->
  for_loop lo hi f s = for_loop lo hi g s.
Proof.
  unfold for_loop. remember (Z.to_nat (hi - lo)) as n eqn:Hn.
  revert lo s Hn. induction n as [|n IH]; intros lo s Hn Hfg; [done|].
  simpl. rewrite Hfg by lia. destruct (g lo s); simpl; try done.
  apply IH; [lia|]. intros p t Hp. apply Hfg. lia.
Qed.

(** * The record accessors *)

Section RecordFacts.

Variables SIValue Node Edge EntryValue : Type.
Variable member_s : EntryValue -> SIValue.
Variable member_n : EntryValue -> Node.
Variable member_e : EntryValue -> Edge.

Abbreviation Entry := (Rec.Entry EntryValue).
Abbreviation Record := (list Entry).

Lemma store_type_spec (r : Record) (idx : Z) (t : Rec.RecordEntryType) (e : Entry) :
  0 <= idx ->
  r !! Z.to_nat idx = Some e ->
  Rec.store_type EntryValue r idx t
  = Done (<[Z.to_nat idx := Rec.mkEntry EntryValue (Rec.value _ e) t]> r).
Proof.
  intros H0 He. unfold Rec.store_type.
  rewrite (array_get_lookup r idx e) by done. rewrite bind_Done.
  apply array_set_Done. apply lookup_lt_Some in He. lia.
Qed.

(** C10.  The accessors [Record_GetScalar], [Record_GetNode] and
    [Record_GetEdge] write to the record: for every record [r] and every
    valid index [idx], holding an entry [e] of any type, each returns the
    record in which the type tag of entry [idx] is [REC_TYPE_SCALAR],
    [REC_TYPE_NODE], [REC_TYPE_EDGE] respectively, the stored value and all
    other entries being as before, and returns the stored value (for a node
    or an edge, the address of the stored value).  In particular
    [Record_GetScalar] on an entry of type [REC_TYPE_UNKNOWN] leaves it
    tagged as a scalar, whereas [Record_GetType] had answered
    [REC_TYPE_UNKNOWN]. *)
Theorem Record_Get_accessors_overwrite_type (r : Record) (idx : Z) (e : Entry) :
  0 <= idx ->
  r !! Z.to_nat idx = Some e ->
  let retag t := <[Z.to_nat idx := Rec.mkEntry EntryValue (Rec.value _ e) t]> r in
  Rec.Record_GetScalar _ _ member_s r idx
    = Done (retag Rec.REC_TYPE_SCALAR, member_s (Rec.value _ e)) /\
  Rec.Record_GetNode _ r idx
    = Done (retag Rec.REC_TYPE_NODE, Rec.RefNode idx) /\
  Rec.deref_node _ _ member_n (retag Rec.REC_TYPE_NODE) (Rec.RefNode idx)
    = Done (member_n (Rec.value _ e)) /\
  Rec.Record_GetEdge _ r idx
    = Done (retag Rec.REC_TYPE_EDGE, Rec.RefEdge idx) /\
  Rec.deref_edge _ _ member_e (retag Rec.REC_TYPE_EDGE) (Rec.RefEdge idx)
    = Done (member_e (Rec.value _ e)) /\
  (forall t, Rec.Record_GetType _ (retag t) idx = Done t) /\
  (forall t (n : nat), n <> Z.to_nat idx -> retag t !! n = r !! n) /\
  (Rec.type _ e = Rec.REC_TYPE_UNKNOWN ->
   Rec.Record_GetType _ r idx = Done Rec.REC_TYPE_UNKNOWN /\
   exists r' v, Rec.Record_GetScalar _ _ member_s r idx = Done (r', v) /\
     Rec.Record_GetType _ r' idx = Done Rec.REC_TYPE_SCALAR).
Proof.
  intros H0 He retag.
  assert (Hlt : (Z.to_nat idx < length r)%nat) by (eapply lookup_lt_Some; eauto).
  assert (Hget : forall t, (retag t).[idx]
                   = Done (Rec.mkEntry EntryValue (Rec.value _ e) t)).
  { intros t. apply array_get_lookup; [done|].
    unfold retag. by rewrite list_lookup_insert_eq. }
  assert (Hsc : Rec.Record_GetScalar _ _ member_s r idx
                = Done (retag Rec.REC_TYPE_SCALAR, member_s (Rec.value _ e))).
  { unfold Rec.Record_GetScalar.
    rewrite (store_type_spec r idx _ e) by done. rewrite bind_Done.
    fold (retag Rec.REC_TYPE_SCALAR). rewrite Hget. reflexivity. }
  repeat split.
  - exact Hsc.
  - unfold Rec.Record_GetNode. by rewrite (store_type_spec r idx _ e).
  - simpl. by rewrite Hget.
  - unfold Rec.Record_GetEdge. by rewrite (store_type_spec r idx _ e).
  - simpl. by rewrite Hget.
  - intros t. unfold Rec.Record_GetType. by rewrite Hget.
  - intros t n Hn. unfold retag. by rewrite list_lookup_insert_ne.
  - unfold Rec.Record_GetType.
    rewrite (array_get_lookup r idx e) by done. simpl. by rewrite H.
  - exists (retag Rec.REC_TYPE_SCALAR), (member_s (Rec.value _ e)).
    split; [exact Hsc|]. unfold Rec.Record_GetType. by rewrite Hget.
Qed.

End RecordFacts.

(** * Sorted index lists *)

Lemma StronglySorted_lookup {X : Type} (R : X -> X -> Prop) (l : list X)
    (a b : nat) (x y : X) :
  StronglySorted R l -> l !! a = Some x -> l !! b = Some y -> (a < b)%nat ->
  R x y.
Proof.
  intros Hs. revert a b x y.
  induction Hs as [|z l Hs IH Hall]; intros a b x y Ha Hb Hab.
  - discriminate.
  - destruct b as [|b]; [lia|]. destruct a as [|a]; simpl in *.
    + injection Ha as <-. rewrite Forall_forall in Hall. apply Hall.
      eapply list_elem_of_lookup_2. exact Hb.
    + eapply IH; eauto. lia.
Qed.

Lemma sorted_lt_inj (l : list Z) (a b : nat) (x : Z) :
  StronglySorted Z.lt l -> l !! a = Some x -> l !! b = Some x -> a = b.
Proof.
  intros Hs Ha Hb. destruct (lt_eq_lt_dec a b) as [[Hlt|Heq]|Hgt]; [|done|].
  - pose proof (StronglySorted_lookup _ _ _ _ _ _ Hs Ha Hb Hlt). lia.
  - pose proof (StronglySorted_lookup _ _ _ _ _ _ Hs Hb Ha Hgt). lia.
Qed.

Lemma index_of_Some (j : Z) (Xh : list Z) (k s : Z) :
  index_of j Xh k = Some s ->
  k <= s /\ Xh !! Z.to_nat (s - k) = Some j.
Proof.
  revert k. induction Xh as [|y ys IH]; intros k; simpl; [discriminate|].
  destruct (y =? j) eqn:E.
  - intros [= <-]. apply Z.eqb_eq in E as ->.
    replace (Z.to_nat (k - k)) with O by lia. split; [lia | done].
  - intros H. apply IH in H as [Hk Hl]. split; [lia|].
    replace (Z.to_nat (s - k)) with (S (Z.to_nat (s - (k + 1)))) by lia.
    exact Hl.
Qed.

Lemma index_of_None (j : Z) (Xh : list Z) (k : Z) (n : nat) :
  index_of j Xh k = None -> Xh !! n <> Some j.
Proof.
  revert k n. induction Xh as [|y ys IH]; intros k n; simpl; [by destruct n|].
  destruct (y =? j) eqn:E; [discriminate|].
  intros H. destruct n as [|n]; simpl.
  - intros [= ->]. rewrite Z.eqb_refl in E. discriminate.
  - eapply IH; eauto.
Qed.

Lemma index_of_sorted (j : Z) (Xh : list Z) (n : nat) :
  StronglySorted Z.lt Xh -> Xh !! n = Some j ->
  index_of j Xh 0 = Some (Z.of_nat n).
Proof.
  intros Hs Hn. destruct (index_of j Xh 0) as [s|] eqn:E.
  - apply index_of_Some in E as [H0 Hl].
    rewrite (sorted_lt_inj Xh n (Z.to_nat (s - 0)) j Hs Hn Hl).
    f_equal. lia.
  - exfalso. eapply index_of_None; eauto.
Qed.

(** * Finding a row in a range of positions *)

Lemma find_snoc {X : Type} (f : X -> bool) (l : list X) (x : X) :
  List.find f (l ++ [x])
  = match List.find f l with
    | Some y => Some y
    | None => if f x then Some x else None
    end.
Proof.
  induction l as [|y l IH]; simpl; [done|]. destruct (f y); done.
Qed.

Lemma seqZ_snoc (lo q : Z) :
  lo <= q -> seqZ lo (q + 1 - lo) = seqZ lo (q - lo) ++ [q].
Proof.
  intros H. replace (q + 1 - lo) with ((q - lo) + 1) by lia.
  rewrite seqZ_app by lia. f_equal.
  rewrite seqZ_cons by lia. rewrite seqZ_nil by lia. f_equal. lia.
Qed.

Lemma row_pos_empty (Mi : list Z) (i lo hi : Z) :
  hi <= lo -> row_pos Mi i lo hi = None.
Proof. intros H. unfold row_pos. rewrite seqZ_nil by lia. done. Qed.

Lemma row_pos_step (Mi : list Z) (i lo q : Z) :
  lo <= q ->
  row_pos Mi i lo (q + 1)
  = match row_pos Mi i lo q with
    | Some r => Some r
    | None => if bool_decide (Mi !! Z.to_nat q = Some i) then Some q else None
    end.
Proof.
  intros H. unfold row_pos. rewrite seqZ_snoc by lia. rewrite find_snoc. done.
Qed.

Lemma row_pos_Some (Mi : list Z) (i lo hi q : Z) :
  row_pos Mi i lo hi = Some q ->
  lo <= q < hi /\ Mi !! Z.to_nat q = Some i.
Proof.
  unfold row_pos. intros H. apply find_some in H as [Hin Hb].
  apply list_elem_of_In, elem_of_seqZ in Hin.
  apply bool_decide_eq_true in Hb. split; [lia | done].
Qed.



(** * Consequences of well-formedness *)

Section WfFacts.

Context {V : Type} (M : Matrix V) (Hwf : wf_matrix M).

Lemma p_lookup (k : Z) :
  0 <= k <= nvec M -> exists q, mat_p M !! Z.to_nat k = Some q.
Proof.
  intros Hk. apply lookup_lt_is_Some_2.
  pose proof (wf_p_length M Hwf). lia.
Qed.

Lemma p_mono (a b x y : Z) :
  0 <= a <= b ->
  mat_p M !! Z.to_nat a = Some x -> mat_p M !! Z.to_nat b = Some y -> x <= y.
Proof.
  intros Hab Ha Hb. destruct (decide (a = b)) as [->|Hne].
  - rewrite Ha in Hb. injection Hb as ->. lia.
  - eapply (StronglySorted_lookup Z.le); [apply (wf_p_mono M Hwf) | exact Ha | exact Hb | lia].
Qed.

Lemma slot_range_Some (k ps pe : Z) :
  slot_range M k = Some (ps, pe) ->
  mat_p M !! Z.to_nat k = Some ps /\ mat_p M !! Z.to_nat (k + 1) = Some pe.
Proof.
  unfold slot_range. destruct (mat_p M !! Z.to_nat k) as [a|]; simpl; [|done].
  destruct (mat_p M !! Z.to_nat (k + 1)) as [b|]; simpl; [|done].
  intros [= -> ->]. done.
Qed.

Lemma slot_range_in (k : Z) :
  0 <= k < nvec M ->
  exists ps pe, slot_range M k = Some (ps, pe) /\
    0 <= ps <= pe /\ pe <= Z.of_nat (length (mat_i M)).
Proof.
  intros Hk.
  destruct (p_lookup k) as [ps Hps]; [lia|].
  destruct (p_lookup (k + 1)) as [pe Hpe]; [lia|].
  exists ps, pe. unfold slot_range. rewrite Hps, Hpe. split; [done|].
  pose proof (wf_p_first M Hwf) as H0. pose proof (wf_p_last M Hwf) as Hn.
  repeat split.
  - eapply (p_mono 0 k); [lia | exact H0 | exact Hps].
  - eapply (p_mono k (k + 1)); [lia | exact Hps | exact Hpe].
  - eapply (p_mono (k + 1) (nvec M)); [lia | exact Hpe | exact Hn].
Qed.

(** The ranges of two slots do not overlap. *)
Lemma slot_range_mono (k1 k2 ps1 pe1 ps2 pe2 : Z) :
  0 <= k1 < k2 ->
  slot_range M k1 = Some (ps1, pe1) -> slot_range M k2 = Some (ps2, pe2) ->
  pe1 <= ps2.
Proof.
  intros Hk H1 H2. apply slot_range_Some in H1 as [_ H1].
  apply slot_range_Some in H2 as [H2 _].
  eapply (p_mono (k1 + 1) k2); [lia | exact H1 | exact H2].
Qed.

Lemma segment_lookup {X : Type} (l : list X) (lo hi : Z) (n : nat) :
  0 <= lo -> (Z.of_nat n < hi - lo) ->
  segment l lo hi !! n = l !! Z.to_nat (lo + Z.of_nat n).
Proof.
  intros H0 Hn. unfold segment. rewrite lookup_take_lt by lia.
  rewrite lookup_drop. f_equal. lia.
Qed.

(** Row ids increase strictly within a slot. *)
Lemma rows_sorted (k ps pe a b x y : Z) :
  0 <= k < nvec M ->
  slot_range M k = Some (ps, pe) ->
  ps <= a -> a < b -> b < pe ->
  mat_i M !! Z.to_nat a = Some x -> mat_i M !! Z.to_nat b = Some y ->
  x < y.
Proof.
  intros Hk Hr Ha Hab Hb Hx Hy.
  pose proof (wf_sorted M Hwf) as Hs. rewrite Forall_forall in Hs.
  specialize (Hs k). unfold vector_rows in Hs. rewrite Hr in Hs.
  destruct (slot_range_in k Hk) as (ps' & pe' & Hr' & Hb0 & _).
  rewrite Hr in Hr'. injection Hr' as <- <-.
  eapply (StronglySorted_lookup Z.lt _ (Z.to_nat (a - ps)) (Z.to_nat (b - ps))).
  - apply Hs. apply elem_of_seqZ. lia.
  - rewrite segment_lookup by lia. rewrite <- Hx. f_equal. lia.
  - rewrite segment_lookup by lia. rewrite <- Hy. f_equal. lia.
  - lia.
Qed.

Lemma rows_distinct (k ps pe a b x : Z) :
  0 <= k < nvec M ->
  slot_range M k = Some (ps, pe) ->
  ps <= a < pe -> ps <= b < pe ->
  mat_i M !! Z.to_nat a = Some x -> mat_i M !! Z.to_nat b = Some x ->
  a = b.
Proof.
  intros Hk Hr Ha Hb Hx Hy.
  destruct (Z.lt_trichotomy a b) as [Hlt|[Heq|Hgt]]; [|done|].
  - pose proof (rows_sorted k ps pe a b x x Hk Hr ltac:(lia) Hlt ltac:(lia) Hx Hy). lia.
  - pose proof (rows_sorted k ps pe b a x x Hk Hr ltac:(lia) ltac:(lia) ltac:(lia) Hy Hx). lia.
Qed.

Lemma row_in_bounds (q r : Z) :
  mat_i M !! Z.to_nat q = Some r -> 0 <= r < vlen M.
Proof.
  intros H. pose proof (wf_rows M Hwf) as Hr. rewrite Forall_forall in Hr.
  apply Hr. eapply list_elem_of_lookup_2. exact H.
Qed.

Lemma x_lookup (q : Z) :
  0 <= q < Z.of_nat (length (mat_i M)) ->
  exists v, mat_x M !! Z.to_nat q = Some v.
Proof.
  intros Hq. apply lookup_lt_is_Some_2. rewrite (wf_x_length M Hwf). lia.
Qed.

Lemma i_lookup (q : Z) :
  0 <= q < Z.of_nat (length (mat_i M)) ->
  exists r, mat_i M !! Z.to_nat q = Some r.
Proof. intros Hq. apply lookup_lt_is_Some_2. lia. Qed.

Lemma slot_of_bounds (j k : Z) : slot_of M j = Some k -> 0 <= k < nvec M.
Proof.
  unfold slot_of. pose proof (wf_h M Hwf) as Hh.
  destruct (is_hyper M).
  - destruct Hh as (Hlen & _ & _). intros H.
    apply index_of_Some in H as [H0 Hl]. apply lookup_lt_Some in Hl. lia.
  - destruct (decide (0 <= j < nvec M)); [|done]. intros [= <-]. done.
Qed.

Lemma slot_of_column (j k : Z) : slot_of M j = Some k -> 0 <= j < vdim M.
Proof.
  unfold slot_of. pose proof (wf_h M Hwf) as Hh.
  destruct (is_hyper M).
  - destruct Hh as (_ & _ & Hall). intros H.
    apply index_of_Some in H as [_ Hl]. rewrite Forall_forall in Hall.
    apply Hall. eapply list_elem_of_lookup_2. exact Hl.
  - destruct (decide (0 <= j < nvec M)); [|done]. intros _. lia.
Qed.

Lemma column_of_slot (k j : Z) :
  0 <= k -> column_of M k = Some j -> slot_of M j = Some k.
Proof.
  unfold column_of, slot_of. pose proof (wf_h M Hwf) as Hh.
  destruct (is_hyper M).
  - destruct Hh as (_ & Hs & _). intros H0 Hl.
    rewrite (index_of_sorted j _ (Z.to_nat k) Hs Hl). f_equal. lia.
  - destruct (decide (0 <= k < nvec M)); [|done]. intros _ [= <-].
    destruct (decide _); [done | lia].
Qed.

Lemma slot_of_column_of (j k : Z) :
  slot_of M j = Some k -> column_of M k = Some j.
Proof.
  unfold column_of, slot_of. destruct (is_hyper M).
  - intros H. apply index_of_Some in H as [H0 Hl].
    rewrite <- Hl. f_equal. lia.
  - destruct (decide (0 <= j < nvec M)); [|done]. intros [= <-].
    destruct (decide _); [done | lia].
Qed.

Lemma column_of_in (k : Z) :
  0 <= k < nvec M -> exists j, column_of M k = Some j.
Proof.
  intros Hk. unfold column_of. pose proof (wf_h M Hwf) as Hh.
  destruct (is_hyper M).
  - destruct Hh as (Hlen & _). apply lookup_lt_is_Some_2. lia.
  - destruct (decide _); [eauto | lia].
Qed.

Lemma column_of_mono (k1 k2 j1 j2 : Z) :
  0 <= k1 < k2 -> column_of M k1 = Some j1 -> column_of M k2 = Some j2 -> j1 < j2.
Proof.
  unfold column_of. pose proof (wf_h M Hwf) as Hh. destruct (is_hyper M).
  - destruct Hh as (_ & Hs & _). intros Hk H1 H2.
    eapply (StronglySorted_lookup Z.lt); [exact Hs | exact H1 | exact H2 | lia].
  - repeat destruct (decide _); try done. intros Hk [= <-] [= <-]. lia.
Qed.

End WfFacts.

(** * The vector locator *)

Section Locator.

Variable X : list Z.
Hypothesis Xsorted : StronglySorted Z.lt X.

Lemma X_le (a b x y : Z) :
  0 <= a <= b -> X !! Z.to_nat a = Some x -> X !! Z.to_nat b = Some y -> x <= y.
Proof.
  intros Hab Ha Hb. destruct (decide (a = b)) as [->|Hne].
  - rewrite Ha in Hb. injection Hb as ->. lia.
  - apply Z.lt_le_incl.
    eapply (StronglySorted_lookup Z.lt); [exact Xsorted | exact Ha | exact Hb | lia].
Qed.

Lemma X_lt (a b x y : Z) :
  0 <= a < b -> X !! Z.to_nat a = Some x -> X !! Z.to_nat b = Some y -> x < y.
Proof.
  intros Hab Ha Hb.
  eapply (StronglySorted_lookup Z.lt); [exact Xsorted | exact Ha | exact Hb | lia].
Qed.

(** The search ends, on a single slot of a window that is not empty:
    the first slot that is not below [i], or the last slot. *)
Lemma GB_BINARY_TRIM_SEARCH_spec (fuel : nat) (i pl pr : Z) :
  0 <= pl -> pr < Z.of_nat (length X) ->
  (Z.to_nat (pr - pl) <= fuel)%nat ->
  exists q,
    GB_BINARY_TRIM_SEARCH fuel i X pl pr
      = Done (q, if decide (pl <= pr) then q else pr) /\
    (pl <= pr -> pl <= q <= pr) /\
    (pr < pl -> q = pl) /\
    (forall s x, pl <= s < q -> X !! Z.to_nat s = Some x -> x < i) /\
    (forall x, q < pr -> X !! Z.to_nat q = Some x -> i <= x).
Proof.
  revert pl pr. induction fuel as [|fuel IH]; intros pl pr H0 Hlen Hfuel.
  - simpl. destruct (pl <? pr) eqn:E; [apply Z.ltb_lt in E; lia|].
    apply Z.ltb_ge in E. exists pl. repeat split; try lia.
    destruct (decide (pl <= pr)); [do 2 f_equal; lia | done].
  - simpl. destruct (pl <? pr) eqn:E.
    + apply Z.ltb_lt in E.
      assert (Hq : Z.quot (pl + pr) 2 = (pl + pr) / 2)
        by (apply Z.quot_div_nonneg; lia).
      rewrite Hq. set (pm := (pl + pr) / 2).
      assert (Hpm : pl <= pm < pr) by (unfold pm; split;
        [apply Z.div_le_lower_bound | apply Z.div_lt_upper_bound]; lia).
      destruct (array_get_in_bounds X pm) as (xm & Hget & Hxm); [lia|].
      rewrite Hget, bind_Done. destruct (xm <? i) eqn:Ex.
      * apply Z.ltb_lt in Ex.
        destruct (IH (pm + 1) pr) as (q & Hrun & Hin & _ & Hlow & Hup); [lia..|].
        exists q. destruct (decide (pm + 1 <= pr)); [|lia].
        destruct (decide (pl <= pr)); [|lia].
        split; [exact Hrun|]. repeat split; try lia.
        -- intros s x Hs Hx. destruct (decide (s <= pm)).
           ++ pose proof (X_le s pm x xm ltac:(lia) Hx Hxm). lia.
           ++ apply (Hlow s x); [lia | done].
        -- exact Hup.
      * apply Z.ltb_ge in Ex.
        destruct (IH pl pm) as (q & Hrun & Hin & _ & Hlow & Hup); [lia..|].
        exists q. destruct (decide (pl <= pm)); [|lia].
        destruct (decide (pl <= pr)); [|lia].
        split; [exact Hrun|]. repeat split; try lia.
        -- exact Hlow.
        -- intros x Hqpr Hx. destruct (decide (q < pm)); [by apply Hup|].
           assert (q = pm) as -> by lia. rewrite Hxm in Hx.
           injection Hx as <-. done.
    + apply Z.ltb_ge in E. exists pl. repeat split; try lia.
      destruct (decide (pl <= pr)); [do 2 f_equal; lia | done].
Qed.

(** [locate]: the slot found holds [i]; when none is found, no slot of
    the window holds [i].  In both cases the slots from the old left
    bound to the answer are below [i]. *)
Lemma GB_BINARY_SEARCH_spec (i pl pr : Z) :
  0 <= pl -> pr < Z.of_nat (length X) ->
  exists q found,
    GB_BINARY_SEARCH i X pl pr = Done (q, found) /\
    pl <= q /\ (pl <= pr -> q <= pr) /\ (pr < pl -> q = pl) /\
    (forall s x, pl <= s < q -> X !! Z.to_nat s = Some x -> x < i) /\
    (found = true -> X !! Z.to_nat q = Some i /\ q <= pr) /\
    (found = false ->
     forall s, pl <= s <= pr -> X !! Z.to_nat s <> Some i).
Proof.
  intros H0 Hlen. unfold GB_BINARY_SEARCH.
  destruct (GB_BINARY_TRIM_SEARCH_spec (Z.to_nat (pr - pl)) i pl pr)
    as (q & Hrun & Hin & Hout & Hlow & Hup); [lia..|].
  rewrite Hrun, bind_Done. destruct (decide (pl <= pr)) as [Hne|He].
  - rewrite Z.eqb_refl.
    destruct (array_get_in_bounds X q) as (xl & Hget & Hxl); [lia|].
    rewrite Hget, bind_Done. exists q, (xl =? i).
    split; [done|]. repeat split; try lia; try exact Hlow.
    + apply Z.eqb_eq in H as ->. done.
    + intros Hf s Hs Hx. apply Z.eqb_neq in Hf.
      destruct (Z.lt_trichotomy s q) as [Hlt|[->|Hgt]].
      * pose proof (Hlow s i ltac:(lia) Hx). lia.
      * rewrite Hxl in Hx. injection Hx as ->. done.
      * pose proof (Hup xl ltac:(lia) Hxl).
        pose proof (X_lt q s xl i ltac:(lia) Hxl Hx). lia.
  - assert (q = pl) as -> by lia.
    destruct (pl =? pr) eqn:E; [apply Z.eqb_eq in E; lia|].
    exists pl, false. split; [done|]. repeat split; try lia; try done.
Qed.

(** [trim_right]: the slots cut off are exactly those of the window
    whose column id exceeds [imax]. *)
Lemma GB_bracket_right_spec (imax kleft kright : Z) :
  0 <= kleft -> kright < Z.of_nat (length X) ->
  exists r,
    GB_bracket_right imax X kleft kright = Done r /\
    r <= kright /\ (kleft <= kright + 1 -> kleft <= r + 1) /\
    (forall s x, r < s <= kright -> kleft <= s ->
       X !! Z.to_nat s = Some x -> imax < x) /\
    (forall s x, kleft <= s <= r -> X !! Z.to_nat s = Some x -> x <= imax).
Proof.
  intros H0 Hlen. unfold GB_bracket_right.
  destruct (GB_BINARY_TRIM_SEARCH_spec (Z.to_nat (kright - kleft)) imax kleft kright)
    as (q & Hrun & Hin & Hout & Hlow & Hup); [lia..|].
  rewrite Hrun, bind_Done. destruct (decide (kleft <= kright)) as [Hne|He].
  - rewrite Z.eqb_refl.
    destruct (array_get_in_bounds X q) as (xl & Hget & Hxl); [lia|].
    rewrite Hget, bind_Done. destruct (imax <? xl) eqn:E.
    + apply Z.ltb_lt in E. exists (q - 1). split; [done|].
      repeat split; try lia.
      * intros s x Hs Hk Hx.
        pose proof (X_le q s xl x ltac:(lia) Hxl Hx). lia.
      * intros s x Hs Hx. pose proof (Hlow s x ltac:(lia) Hx). lia.
    + apply Z.ltb_ge in E. exists q. split; [done|].
      repeat split; try lia.
      * intros s x Hs Hk Hx. pose proof (Hup xl ltac:(lia) Hxl).
        pose proof (X_lt q s xl x ltac:(lia) Hxl Hx). lia.
      * intros s x Hs Hx. destruct (decide (s = q)) as [->|Hn].
        -- rewrite Hxl in Hx. injection Hx as <-. done.
        -- pose proof (Hlow s x ltac:(lia) Hx). lia.
  - assert (q = kleft) as -> by lia.
    destruct (kleft =? kright) eqn:E; [apply Z.eqb_eq in E; lia|].
    exists kright. split; [done|]. repeat split; try lia.
Qed.

End Locator.

(** * The effect of the macros and of the three inner loops *)

Section Steps.

Context {SR : Semiring}.

Lemma set_x_same {V : Type} (M : Matrix V) : set_x (mat_x M) M = M.
Proof. by destruct M. Qed.

Lemma evolves_refl (s : state) : evolves s s.
Proof. unfold evolves. rewrite set_x_same. done. Qed.

Lemma evolves_trans (s1 s2 s3 : state) :
  evolves s1 s2 -> evolves s2 s3 -> evolves s1 s3.
Proof.
  intros (HA & HB & HC & Hw & Hx) (HA' & HB' & HC' & Hw' & Hx').
  unfold evolves. rewrite HA', HB', Hw', Hx'. repeat split; try done.
  rewrite HC' at 1. rewrite HC. done.
Qed.

Lemma evolves_step_w (s t : state) (w' : list ztype) (e : event) :
  evolves s t -> length w' = length (w s) ->
  evolves s (emit e (set_w w' t)).
Proof. intros (HA & HB & HC & Hw & Hx) Hl. unfold evolves. simpl. done. Qed.

Lemma evolves_step_x (s t : state) (x' : list ztype) (e : event) :
  evolves s t -> length x' = length (mat_x (stC s)) ->
  evolves s (emit e (set_C (set_x x' (stC t)) t)).
Proof.
  intros (HA & HB & HC & Hw & Hx) Hl. unfold evolves. simpl.
  repeat split; try done. rewrite HC. done.
Qed.

Lemma omap_fmap_None {X Y Z : Type} (f : X -> Y) (g : Y -> option Z) (l : list X) :
  (forall x, g (f x) = None) -> omap g (f <$> l) = [].
Proof. intros H. induction l as [|x l IH]; csimpl; [done|]. by rewrite H. Qed.

Lemma omap_fmap_Some {X Y Z : Type} (f : X -> Y) (g : Y -> option Z)
    (h : X -> Z) (l : list X) :
  (forall x, g (f x) = Some (h x)) -> omap g (f <$> l) = h <$> l.
Proof.
  intros H. induction l as [|x l IH]; csimpl; [done|]. rewrite H.
  by rewrite IH.
Qed.

Lemma fmap_seqZ_snoc {Y : Type} (f : Z -> Y) (lo q : Z) :
  lo <= q ->
  f <$> seqZ lo (q + 1 - lo) = (f <$> seqZ lo (q - lo)) ++ [f q].
Proof. intros H. rewrite seqZ_snoc by lia. by rewrite fmap_app. Qed.

(** Lines 84-88. *)
Lemma clear_w_spec (Ci : list Z) (lo hi : Z) (s : state) :
  0 <= lo <= hi -> hi <= Z.of_nat (length Ci) ->
  Forall (fun r => 0 <= r < Z.of_nat (length (w s))) Ci ->
  exists s',
    clear_w Ci lo hi s = Done s' /\
    evolves s s' /\
    mat_x (stC s') = mat_x (stC s) /\
    trace s' = trace s ++
      ((fun q => EvClear (Ci !!! Z.to_nat q)) <$> seqZ lo (hi - lo)) /\
    (forall q r, lo <= q < hi -> Ci !! Z.to_nat q = Some r ->
       w s' !! Z.to_nat r = Some IDENTITY).
Proof.
  intros Hlo Hhi Hrows. rewrite Forall_forall in Hrows. unfold clear_w.
  apply (for_loop_rule (fun p t =>
    evolves s t /\ mat_x (stC t) = mat_x (stC s) /\
    trace t = trace s ++
      ((fun q => EvClear (Ci !!! Z.to_nat q)) <$> seqZ lo (p - lo)) /\
    (forall q r, lo <= q < p -> Ci !! Z.to_nat q = Some r ->
       w t !! Z.to_nat r = Some IDENTITY))).
  - lia.
  - split; [apply evolves_refl|]. split; [done|]. split.
    + rewrite seqZ_nil by lia. simpl. by rewrite app_nil_r.
    + intros q r Hq. lia.
  - intros p t Hp (Hev & Hx & Htr & Hw).
    destruct (array_get_in_bounds Ci p) as (r & Hget & Hr); [lia|].
    rewrite Hget, bind_Done. unfold COPY_SCALAR_TO_ARRAY.
    assert (Hlen : length (w t) = length (w s)) by apply Hev.
    assert (Hrb : 0 <= r < Z.of_nat (length (w t))).
    { rewrite Hlen. apply Hrows. eapply list_elem_of_lookup_2. exact Hr. }
    rewrite array_set_Done by done. rewrite bind_Done.
    eexists. split; [reflexivity|].
    split; [apply evolves_step_w; [done | by rewrite length_insert]|].
    simpl. split; [done|]. split.
    + rewrite Htr, fmap_seqZ_snoc by lia. rewrite <- app_assoc.
      rewrite (list_lookup_total_correct _ _ _ Hr). done.
    + intros q r' Hq Hr'.
      assert (0 <= r' < Z.of_nat (length (w s)))
        by (apply Hrows; eapply list_elem_of_lookup_2; exact Hr').
      destruct (decide (r' = r)) as [->|Hne].
      * apply list_lookup_insert_eq. lia.
      * rewrite list_lookup_insert_ne by lia. destruct (decide (q = p)) as [->|Hqp].
        -- rewrite Hr in Hr'. congruence.
        -- apply (Hw q r'); [lia | done].
Qed.

(** Lines 146-150. *)
Lemma gather_spec (Ci : list Z) (lo hi : Z) (s : state) :
  0 <= lo <= hi -> hi <= Z.of_nat (length Ci) ->
  hi <= Z.of_nat (length (mat_x (stC s))) ->
  Forall (fun r => 0 <= r < Z.of_nat (length (w s))) Ci ->
  exists s',
    gather Ci lo hi s = Done s' /\
    evolves s s' /\
    w s' = w s /\
    trace s' = trace s ++
      ((fun q => EvGather q (Ci !!! Z.to_nat q)) <$> seqZ lo (hi - lo)) /\
    (forall q r, lo <= q < hi -> Ci !! Z.to_nat q = Some r ->
       mat_x (stC s') !! Z.to_nat q = w s !! Z.to_nat r) /\
    (forall q, 0 <= q -> ~ lo <= q < hi ->
       mat_x (stC s') !! Z.to_nat q = mat_x (stC s) !! Z.to_nat q).
Proof.
  intros Hlo Hhi Hxlen Hrows. rewrite Forall_forall in Hrows. unfold gather.
  apply (for_loop_rule (fun p t =>
    evolves s t /\ w t = w s /\
    trace t = trace s ++
      ((fun q => EvGather q (Ci !!! Z.to_nat q)) <$> seqZ lo (p - lo)) /\
    (forall q r, lo <= q < p -> Ci !! Z.to_nat q = Some r ->
       mat_x (stC t) !! Z.to_nat q = w s !! Z.to_nat r) /\
    (forall q, 0 <= q -> ~ lo <= q < p ->
       mat_x (stC t) !! Z.to_nat q = mat_x (stC s) !! Z.to_nat q))).
  - lia.
  - split; [apply evolves_refl|]. split; [done|]. split; [|split].
    + rewrite seqZ_nil by lia. simpl. by rewrite app_nil_r.
    + intros q r Hq. lia.
    + done.
  - intros p t Hp (Hev & Hw & Htr & Hin & Hout).
    destruct (array_get_in_bounds Ci p) as (r & Hget & Hr); [lia|].
    rewrite Hget, bind_Done. unfold COPY_ARRAY_TO_ARRAY.
    assert (Hrb : 0 <= r < Z.of_nat (length (w t))).
    { rewrite Hw. apply Hrows. eapply list_elem_of_lookup_2. exact Hr. }
    destruct (array_get_in_bounds (w t) r) as (v & Hgw & Hv); [lia|].
    rewrite Hgw, bind_Done.
    assert (Hxl : length (mat_x (stC t)) = length (mat_x (stC s))) by apply Hev.
    rewrite array_set_Done by lia. rewrite bind_Done.
    eexists. split; [reflexivity|].
    split; [apply evolves_step_x; [done | by rewrite length_insert]|].
    simpl. split; [done|]. split; [|split].
    + rewrite Htr, fmap_seqZ_snoc by lia. rewrite <- app_assoc.
      rewrite (list_lookup_total_correct _ _ _ Hr). done.
    + intros q r' Hq Hr'. destruct (decide (q = p)) as [->|Hqp].
      * rewrite list_lookup_insert_eq by lia. rewrite Hr in Hr'.
        injection Hr' as <-. rewrite <- Hw. done.
      * rewrite list_lookup_insert_ne by lia. apply Hin; [lia | done].
    + intros q Hq0 Hq. rewrite list_lookup_insert_ne by lia.
      apply Hout; [done | lia].
Qed.

End Steps.

Section Scatter.

Context {SR : Semiring}.

Lemma pick_empty {V : Type} (A : Matrix V) (i lo hi : Z) :
  hi <= lo -> pick A i lo hi = None.
Proof. intros H. unfold pick. by rewrite row_pos_empty. Qed.

(** Lines 134-139. *)
Lemma saxpy_spec (A : Matrix atype) (k lo hi : Z) (bkj : btype) (s : state) :
  wf_matrix A -> 0 <= k < nvec A -> slot_range A k = Some (lo, hi) ->
  vlen A <= Z.of_nat (length (w s)) ->
  exists s',
    saxpy A lo hi bkj s = Done s' /\
    evolves s s' /\
    mat_x (stC s') = mat_x (stC s) /\
    trace s' = trace s ++
      ((fun q => EvMultAdd (mat_i A !!! Z.to_nat q)) <$> seqZ lo (hi - lo)) /\
    (forall i v, 0 <= i -> w s !! Z.to_nat i = Some v ->
       w s' !! Z.to_nat i = Some (add_term v (pick A i lo hi) bkj)).
Proof.
  intros Hwf Hk Hr Hlen.
  destruct (slot_range_in A Hwf k Hk) as (lo' & hi' & Hr' & Hb & Hhi).
  rewrite Hr in Hr'. injection Hr' as <- <-. unfold saxpy.
  apply (for_loop_rule (fun p t =>
    evolves s t /\ mat_x (stC t) = mat_x (stC s) /\
    trace t = trace s ++
      ((fun q => EvMultAdd (mat_i A !!! Z.to_nat q)) <$> seqZ lo (p - lo)) /\
    (forall i v, 0 <= i -> w s !! Z.to_nat i = Some v ->
       w t !! Z.to_nat i = Some (add_term v (pick A i lo p) bkj)))).
  - lia.
  - split; [apply evolves_refl|]. split; [done|]. split.
    + rewrite seqZ_nil by lia. simpl. by rewrite app_nil_r.
    + intros i v Hi Hv. rewrite pick_empty by lia. done.
  - intros p t Hp (Hev & Hx & Htr & Hw).
    destruct (array_get_in_bounds (mat_i A) p) as (r & Hget & Hri); [lia|].
    rewrite Hget, bind_Done. unfold MULTADD_NOMASK.
    destruct (x_lookup A Hwf p) as (a & Ha); [lia|].
    rewrite (array_get_lookup _ p a) by (done || lia). rewrite bind_Done.
    pose proof (row_in_bounds A Hwf p r Hri) as Hrb.
    assert (Hwl : length (w t) = length (w s)) by apply Hev.
    destruct (lookup_lt_is_Some_2 (w s) (Z.to_nat r)) as [v Hv]; [lia|].
    assert (Hnone : row_pos (mat_i A) r lo p = None).
    { destruct (row_pos (mat_i A) r lo p) as [q|] eqn:E; [|done].
      apply row_pos_Some in E as [Hq Hqr].
      pose proof (rows_distinct A Hwf k lo hi q p r Hk Hr ltac:(lia) ltac:(lia) Hqr Hri).
      lia. }
    pose proof (Hw r v ltac:(lia) Hv) as Hwr.
    unfold pick in Hwr. rewrite Hnone in Hwr. simpl in Hwr.
    rewrite (array_get_lookup _ r v) by (done || lia). rewrite bind_Done.
    rewrite array_set_Done by lia. rewrite bind_Done.
    eexists. split; [reflexivity|].
    split; [apply evolves_step_w; [done | by rewrite length_insert]|].
    simpl. split; [done|]. split.
    + rewrite Htr, fmap_seqZ_snoc by lia. rewrite <- app_assoc.
      rewrite (list_lookup_total_correct _ _ _ Hri). done.
    + intros i v' Hi Hv'. unfold pick. rewrite row_pos_step by lia.
      destruct (decide (i = r)) as [->|Hne].
      * rewrite Hv in Hv'. injection Hv' as <-.
        rewrite list_lookup_insert_eq by lia. rewrite Hnone.
        rewrite bool_decide_eq_true_2 by done. simpl. rewrite Ha. done.
      * rewrite list_lookup_insert_ne by lia.
        rewrite (Hw i v' Hi Hv'). unfold pick.
        destruct (row_pos (mat_i A) i lo p) as [q|]; [done|].
        rewrite bool_decide_eq_false_2; [done|].
        rewrite Hri. intros [= ->]. done.
Qed.

Lemma range_of_slot {V : Type} (A : Matrix V) (k sl : Z) (r : Z * Z) :
  slot_of A k = Some sl -> slot_range A sl = Some r ->
  range_of A k = Some r.
Proof. intros H1 H2. unfold range_of. rewrite H1. simpl. done. Qed.

Lemma range_of_None {V : Type} (A : Matrix V) (k : Z) :
  slot_of A k = None -> range_of A k = None.
Proof. intros H. unfold range_of. rewrite H. done. Qed.

(** Lines 116-123: the locator answers the range of A(:,k), and leaves
    a window that is good for the larger vectors. *)
Lemma find_A_spec (HYPER : bool) (A : Matrix atype)
    (pleft pright k klow kmax : Z) (s : state) :
  wf_matrix A ->
  (HYPER = false -> is_hyper A = false) ->
  0 <= k < vdim A -> klow <= k <= kmax ->
  (is_hyper A = true -> window_ok A pleft pright klow kmax) ->
  exists pleft',
    find_A HYPER A pleft pright k s
    = Done (pleft', (lookup_range A k).1, (lookup_range A k).2,
            if HYPER
            then emit (EvLookup k pright (slot_of A k)
                         (lookup_range A k).1 (lookup_range A k).2) s
            else s) /\
    (is_hyper A = true -> window_ok A pleft' pright (k + 1) kmax).
Proof.
  intros Hwf Hmode Hk Hkk Hwin. unfold find_A.
  pose proof (wf_h A Hwf) as Hh.
  destruct (is_hyper A) eqn:Ehyp.
  - (* A is hypersparse: the template is expanded with HYPER *)
    destruct HYPER; [|by specialize (Hmode eq_refl)].
    destruct Hh as (Hlen & Hsort & Hcols).
    destruct (Hwin eq_refl) as (Hl0 & Hr & Hlow & Hup).
    unfold GB_lookup.
    destruct (GB_BINARY_SEARCH_spec (mat_h A) Hsort k pleft pright)
      as (q & found & Hrun & Hq & Hqin & Hqout & Hbelow & Hyes & Hno); [lia..|].
    rewrite Hrun, bind_Done. destruct found.
    + destruct (Hyes eq_refl) as [Hqk Hqr].
      assert (Hslot : slot_of A k = Some q).
      { unfold slot_of. rewrite Ehyp.
        rewrite (index_of_sorted k _ (Z.to_nat q) Hsort Hqk). f_equal. lia. }
      destruct (slot_range_in A Hwf q) as (ps & pe & Hrg & Hb & _); [lia|].
      destruct (slot_range_Some A q ps pe Hrg) as [Hps Hpe].
      rewrite (array_get_lookup _ q ps) by (done || lia). rewrite bind_Done.
      rewrite (array_get_lookup _ (q + 1) pe) by (done || lia). rewrite bind_Done.
      unfold lookup_range. rewrite (range_of_slot A k q (ps, pe) Hslot Hrg).
      rewrite Hslot. simpl. eexists. split; [reflexivity|].
      intros _. repeat split; try lia.
      * intros t x Ht Hx. pose proof (Hbelow t x) as Hb1.
        destruct (decide (t < pleft)).
        -- pose proof (Hlow t x ltac:(lia) Hx). lia.
        -- specialize (Hb1 ltac:(lia) Hx). lia.
      * exact Hup.
    + assert (Hslot : slot_of A k = None).
      { unfold slot_of. rewrite Ehyp.
        destruct (index_of k (mat_h A) 0) as [t|] eqn:E; [|done].
        apply index_of_Some in E as [Ht0 Htk]. exfalso.
        replace (t - 0) with t in Htk by lia.
        destruct (decide (t < pleft)).
        { pose proof (Hlow t k ltac:(lia) Htk). lia. }
        destruct (decide (pright < t)).
        { pose proof (Hup t k ltac:(lia) Htk). lia. }
        apply (Hno eq_refl t); [lia | done]. }
      unfold lookup_range. rewrite (range_of_None A k Hslot), Hslot. simpl.
      eexists. split; [reflexivity|].
      intros _. repeat split; try lia.
      * intros t x Ht Hx. pose proof (Hbelow t x) as Hb1.
        destruct (decide (t < pleft)).
        -- pose proof (Hlow t x ltac:(lia) Hx). lia.
        -- specialize (Hb1 ltac:(lia) Hx). lia.
      * exact Hup.
  - (* A is sparse: the range is read off directly *)
    assert (Hslot : slot_of A k = Some k).
    { unfold slot_of. rewrite Ehyp. destruct (decide _); [done | lia]. }
    destruct (slot_range_in A Hwf k) as (ps & pe & Hrg & Hb & _); [lia|].
    destruct (slot_range_Some A k ps pe Hrg) as [Hps Hpe].
    unfold lookup_range. rewrite (range_of_slot A k k (ps, pe) Hslot Hrg).
    rewrite Hslot. simpl.
    destruct HYPER; unfold GB_lookup;
      rewrite (array_get_lookup _ k ps) by (done || lia); rewrite bind_Done;
      rewrite (array_get_lookup _ (k + 1) pe) by (done || lia);
      rewrite bind_Done; eexists; (split; [reflexivity | done]).
Qed.

End Scatter.

Section ScatterLoop.

Context {SR : Semiring}.

Lemma evolves_emit (s t : state) (e : event) :
  evolves s t -> evolves s (emit e t).
Proof. intros H. exact H. Qed.

Lemma entry_range {V : Type} (A : Matrix V) (i k lo hi : Z) :
  range_of A k = Some (lo, hi) -> entry A i k = pick A i lo hi.
Proof. intros H. unfold entry. rewrite H. done. Qed.

Lemma entry_None {V : Type} (A : Matrix V) (i k : Z) :
  range_of A k = None -> entry A i k = None.
Proof. intros H. unfold entry. rewrite H. done. Qed.

Lemma range_of_inv {V : Type} (A : Matrix V) (k lo hi : Z) :
  range_of A k = Some (lo, hi) ->
  exists sl, slot_of A k = Some sl /\ slot_range A sl = Some (lo, hi).
Proof.
  unfold range_of. destruct (slot_of A k) as [sl|]; simpl; [|done]. eauto.
Qed.

Lemma Forall_scatter_multadd (pright : Z) (f : Z -> Z) (l : list Z) :
  Forall (scatter_event pright) ((fun q => EvMultAdd (f q)) <$> l).
Proof. apply Forall_fmap, Forall_forall. intros q _. exact I. Qed.

(** Lines 105-140, one entry of B(:,j). *)
Lemma scatter_entry_spec (HYPER : bool) (A : Matrix atype) (B : Matrix btype)
    (pright pB pleft klow kmax k : Z) (bkj : btype) (s : state) :
  wf_matrix A ->
  (HYPER = false -> is_hyper A = false) ->
  0 <= pB ->
  mat_i B !! Z.to_nat pB = Some k ->
  mat_x B !! Z.to_nat pB = Some bkj ->
  0 <= k < vdim A -> klow <= k <= kmax ->
  vlen A <= Z.of_nat (length (w s)) ->
  (is_hyper A = true -> window_ok A pleft pright klow kmax) ->
  exists pleft' s',
    scatter_entry HYPER A B pright pB (pleft, s) = Done (pleft', s') /\
    evolves s s' /\
    mat_x (stC s') = mat_x (stC s) /\
    (exists evs, trace s' = trace s ++ evs /\
       gather_positions evs = [] /\
       probes evs = (if HYPER then [probe_at A B pB] else []) /\
       Forall (scatter_event pright) evs) /\
    (forall i v, 0 <= i -> w s !! Z.to_nat i = Some v ->
       w s' !! Z.to_nat i = Some (add_term v (entry A i k) bkj)) /\
    (is_hyper A = true -> window_ok A pleft' pright (k + 1) kmax).
Proof.
  intros Hwf Hmode HpB Hk Hb Hkb Hkk Hlen Hwin. unfold scatter_entry.
  rewrite (array_get_lookup _ pB k) by done. rewrite bind_Done. simpl fst. simpl snd.
  destruct (find_A_spec HYPER A pleft pright k klow kmax s Hwf Hmode Hkb Hkk Hwin)
    as (pleft' & Hfind & Hwin').
  rewrite Hfind, bind_Done.
  set (s1 := if HYPER then emit _ s else s).
  assert (Hs1 : evolves s s1 /\ w s1 = w s /\ mat_x (stC s1) = mat_x (stC s) /\
            exists evs, trace s1 = trace s ++ evs /\ gather_positions evs = [] /\
              probes evs = (if HYPER then [probe_at A B pB] else []) /\
              Forall (scatter_event pright) evs).
  { unfold s1. destruct HYPER.
    - split; [apply evolves_emit, evolves_refl|]. do 2 (split; [done|]).
      eexists. split; [reflexivity|]. split; [done|]. split.
      + unfold probe_at. rewrite (list_lookup_total_correct _ _ _ Hk). done.
      + constructor; [reflexivity | constructor].
    - split; [apply evolves_refl|]. do 2 (split; [done|]).
      exists []. rewrite app_nil_r. done. }
  clearbody s1. destruct Hs1 as (Hev1 & Hw1 & Hx1 & evs1 & Htr1 & Hg1 & Hp1 & Hf1).
  unfold lookup_range in *. destruct (range_of A k) as [[ps pe]|] eqn:Erg; simpl.
  - destruct (ps =? pe) eqn:E.
    + apply Z.eqb_eq in E as ->. exists pleft', s1.
      split; [done|]. split; [done|]. split; [done|].
      split; [by exists evs1|]. split; [|done].
      intros i v Hi Hv. rewrite (entry_range A i k pe pe Erg).
      rewrite pick_empty by lia. simpl. by rewrite Hw1.
    + destruct (range_of_inv A k ps pe Erg) as (sl & Hsl & Hrg).
      rewrite (array_get_lookup _ pB bkj) by done. rewrite bind_Done.
      destruct (saxpy_spec A sl ps pe bkj s1 Hwf) as (s2 & Hrun & Hev2 & Hx2 & Htr2 & Hw2).
      { eapply slot_of_bounds; eauto. }
      { done. }
      { by rewrite Hw1. }
      rewrite Hrun, bind_Done. exists pleft', s2.
      split; [done|]. split; [eapply evolves_trans; eauto|].
      split; [congruence|]. split.
      * eexists. split; [rewrite Htr2, Htr1, <- app_assoc; reflexivity|].
        unfold gather_positions, probes in *. rewrite !omap_app, Hg1, Hp1.
        rewrite !omap_fmap_None by done. rewrite !app_nil_r.
        split; [done|]. split; [done|].
        apply Forall_app. split; [done | apply Forall_scatter_multadd].
      * split; [|done]. intros i v Hi Hv.
        rewrite (entry_range A i k ps pe Erg). apply Hw2; [done|].
        by rewrite Hw1.
  - exists pleft', s1.
    split; [done|]. split; [done|]. split; [done|].
    split; [by exists evs1|]. split; [|done].
    intros i v Hi Hv. rewrite (entry_None A i k Erg). simpl. by rewrite Hw1.
Qed.

(** Lines 105-140, the loop over B(:,j). *)
Lemma scatter_loop_spec (HYPER : bool) (A : Matrix atype) (B : Matrix btype)
    (kB lo hi pleft pright kmax : Z) (s : state) :
  wf_matrix A -> wf_matrix B ->
  (HYPER = false -> is_hyper A = false) ->
  vdim A = vlen B ->
  0 <= kB < nvec B -> slot_range B kB = Some (lo, hi) ->
  vlen A <= Z.of_nat (length (w s)) ->
  (is_hyper A = true -> window_ok A pleft pright 0 kmax) ->
  (forall q k, lo <= q < hi -> mat_i B !! Z.to_nat q = Some k -> k <= kmax) ->
  exists ls',
    for_loop lo hi (scatter_entry HYPER A B pright) (pleft, s) = Done ls' /\
    evolves s ls'.2 /\
    mat_x (stC ls'.2) = mat_x (stC s) /\
    (exists evs, trace ls'.2 = trace s ++ evs /\
       gather_positions evs = [] /\
       probes evs = (if HYPER then probe_at A B <$> seqZ lo (hi - lo) else []) /\
       Forall (scatter_event pright) evs) /\
    (forall i v, 0 <= i -> w s !! Z.to_nat i = Some v ->
       w ls'.2 !! Z.to_nat i
       = Some (fold_left (pterm A B i) (seqZ lo (hi - lo)) v)).
Proof.
  intros HwfA HwfB Hmode Hdim HkB Hrg Hlen Hwin Hmax.
  destruct (slot_range_in B HwfB kB HkB) as (lo' & hi' & Hrg' & Hb & Hhi).
  rewrite Hrg in Hrg'. injection Hrg' as <- <-.
  cut (exists ls', for_loop lo hi (scatter_entry HYPER A B pright) (pleft, s) = Done ls' /\
    (fun p (ls : Z * state) =>
    evolves s ls.2 /\ mat_x (stC ls.2) = mat_x (stC s) /\
    (exists evs, trace ls.2 = trace s ++ evs /\
       gather_positions evs = [] /\
       probes evs = (if HYPER then probe_at A B <$> seqZ lo (p - lo) else []) /\
       Forall (scatter_event pright) evs) /\
    (forall i v, 0 <= i -> w s !! Z.to_nat i = Some v ->
       w ls.2 !! Z.to_nat i
       = Some (fold_left (pterm A B i) (seqZ lo (p - lo)) v)) /\
    (is_hyper A = true -> exists klow,
       window_ok A ls.1 pright klow kmax /\
       forall q k, p <= q < hi -> mat_i B !! Z.to_nat q = Some k -> klow <= k)) hi ls').
  { intros (ls' & Hrun & H1 & H2 & H3 & H4 & _). exists ls'. done. }
  apply (for_loop_rule (fun p (ls : Z * state) =>
    evolves s ls.2 /\ mat_x (stC ls.2) = mat_x (stC s) /\
    (exists evs, trace ls.2 = trace s ++ evs /\
       gather_positions evs = [] /\
       probes evs = (if HYPER then probe_at A B <$> seqZ lo (p - lo) else []) /\
       Forall (scatter_event pright) evs) /\
    (forall i v, 0 <= i -> w s !! Z.to_nat i = Some v ->
       w ls.2 !! Z.to_nat i
       = Some (fold_left (pterm A B i) (seqZ lo (p - lo)) v)) /\
    (is_hyper A = true -> exists klow,
       window_ok A ls.1 pright klow kmax /\
       forall q k, p <= q < hi -> mat_i B !! Z.to_nat q = Some k -> klow <= k))).
  - lia.
  - simpl. split; [apply evolves_refl|]. split; [done|]. split; [|split].
    + exists []. rewrite app_nil_r, seqZ_nil by lia. by destruct HYPER.
    + intros i v Hi Hv. rewrite seqZ_nil by lia. done.
    + intros Hh. exists 0. split; [by apply Hwin|].
      intros q k Hq Hk. pose proof (row_in_bounds B HwfB q k Hk). lia.
  - intros p [pl t] Hp. simpl.
    intros (Hev & Hx & (evs & Htr & Hg & Hpr & Hfa) & Hw & Hwn).
    destruct (i_lookup B p) as (k & Hk); [lia|].
    destruct (x_lookup B HwfB p) as (bkj & Hbkj); [lia|].
    pose proof (row_in_bounds B HwfB p k Hk) as Hkb.
    assert (Hwl : length (w t) = length (w s)) by apply Hev.
    assert (Hwin' : exists klow, klow <= k /\
               (is_hyper A = true -> window_ok A pl pright klow kmax)).
    { destruct (is_hyper A) eqn:E.
      - destruct (Hwn eq_refl) as (klow & Hok & Hlow). exists klow.
        split; [apply (Hlow p k); [lia | done] | done].
      - exists k. split; [lia | done]. }
    destruct Hwin' as (klow & Hklow & Hok).
    destruct (scatter_entry_spec HYPER A B pright p pl klow kmax k bkj t)
      as (pl' & t' & Hrun & Hev' & Hx' & (evs' & Htr' & Hg' & Hpr' & Hfa') & Hw' & Hwn');
      try done; try lia.
    { split; [done|]. apply (Hmax p k); [lia | done]. }
    exists (pl', t'). simpl. split; [done|].
    split; [eapply evolves_trans; eauto|]. split; [congruence|].
    split; [|split].
    + exists (evs ++ evs'). split; [by rewrite Htr', Htr, app_assoc|].
      unfold gather_positions, probes in *. rewrite !omap_app, Hg, Hg', Hpr, Hpr'.
      split; [done|]. split; [|by apply Forall_app].
      destruct HYPER; [|done]. by rewrite fmap_seqZ_snoc by lia.
    + intros i v Hi Hv. rewrite seqZ_snoc by lia. rewrite fold_left_app. simpl.
      rewrite (Hw' i _ Hi (Hw i v Hi Hv)). unfold pterm at 2.
      rewrite Hk, Hbkj. done.
    + intros Hh. exists (k + 1). split; [by apply Hwn'|].
      intros q k' Hq Hk'.
      pose proof (rows_sorted B HwfB kB lo hi p q k k' HkB Hrg ltac:(lia) ltac:(lia) ltac:(lia) Hk Hk').
      lia.
Qed.

End ScatterLoop.

(** * One output column *)

Section Column.

Context {SR : Semiring}.

Lemma gather_positions_clear (Ci : list Z) (lo hi : Z) :
  gather_positions (clear_events Ci lo hi) = [].
Proof. apply omap_fmap_None. done. Qed.

Lemma probes_clear (Ci : list Z) (lo hi : Z) :
  probes (clear_events Ci lo hi) = [].
Proof. apply omap_fmap_None. done. Qed.

Lemma gather_positions_gather (Ci : list Z) (lo hi : Z) :
  gather_positions (gather_events Ci lo hi) = seqZ lo (hi - lo).
Proof.
  unfold gather_positions, gather_events.
  rewrite (omap_fmap_Some _ _ (fun q => q)) by done. apply list_fmap_id.
Qed.

Lemma probes_gather (Ci : list Z) (lo hi : Z) :
  probes (gather_events Ci lo hi) = [].
Proof. apply omap_fmap_None. done. Qed.

(** Line 76: a column of C with no entry is skipped, and nothing at all
    happens. *)
Lemma column_skip (HYPER : bool) (A : Matrix atype) (B : Matrix btype)
    (Ci : list Z) (pB_start pB_end pC_start pC_end : Z) (s : state) :
  pC_end = pC_start ->
  column HYPER A B Ci pB_start pB_end pC_start pC_end s = Done s.
Proof. intros ->. unfold column. by rewrite Z.eqb_refl. Qed.

(** Lines 90-99. *)
Lemma trim_Ah_spec (A : Matrix atype) (B : Matrix btype)
    (kB lo hi : Z) (s : state) :
  wf_matrix A -> wf_matrix B ->
  0 <= kB < nvec B -> slot_range B kB = Some (lo, hi) -> lo < hi ->
  exists imax pright,
    mat_i B !! Z.to_nat (hi - 1) = Some imax /\
    trim_Ah A (mat_i B) (hi - lo) hi s
    = Done (0, pright,
            if is_hyper A && (2 <? hi - lo)
            then emit (EvTrim imax pright) s else s) /\
    (if is_hyper A && (2 <? hi - lo) then
       pright <= nvec A - 1 /\
       (forall sl x, pright < sl -> mat_h A !! Z.to_nat sl = Some x -> imax < x) /\
       (forall sl x, 0 <= sl <= pright -> mat_h A !! Z.to_nat sl = Some x ->
          x <= imax)
     else pright = nvec A - 1) /\
    (is_hyper A = true -> window_ok A 0 pright 0 imax) /\
    (forall q k, lo <= q < hi -> mat_i B !! Z.to_nat q = Some k -> k <= imax).
Proof.
  intros HwfA HwfB HkB Hrg Hne.
  destruct (slot_range_in B HwfB kB HkB) as (lo' & hi' & Hrg' & Hb & Hhi).
  rewrite Hrg in Hrg'. injection Hrg' as <- <-.
  destruct (i_lookup B (hi - 1)) as (imax & Himax); [lia|].
  assert (Hmax : forall q k, lo <= q < hi -> mat_i B !! Z.to_nat q = Some k ->
                   k <= imax).
  { intros q k Hq Hk. destruct (decide (q = hi - 1)) as [->|Hn].
    - rewrite Himax in Hk. injection Hk as <-. lia.
    - pose proof (rows_sorted B HwfB kB lo hi q (hi - 1) k imax HkB Hrg
                    ltac:(lia) ltac:(lia) ltac:(lia) Hk Himax). lia. }
  pose proof (wf_h A HwfA) as Hh. pose proof (wf_nvec A HwfA) as Hnv.
  unfold trim_Ah. destruct (is_hyper A) eqn:Ehyp; simpl.
  - destruct Hh as (Hlen & Hsort & _). destruct (2 <? hi - lo) eqn:E.
    + rewrite (array_get_lookup _ (hi - 1) imax) by (done || lia).
      rewrite bind_Done.
      destruct (GB_bracket_right_spec (mat_h A) Hsort imax 0 (nvec A - 1))
        as (r & Hrun & Hle & Hge & Hcut & Hkeep); [lia..|].
      rewrite Hrun, bind_Done. exists imax, r.
      assert (Hup : forall sl x, r < sl -> mat_h A !! Z.to_nat sl = Some x ->
                      imax < x).
      { intros sl x Hsl Hx. apply (Hcut sl x); [|lia|done].
        apply lookup_lt_Some in Hx. lia. }
      repeat split; try done; try lia; try (intros sl x Hsl; lia).
    + exists imax, (nvec A - 1).
      repeat split; try done; try lia; try (intros sl x Hsl; lia).
      intros sl x Hsl Hx. apply lookup_lt_Some in Hx. lia.
  - exists imax, (nvec A - 1). repeat split; try done.
Qed.

(** Lines 76-150, for a column of C that has entries. *)
Lemma column_spec (HYPER : bool) (A : Matrix atype) (B : Matrix btype)
    (C : Matrix ztype) (kB kC pB_start pB_end pC_start pC_end : Z) (s : state) :
  wf_matrix A -> wf_matrix B -> wf_matrix C ->
  (HYPER = false -> is_hyper A = false) ->
  vdim A = vlen B -> vlen C = vlen A ->
  0 <= kB < nvec B -> slot_range B kB = Some (pB_start, pB_end) ->
  0 <= kC < nvec C -> slot_range C kC = Some (pC_start, pC_end) ->
  pC_start < pC_end -> pB_start < pB_end ->
  Z.of_nat (length (w s)) = vlen C ->
  length (mat_x (stC s)) = length (mat_i C) ->
  exists s' imax pright sc,
    column HYPER A B (mat_i C) pB_start pB_end pC_start pC_end s = Done s' /\
    evolves s s' /\
    mat_i B !! Z.to_nat (pB_end - 1) = Some imax /\
    trace s' = trace s ++
      clear_events (mat_i C) pC_start pC_end ++
      (if HYPER && is_hyper A && (2 <? pB_end - pB_start)
       then [EvTrim imax pright] else []) ++
      sc ++
      gather_events (mat_i C) pC_start pC_end /\
    Forall (scatter_event pright) sc /\
    probes sc = (if HYPER then probe_at A B <$> seqZ pB_start (pB_end - pB_start)
                 else []) /\
    gather_positions sc = [] /\
    (if HYPER then
       if is_hyper A && (2 <? pB_end - pB_start) then
         pright <= nvec A - 1 /\
         (forall sl x, pright < sl -> mat_h A !! Z.to_nat sl = Some x -> imax < x) /\
         (forall sl x, 0 <= sl <= pright -> mat_h A !! Z.to_nat sl = Some x ->
            x <= imax)
       else pright = nvec A - 1
     else True) /\
    (forall q r, pC_start <= q < pC_end -> mat_i C !! Z.to_nat q = Some r ->
       mat_x (stC s') !! Z.to_nat q = Some (dotp A B r pB_start pB_end)) /\
    (forall q, 0 <= q -> ~ pC_start <= q < pC_end ->
       mat_x (stC s') !! Z.to_nat q = mat_x (stC s) !! Z.to_nat q).
Proof.
  intros HwfA HwfB HwfC Hmode Hdim Hvlen HkB HrgB HkC HrgC HneC HneB Hwlen Hxlen.
  destruct (slot_range_in C HwfC kC HkC) as (lo' & hi' & Hrg' & HbC & HhiC).
  rewrite HrgC in Hrg'. injection Hrg' as <- <-.
  assert (Hrows : Forall (fun r => 0 <= r < Z.of_nat (length (w s))) (mat_i C)).
  { rewrite Hwlen. apply (wf_rows C HwfC). }
  unfold column. destruct (pC_end =? pC_start) eqn:E; [apply Z.eqb_eq in E; lia|].
  cbv zeta. unfold ASSERT.
  replace (0 <? pB_end - pB_start) with true by (symmetry; apply Z.ltb_lt; lia).
  rewrite bind_Done.
  (* clear *)
  destruct (clear_w_spec (mat_i C) pC_start pC_end s) as (s1 & Hrun1 & Hev1 & Hx1 & Htr1 & Hw1);
    [lia | lia | done |].
  rewrite Hrun1, bind_Done.
  assert (Hwl1 : length (w s1) = length (w s)) by apply Hev1.
  (* trim *)
  destruct (trim_Ah_spec A B kB pB_start pB_end s1 HwfA HwfB HkB HrgB HneB)
    as (imax & pr & Himax & Hrun2 & Htrim & Hwin & Hmax).
  set (pright := if HYPER then pr else 0).
  set (s2 := if HYPER && is_hyper A && (2 <? pB_end - pB_start)
             then emit (EvTrim imax pright) s1 else s1).
  assert (Hstep2 : (if HYPER then trim_Ah A (mat_i B) (pB_end - pB_start) pB_end s1
                    else Done (0, 0, s1)) = Done (0, pright, s2)).
  { unfold s2, pright. destruct HYPER; [|done]. exact Hrun2. }
  rewrite Hstep2, bind_Done.
  assert (Hs2 : evolves s1 s2 /\ w s2 = w s1 /\ mat_x (stC s2) = mat_x (stC s1) /\
            trace s2 = trace s1 ++
              (if HYPER && is_hyper A && (2 <? pB_end - pB_start)
               then [EvTrim imax pright] else [])).
  { unfold s2. destruct (HYPER && is_hyper A && (2 <? pB_end - pB_start)).
    - split; [apply evolves_emit, evolves_refl|]. done.
    - split; [apply evolves_refl|]. by rewrite app_nil_r. }
  clearbody s2. destruct Hs2 as (Hev2 & Hw2 & Hx2 & Htr2).
  (* scatter *)
  destruct (scatter_loop_spec HYPER A B kB pB_start pB_end 0 pright imax s2)
    as (ls & Hrun3 & Hev3 & Hx3 & (sc & Htr3 & Hg3 & Hp3 & Hf3) & Hw3); try done.
  { rewrite Hw2, Hwl1. lia. }
  { intros Hh. unfold pright. destruct HYPER; [by apply Hwin|].
    specialize (Hmode eq_refl). congruence. }
  rewrite Hrun3, bind_Done.
  assert (Hwl3 : length (w ls.2) = length (w s)).
  { destruct Hev3 as (_ & _ & _ & Hl & _). rewrite Hl, Hw2. done. }
  (* gather *)
  destruct (gather_spec (mat_i C) pC_start pC_end ls.2)
    as (s4 & Hrun4 & Hev4 & Hw4 & Htr4 & Hin4 & Hout4); [lia | lia | | |].
  { rewrite Hx3, Hx2, Hx1, Hxlen. lia. }
  { by rewrite Hwl3. }
  rewrite Hrun4. exists s4, imax, pright, sc.
  split; [done|].
  split; [eapply evolves_trans; [|exact Hev4];
          eapply evolves_trans; [|exact Hev3];
          eapply evolves_trans; [exact Hev1 | exact Hev2]|].
  split; [done|].
  split; [rewrite Htr4, Htr3, Htr2, Htr1; unfold clear_events, gather_events;
          by rewrite <- !app_assoc|].
  split; [done|]. split; [done|]. split; [done|].
  split.
  { unfold pright. destruct HYPER; [|done]. exact Htrim. }
  split.
  - intros q r Hq Hr. rewrite (Hin4 q r Hq Hr).
    assert (0 <= r) by (pose proof (row_in_bounds C HwfC q r Hr); lia).
    apply Hw3; [done|]. rewrite Hw2. apply (Hw1 q r); done.
  - intros q Hq0 Hq. rewrite (Hout4 q Hq0 Hq). congruence.
Qed.

End Column.

(** * The loop over the vectors of B *)

Section Columns.

Context {SR : Semiring}.

Lemma vector_range_spec {V : Type} (M : Matrix V) (j : Z) :
  wf_matrix M -> (is_hyper M = false -> 0 <= j < vdim M) ->
  vector_range M j = Done (default (-1, -1) (range_of M j)).
Proof.
  intros Hwf Hj. unfold vector_range, range_of.
  destruct (slot_of M j) as [k|] eqn:Hslot.
  - pose proof (slot_of_bounds M Hwf j k Hslot) as Hk.
    destruct (slot_range_in M Hwf k Hk) as (ps & pe & Hrg & _).
    destruct (slot_range_Some M k ps pe Hrg) as [Hps Hpe].
    simpl. rewrite Hrg. simpl. unfold slot_of in Hslot.
    destruct (is_hyper M).
    + rewrite Hslot.
      rewrite (array_get_lookup _ k ps) by (done || lia). rewrite bind_Done.
      rewrite (array_get_lookup _ (k + 1) pe) by (done || lia). done.
    + destruct (decide (0 <= j < nvec M)); [|done]. injection Hslot as ->.
      rewrite (array_get_lookup _ k ps) by (done || lia). rewrite bind_Done.
      rewrite (array_get_lookup _ (k + 1) pe) by (done || lia). done.
  - simpl. unfold slot_of in Hslot. pose proof (wf_h M Hwf) as Hh.
    destruct (is_hyper M).
    + by rewrite Hslot.
    + specialize (Hj eq_refl). destruct (decide (0 <= j < nvec M)); [done | lia].
Qed.

Lemma GBI2_initj_spec (B : Matrix btype) (C : Matrix ztype) (kB : Z) :
  wf_matrix B -> wf_matrix C -> vdim C = vdim B ->
  0 <= kB < nvec B ->
  exists j lo hi,
    column_of B kB = Some j /\ slot_of B j = Some kB /\
    slot_range B kB = Some (lo, hi) /\
    GBI2_initj B C kB
    = Done (j, lo, hi, (default (-1, -1) (range_of C j)).1,
            (default (-1, -1) (range_of C j)).2).
Proof.
  intros HwfB HwfC Hdim HkB.
  destruct (column_of_in B HwfB kB HkB) as (j & Hj).
  pose proof (column_of_slot B HwfB kB j ltac:(lia) Hj) as Hslot.
  pose proof (slot_of_column B HwfB j kB Hslot) as Hjb.
  destruct (slot_range_in B HwfB kB HkB) as (lo & hi & Hrg & _).
  destruct (slot_range_Some B kB lo hi Hrg) as [Hlo Hhi].
  exists j, lo, hi. do 3 (split; [done|]). unfold GBI2_initj.
  assert (Hcol : (if is_hyper B then (mat_h B).[kB] else Done kB) = Done j).
  { unfold column_of in Hj. destruct (is_hyper B).
    - apply array_get_lookup; [lia | done].
    - destruct (decide _); [|done]. by injection Hj as ->. }
  rewrite Hcol, bind_Done.
  rewrite (array_get_lookup _ kB lo) by (done || lia). rewrite bind_Done.
  rewrite (array_get_lookup _ (kB + 1) hi) by (done || lia). rewrite bind_Done.
  rewrite (vector_range_spec C j HwfC) by (intros _; lia).
  rewrite bind_Done. by destruct (default (-1, -1) (range_of C j)).
Qed.

Lemma col_nonempty_range {V : Type} (M : Matrix V) (j ps pe : Z) :
  range_of M j = Some (ps, pe) -> ps < pe -> col_nonempty M j.
Proof. intros H Hlt. unfold col_nonempty. by rewrite H. Qed.

Lemma slot_of_mono {V : Type} (M : Matrix V) (j1 j2 k1 k2 : Z) :
  wf_matrix M -> slot_of M j1 = Some k1 -> slot_of M j2 = Some k2 ->
  j1 < j2 -> k1 < k2.
Proof.
  intros Hwf H1 H2 Hj.
  pose proof (slot_of_bounds M Hwf j1 k1 H1).
  pose proof (slot_of_bounds M Hwf j2 k2 H2).
  pose proof (slot_of_column_of M j1 k1 H1) as Hc1.
  pose proof (slot_of_column_of M j2 k2 H2) as Hc2.
  destruct (Z.lt_trichotomy k1 k2) as [Hlt|[->|Hgt]]; [done| |].
  - rewrite Hc1 in Hc2. injection Hc2 as ->. lia.
  - pose proof (column_of_mono M Hwf k2 k1 j2 j1 ltac:(lia) Hc2 Hc1). lia.
Qed.

Lemma concat_fmap_seqZ_snoc {Y : Type} (f : Z -> list Y) (m : Z) :
  0 <= m ->
  concat (f <$> seqZ 0 (m + 1)) = concat (f <$> seqZ 0 m) ++ f m.
Proof.
  intros Hm. pose proof (seqZ_snoc 0 m Hm) as H. rewrite !Z.sub_0_r in H.
  rewrite H, fmap_app, concat_app. simpl. by rewrite app_nil_r.
Qed.

(** The code of the template for one column meets [column_ok]. *)
Lemma column_column_ok (HYPER : bool) (A : Matrix atype) (B : Matrix btype)
    (C : Matrix ztype) :
  wf_matrix A -> wf_matrix B -> wf_matrix C ->
  (HYPER = false -> is_hyper A = false) ->
  vdim A = vlen B -> vlen C = vlen A ->
  column_ok HYPER A B C (column HYPER A B (mat_i C)).
Proof.
  intros HwfA HwfB HwfC Hmode Hinner Hvlen. split.
  - intros pB_start pB_end pC s. by apply column_skip.
  - intros kB kC lo hi ps pe s HkB HrgB HkC HrgC HneC HneB Hwlen Hxlen.
    destruct (column_spec HYPER A B C kB kC lo hi ps pe s)
      as (s' & imax & pright & sc & Hrun & Hev & _ & Htr & _ & Hpr & Hgp & _ & Hin & Hout);
      try done.
    exists s'. eexists. split; [done|]. split; [done|].
    split; [exact Htr|].
    unfold gather_positions, probes in *. rewrite !omap_app.
    fold (gather_positions (clear_events (mat_i C) ps pe)).
    fold (probes (clear_events (mat_i C) ps pe)).
    fold (gather_positions (gather_events (mat_i C) ps pe)).
    fold (probes (gather_events (mat_i C) ps pe)).
    rewrite gather_positions_clear, probes_clear, gather_positions_gather,
      probes_gather, Hgp, Hpr.
    assert (Htrim : forall b : bool,
              omap gather_pos (if b then [EvTrim imax pright] else []) = [] /\
              omap probe (if b then [EvTrim imax pright] else []) = [])
      by (by intros []).
    destruct (Htrim (HYPER && is_hyper A && (2 <? hi - lo))) as [-> ->].
    simpl. rewrite !app_nil_r. done.
Qed.

(** The body of the loop keeps [columns_done]. *)
Lemma column_step_spec (HYPER : bool) (A : Matrix atype) (B : Matrix btype)
    (C : Matrix ztype) (col : Z -> Z -> Z -> Z -> state -> outcome state)
    (s : state) (kB : Z) (t : state) :
  wf_matrix B -> wf_matrix C ->
  vdim C = vdim B ->
  columns_covered B C ->
  column_ok HYPER A B C col ->
  Z.of_nat (length (w s)) = vlen C ->
  length (mat_x (stC s)) = length (mat_i C) ->
  0 <= kB < nvec B ->
  columns_done HYPER A B C s kB t ->
  exists t',
    (GBI2_initj B C kB ≫= fun '(j, pB_start, pB_end, pC_start, pC_end) =>
       col pB_start pB_end pC_start pC_end t) = Done t' /\
    columns_done HYPER A B C s (kB + 1) t'.
Proof.
  intros HwfB HwfC Hvdim Hcov [Hcskip Hcol_ok] Hwlen Hxlen HkB
    (Hev & (evs & Htr & Hgp & Hpr) & Hval).
  destruct (GBI2_initj_spec B C kB HwfB HwfC Hvdim HkB)
    as (j & lo & hi & Hcol & Hslot & Hrg & Hinit).
  rewrite Hinit, bind_Done.
  assert (Hskip : forall ps pe, default (-1, -1) (range_of C j) = (ps, pe) ->
            pe <= ps -> col_positions B C kB = [] /\ col_probes HYPER A B C kB = []).
  { intros ps pe Hd Hle. unfold col_positions, col_probes. rewrite Hcol, Hrg.
    destruct (range_of C j) as [[ps' pe']|]; [|done]. simpl in Hd.
    injection Hd as -> ->. rewrite seqZ_nil by lia.
    replace (ps <? pe) with false by (symmetry; apply Z.ltb_ge; lia).
    by rewrite andb_false_r. }
  destruct (default (-1, -1) (range_of C j)) as [ps pe] eqn:Hd. simpl.
  destruct (decide (ps < pe)) as [Hne|He].
  - (* the column has entries *)
    destruct (range_of C j) as [[ps' pe']|] eqn:HrC; simpl in Hd; [|injection Hd; lia].
    injection Hd as -> ->.
    destruct (range_of_inv C j ps pe HrC) as (kC & HslotC & HrgC).
    pose proof (slot_of_bounds C HwfC j kC HslotC) as HkC.
    assert (HneB : lo < hi).
    { pose proof (Hcov j (col_nonempty_range C j ps pe HrC Hne)) as HB.
      unfold col_nonempty in HB.
      rewrite (range_of_slot B j kB (lo, hi) Hslot Hrg) in HB. done. }
    destruct (Hcol_ok kB kC lo hi ps pe t)
      as (t' & evs' & Hrun & Hev' & Htr' & Hgp' & Hpr' & Hin & Hout);
      try done.
    { destruct Hev as (_ & _ & _ & Hl & _). rewrite Hl. done. }
    { destruct Hev as (_ & _ & _ & _ & Hl). rewrite Hl. done. }
    exists t'. split; [done|]. split; [eapply evolves_trans; eauto|]. split.
    + exists (evs ++ evs'). split; [by rewrite Htr', Htr, app_assoc|].
      rewrite !concat_fmap_seqZ_snoc by lia.
      unfold gather_positions, probes in *. rewrite !omap_app.
      rewrite Hgp, Hpr, Hgp', Hpr'. split.
      * f_equal. unfold col_positions. by rewrite Hcol, HrC.
      * f_equal. unfold col_probes. rewrite Hcol, HrC, Hrg.
        replace (ps <? pe) with true by (symmetry; apply Z.ltb_lt; lia).
        by rewrite andb_true_r.
    + intros kB' j' lo' hi' ps' pe' q r HkB' Hcol' Hrg' HrC' Hq Hr.
      destruct (decide (kB' = kB)) as [->|Hneq].
      * rewrite Hcol in Hcol'. injection Hcol' as <-.
        rewrite Hrg in Hrg'. injection Hrg' as <- <-.
        rewrite HrC in HrC'. injection HrC' as <- <-.
        by apply Hin.
      * assert (Hjj : j' < j)
          by (apply (column_of_mono B HwfB kB' kB j' j); [lia | done | done]).
        destruct (range_of_inv C j' ps' pe' HrC') as (kC' & HslotC' & HrgC').
        pose proof (slot_of_mono C j' j kC' kC HwfC HslotC' HslotC Hjj) as Hkk.
        pose proof (slot_of_bounds C HwfC j' kC' HslotC') as HkC'.
        pose proof (slot_range_mono C HwfC kC' kC ps' pe' ps pe ltac:(lia) HrgC' HrgC).
        destruct (slot_range_in C HwfC kC' HkC') as (a & b & Hab & Hb0 & _).
        rewrite HrgC' in Hab. injection Hab as <- <-.
        rewrite Hout by lia.
        apply (Hval kB' j' lo' hi' ps' pe' q r); try done. lia.
  - (* the column is skipped *)
    assert (pe = ps) as ->.
    { destruct (range_of C j) as [[ps' pe']|] eqn:HrC; simpl in Hd.
      - injection Hd as -> ->.
        destruct (range_of_inv C j ps pe HrC) as (kC & HslotC & HrgC).
        pose proof (slot_of_bounds C HwfC j kC HslotC) as HkC.
        destruct (slot_range_in C HwfC kC HkC) as (a & b & Hab & Hb0 & _).
        rewrite HrgC in Hab. injection Hab as <- <-. lia.
      - by injection Hd as <- <-. }
    rewrite Hcskip.
    destruct (Hskip ps ps eq_refl ltac:(lia)) as [Hcp Hcq].
    exists t. split; [done|]. split; [done|]. split.
    + exists evs. split; [done|].
      rewrite !concat_fmap_seqZ_snoc by lia. rewrite Hcp, Hcq, !app_nil_r. done.
    + intros kB' j' lo' hi' ps' pe' q r HkB' Hcol' Hrg' HrC' Hq Hr.
      destruct (decide (kB' = kB)) as [->|Hneq].
      * rewrite Hcol in Hcol'. injection Hcol' as <-.
        rewrite HrC' in Hd. simpl in Hd. injection Hd as -> ->. lia.
      * apply (Hval kB' j' lo' hi' ps' pe' q r); try done. lia.
Qed.

(** The loop over the vectors of B, for any code of a column that
    meets [column_ok]. *)
Lemma columns_loop_spec (HYPER : bool) (A : Matrix atype) (B : Matrix btype)
    (C : Matrix ztype) (col : Z -> Z -> Z -> Z -> state -> outcome state)
    (s : state) :
  wf_matrix B -> wf_matrix C ->
  vdim C = vdim B ->
  columns_covered B C ->
  column_ok HYPER A B C col ->
  Z.of_nat (length (w s)) = vlen C ->
  length (mat_x (stC s)) = length (mat_i C) ->
  exists s',
    for_loop 0 (nvec B) (fun kB t =>
      GBI2_initj B C kB ≫= fun '(j, pB_start, pB_end, pC_start, pC_end) =>
        col pB_start pB_end pC_start pC_end t) s = Done s' /\
    columns_done HYPER A B C s (nvec B) s'.
Proof.
  intros HwfB HwfC Hvdim Hcov Hok Hwlen Hxlen.
  apply (for_loop_rule (columns_done HYPER A B C s)).
  - apply (wf_nvec _ HwfB).
  - split; [apply evolves_refl|]. split.
    + exists []. by rewrite app_nil_r.
    + intros kB j lo hi ps pe q r HkB. lia.
  - intros kB t HkB Hdone.
    by apply (column_step_spec HYPER A B C col s kB t).
Qed.

End Columns.

(** * The whole call *)

Section Call.

Context {SR : Semiring} {KC : Constants}.

Lemma set_magic_same {V : Type} (M : Matrix V) : set_magic (magic M) M = M.
Proof. by destruct M. Qed.

Lemma set_C_same (s : state) : set_C (stC s) s = s.
Proof. by destruct s. Qed.

(** Without [HYPER] the loop reads the four bounds directly; for sparse
    B and C this is what the iterator does. *)
Lemma sparse_body_eq (B : Matrix btype) (C : Matrix ztype) (j : Z)
    (col : Z -> Z -> Z -> Z -> outcome state) :
  is_hyper B = false -> is_hyper C = false ->
  (pB_start ← (mat_p B).[j];
   pB_end ← (mat_p B).[j + 1];
   pC_start ← (mat_p C).[j];
   pC_end ← (mat_p C).[j + 1];
   col pB_start pB_end pC_start pC_end)
  = (GBI2_initj B C j ≫= fun '(_, pB_start, pB_end, pC_start, pC_end) =>
       col pB_start pB_end pC_start pC_end).
Proof.
  intros HB HC. unfold GBI2_initj, vector_range. rewrite HB, HC.
  rewrite bind_Done.
  destruct ((mat_p B).[j]); simpl; try done.
  destruct ((mat_p B).[j + 1]); simpl; try done.
  destruct ((mat_p C).[j]); simpl; try done.
  destruct ((mat_p C).[j + 1]); simpl; done.
Qed.

End Call.

(** The checks at the head of the template pass, and the two forms of
    the loop over the columns are the loop of [columns_loop_spec]. *)
Ltac template_shell Hpre Hcov Hok :=
  destruct Hpre as [pre_A0 pre_B0 pre_C0 pre_alias0 pre_vdim0 pre_vlen0
    pre_inner0 pre_nvec0 pre_magic0 pre_magic_nonzero0 pre_w0 pre_info0
    pre_mode0];
  cbv zeta; unfold NULL, ASSERT;
  rewrite pre_alias0, bind_Done;
  rewrite pre_vdim0, Z.eqb_refl, bind_Done;
  rewrite pre_vlen0, Z.eqb_refl, bind_Done;
  rewrite pre_inner0, Z.eqb_refl, bind_Done;
  match goal with
  | |- context [nvec (stC ?s) <=? nvec (stB ?s)] =>
      replace (nvec (stC s) <=? nvec (stB s)) with true
        by (symmetry; apply Z.leb_le; done)
  end;
  rewrite bind_Done;
  replace (negb (MAGIC =? 0)) with true
    by (symmetry; apply negb_true_iff, Z.eqb_neq; done);
  rewrite bind_Done;
  rewrite <- pre_magic0, set_magic_same, set_C_same;
  rewrite pre_info0; simpl is_success;
  match goal with
  | |- context [for_loop _ _ _ ?s] =>
      let Hloop := fresh "Hloop" in
      let s' := fresh "s'" in
      let Hrun := fresh "Hrun" in
      let Hdone := fresh "Hdone" in
      pose proof (columns_loop_spec _ _ _ _ _ s pre_B0 pre_C0
                    pre_vdim0 Hcov Hok pre_w0
                    (wf_x_length _ pre_C0)) as Hloop;
      destruct Hloop as (s' & Hrun & Hdone);
      exists s'; split; [|exact Hdone]
  | |- context [for_each_vector2 _ _ _ ?s] =>
      let Hloop := fresh "Hloop" in
      let s' := fresh "s'" in
      let Hrun := fresh "Hrun" in
      let Hdone := fresh "Hdone" in
      pose proof (columns_loop_spec _ _ _ _ _ s pre_B0 pre_C0
                    pre_vdim0 Hcov Hok pre_w0
                    (wf_x_length _ pre_C0)) as Hloop;
      destruct Hloop as (s' & Hrun & Hdone);
      exists s'; split; [|exact Hdone]
  end.

(** The checks at the head of the template pass. *)
Ltac template_checks Hpre :=
  destruct Hpre as [pre_A0 pre_B0 pre_C0 pre_alias0 pre_vdim0 pre_vlen0
    pre_inner0 pre_nvec0 pre_magic0 pre_magic_nonzero0 pre_w0 pre_info0
    pre_mode0];
  unfold GB_AxB_Gustavson_nomask;
  cbv zeta; unfold NULL, ASSERT;
  rewrite pre_alias0, bind_Done;
  rewrite pre_vdim0, Z.eqb_refl, bind_Done;
  rewrite pre_vlen0, Z.eqb_refl, bind_Done;
  rewrite pre_inner0, Z.eqb_refl, bind_Done;
  match goal with
  | |- context [nvec (stC ?s) <=? nvec (stB ?s)] =>
      replace (nvec (stC s) <=? nvec (stB s)) with true
        by (symmetry; apply Z.leb_le; done)
  end;
  rewrite bind_Done;
  replace (negb (MAGIC =? 0)) with true
    by (symmetry; apply negb_true_iff, Z.eqb_neq; done);
  rewrite bind_Done;
  rewrite <- pre_magic0, set_magic_same, set_C_same.

Section Template_correct.

Context {SR : Semiring} {KC : Constants}.

(** Total correctness of the template under its preconditions. *)
Lemma kernel_spec (HYPER : bool) (info : GrB_Info) (s : state) :
  kernel_pre HYPER info s ->
  columns_covered (stB s) (stC s) ->
  exists s',
    GB_AxB_Gustavson_nomask HYPER info s = Done s' /\
    columns_done HYPER (stA s) (stB s) (stC s) s (nvec (stB s)) s'.
Proof.
  intros Hpre Hcov.
  assert (Hok : column_ok HYPER (stA s) (stB s) (stC s)
                  (column HYPER (stA s) (stB s) (mat_i (stC s)))).
  { destruct Hpre. apply column_column_ok; try done.
    intros Hm. by destruct (pre_mode0 Hm). }
  unfold GB_AxB_Gustavson_nomask. destruct HYPER.
  - template_shell Hpre Hcov Hok. unfold for_each_vector2.
    change (for_loop 0 (nvec (stB s)) (fun kB t =>
      GBI2_initj (stB s) (stC s) kB ≫=
        fun '(j, pB_start, pB_end, pC_start, pC_end) =>
          column true (stA s) (stB s) (mat_i (stC s))
            pB_start pB_end pC_start pC_end t) s
            ≫= (fun s2 => Done tt ≫= fun _ => Done s2)
      = Done s').
    by rewrite Hrun.
  - template_shell Hpre Hcov Hok.
    destruct (pre_mode0 eq_refl) as (HA & HB & HC).
    pose proof (wf_h _ pre_B0) as HhB. rewrite HB in HhB.
    rewrite <- HhB.
    rewrite (for_loop_ext 0 (nvec (stB s)) _ (fun kB t =>
      GBI2_initj (stB s) (stC s) kB ≫=
        fun '(j, pB_start, pB_end, pC_start, pC_end) =>
          column false (stA s) (stB s) (mat_i (stC s))
            pB_start pB_end pC_start pC_end t)).
    + by rewrite Hrun.
    + intros p t Hp.
      apply (sparse_body_eq (stB s) (stC s) p
               (fun a b c d => column false (stA s) (stB s) (mat_i (stC s)) a b c d t));
        done.
Qed.

End Template_correct.

(** * The sum in storage order is the sum over ascending k *)

Section Sum.

Context {SR : Semiring}.




Lemma position_inv {V : Type} (M : Matrix V) (i j q : Z) :
  position M i j = Some q ->
  exists ps pe, range_of M j = Some (ps, pe) /\ ps <= q < pe /\
    mat_i M !! Z.to_nat q = Some i.
Proof.
  unfold position. destruct (range_of M j) as [[ps pe]|]; simpl; [|done].
  intros H. apply row_pos_Some in H. eauto.
Qed.

End Sum.

(** * The claims about the kernel *)

Section Claims.

Context {SR : Semiring} {KC : Constants}.



End Claims.

(** * The positions written *)

Section Positions.

Context {SR : Semiring}.



(** Every position of C lies in one of its slots. *)
Lemma slot_containing {V : Type} (M : Matrix V) (x : Z) :
  wf_matrix M -> 0 <= x < Z.of_nat (length (mat_i M)) ->
  exists k ps pe, 0 <= k < nvec M /\ slot_range M k = Some (ps, pe) /\
    ps <= x < pe.
Proof.
  intros Hwf Hx.
  assert (Hfind : forall m : nat, forall pm,
            Z.of_nat m <= nvec M ->
            mat_p M !! m = Some pm -> x < pm ->
            exists k ps pe, 0 <= k < nvec M /\ slot_range M k = Some (ps, pe) /\
              ps <= x < pe).
  { induction m as [|m IH]; intros pm Hm Hpm Hlt.
    - rewrite (wf_p_first M Hwf) in Hpm. injection Hpm as <-. lia.
    - destruct (p_lookup M Hwf (Z.of_nat m)) as (q & Hq); [lia|].
      rewrite Nat2Z.id in Hq. destruct (decide (x < q)).
      + apply (IH q); [lia | done | done].
      + exists (Z.of_nat m), q, pm. split; [lia|]. split; [|lia].
        unfold slot_range. rewrite Nat2Z.id, Hq. simpl.
        replace (Z.to_nat (Z.of_nat m + 1)) with (S m) by lia.
        rewrite Hpm. done. }
  apply (Hfind (Z.to_nat (nvec M)) (Z.of_nat (length (mat_i M)))).
  - pose proof (wf_nvec M Hwf). lia.
  - apply (wf_p_last M Hwf).
  - lia.
Qed.





End Positions.

Section Claims2.

Context {SR : Semiring} {KC : Constants}.


End Claims2.

(** * The reference kernel: a full-range search on every probe *)

Section Reference.

Context {SR : Semiring} {KC : Constants}.

Lemma window_full (A : Matrix atype) (klow kmax : Z) :
  wf_matrix A -> is_hyper A = true ->
  window_ok A 0 (nvec A - 1) klow kmax.
Proof.
  intros Hwf Hh. pose proof (wf_h A Hwf) as H. rewrite Hh in H.
  destruct H as (Hlen & _). repeat split; try lia.
  intros sl x Hsl Hx. apply lookup_lt_Some in Hx. lia.
Qed.

Lemma reference_scatter_loop_spec (HYPER : bool) (A : Matrix atype)
    (B : Matrix btype) (kB lo hi : Z) (s : state) :
  wf_matrix A -> wf_matrix B ->
  (HYPER = false -> is_hyper A = false) ->
  vdim A = vlen B ->
  0 <= kB < nvec B -> slot_range B kB = Some (lo, hi) ->
  vlen A <= Z.of_nat (length (w s)) ->
  exists s',
    for_loop lo hi (reference_scatter_entry HYPER A B) s = Done s' /\
    evolves s s' /\
    mat_x (stC s') = mat_x (stC s) /\
    (exists evs, trace s' = trace s ++ evs /\
       gather_positions evs = [] /\
       probes evs = (if HYPER then probe_at A B <$> seqZ lo (hi - lo) else [])) /\
    (forall i v, 0 <= i -> w s !! Z.to_nat i = Some v ->
       w s' !! Z.to_nat i
       = Some (fold_left (pterm A B i) (seqZ lo (hi - lo)) v)).
Proof.
  intros HwfA HwfB Hmode Hdim HkB Hrg Hlen.
  destruct (slot_range_in B HwfB kB HkB) as (lo' & hi' & Hrg' & Hb & Hhi).
  rewrite Hrg in Hrg'. injection Hrg' as <- <-.
  apply (for_loop_rule (fun p t =>
    evolves s t /\ mat_x (stC t) = mat_x (stC s) /\
    (exists evs, trace t = trace s ++ evs /\
       gather_positions evs = [] /\
       probes evs = (if HYPER then probe_at A B <$> seqZ lo (p - lo) else [])) /\
    (forall i v, 0 <= i -> w s !! Z.to_nat i = Some v ->
       w t !! Z.to_nat i
       = Some (fold_left (pterm A B i) (seqZ lo (p - lo)) v)))).
  - lia.
  - split; [apply evolves_refl|]. split; [done|]. split.
    + exists []. rewrite app_nil_r, seqZ_nil by lia. by destruct HYPER.
    + intros i v Hi Hv. rewrite seqZ_nil by lia. done.
  - intros p t Hp (Hev & Hx & (evs & Htr & Hg & Hpr) & Hw).
    destruct (i_lookup B p) as (k & Hk); [lia|].
    destruct (x_lookup B HwfB p) as (bkj & Hbkj); [lia|].
    pose proof (row_in_bounds B HwfB p k Hk) as Hkb.
    assert (Hwl : length (w t) = length (w s)) by apply Hev.
    destruct (scatter_entry_spec HYPER A B (nvec A - 1) p 0 k k k bkj t)
      as (pl' & t' & Hrun & Hev' & Hx' & (evs' & Htr' & Hg' & Hpr' & _) & Hw' & _);
      try done; try lia.
    { intros Hh. by apply window_full. }
    unfold reference_scatter_entry. rewrite Hrun, bind_Done. simpl.
    exists t'. split; [done|].
    split; [eapply evolves_trans; eauto|]. split; [congruence|]. split.
    + exists (evs ++ evs'). split; [by rewrite Htr', Htr, app_assoc|].
      unfold gather_positions, probes in *. rewrite !omap_app, Hg, Hg', Hpr, Hpr'.
      split; [done|]. destruct HYPER; [|done]. by rewrite fmap_seqZ_snoc by lia.
    + intros i v Hi Hv. rewrite seqZ_snoc by lia. rewrite fold_left_app. simpl.
      rewrite (Hw' i _ Hi (Hw i v Hi Hv)). unfold pterm at 2.
      rewrite Hk, Hbkj. done.
Qed.

Lemma reference_column_ok (HYPER : bool) (A : Matrix atype) (B : Matrix btype)
    (C : Matrix ztype) :
  wf_matrix A -> wf_matrix B -> wf_matrix C ->
  (HYPER = false -> is_hyper A = false) ->
  vdim A = vlen B -> vlen C = vlen A ->
  column_ok HYPER A B C (reference_column HYPER A B (mat_i C)).
Proof.
  intros HwfA HwfB HwfC Hmode Hinner Hvlen. split.
  - intros pB_start pB_end pC s. unfold reference_column. by rewrite Z.eqb_refl.
  - intros kB kC lo hi ps pe s HkB HrgB HkC HrgC HneC HneB Hwlen Hxlen.
    destruct (slot_range_in C HwfC kC HkC) as (lo' & hi' & Hrg' & HbC & HhiC).
    rewrite HrgC in Hrg'. injection Hrg' as <- <-.
    assert (Hrows : Forall (fun r => 0 <= r < Z.of_nat (length (w s))) (mat_i C)).
    { rewrite Hwlen. apply (wf_rows C HwfC). }
    unfold reference_column.
    destruct (pe =? ps) eqn:E; [apply Z.eqb_eq in E; lia|].
    cbv zeta. unfold ASSERT.
    replace (0 <? hi - lo) with true by (symmetry; apply Z.ltb_lt; lia).
    rewrite bind_Done.
    destruct (clear_w_spec (mat_i C) ps pe s) as (s1 & Hrun1 & Hev1 & Hx1 & Htr1 & Hw1);
      [lia | lia | done |].
    rewrite Hrun1, bind_Done.
    assert (Hwl1 : length (w s1) = length (w s)) by apply Hev1.
    destruct (reference_scatter_loop_spec HYPER A B kB lo hi s1)
      as (s2 & Hrun2 & Hev2 & Hx2 & (sc & Htr2 & Hg2 & Hp2) & Hw2); try done.
    { rewrite Hwl1. lia. }
    rewrite Hrun2, bind_Done.
    assert (Hwl2 : length (w s2) = length (w s)).
    { destruct Hev2 as (_ & _ & _ & Hl & _). by rewrite Hl. }
    destruct (gather_spec (mat_i C) ps pe s2)
      as (s3 & Hrun3 & Hev3 & Hw3 & Htr3 & Hin3 & Hout3); [lia | lia | | |].
    { rewrite Hx2, Hx1, Hxlen. lia. }
    { by rewrite Hwl2. }
    rewrite Hrun3. exists s3. eexists. split; [done|].
    split; [eapply evolves_trans; [|exact Hev3];
            eapply evolves_trans; [exact Hev1 | exact Hev2]|].
    split; [rewrite Htr3, Htr2, Htr1, <- !app_assoc; reflexivity|].
    unfold gather_positions, probes in *. rewrite !omap_app.
    fold (clear_events (mat_i C) ps pe). fold (gather_events (mat_i C) ps pe).
    fold (gather_positions (clear_events (mat_i C) ps pe)).
    fold (probes (clear_events (mat_i C) ps pe)).
    fold (gather_positions (gather_events (mat_i C) ps pe)).
    fold (probes (gather_events (mat_i C) ps pe)).
    rewrite gather_positions_clear, probes_clear, gather_positions_gather,
      probes_gather, Hg2, Hp2.
    simpl. rewrite !app_nil_r. split; [done|]. split; [done|]. split.
    + intros q r Hq Hr. rewrite (Hin3 q r Hq Hr).
      assert (0 <= r) by (pose proof (row_in_bounds C HwfC q r Hr); lia).
      apply Hw2; [done|]. apply (Hw1 q r); done.
    + intros q Hq0 Hq. rewrite (Hout3 q Hq0 Hq). congruence.
Qed.

Lemma reference_kernel_spec (HYPER : bool) (info : GrB_Info) (s : state) :
  kernel_pre HYPER info s ->
  columns_covered (stB s) (stC s) ->
  exists s',
    reference_kernel HYPER info s = Done s' /\
    columns_done HYPER (stA s) (stB s) (stC s) s (nvec (stB s)) s'.
Proof.
  intros Hpre Hcov.
  assert (Hok : column_ok HYPER (stA s) (stB s) (stC s)
                  (reference_column HYPER (stA s) (stB s) (mat_i (stC s)))).
  { destruct Hpre. apply reference_column_ok; try done.
    intros Hm. by destruct (pre_mode0 Hm). }
  unfold reference_kernel. destruct HYPER.
  - template_shell Hpre Hcov Hok. unfold for_each_vector2.
    change (for_loop 0 (nvec (stB s)) (fun kB t =>
      GBI2_initj (stB s) (stC s) kB ≫=
        fun '(j, pB_start, pB_end, pC_start, pC_end) =>
          reference_column true (stA s) (stB s) (mat_i (stC s))
            pB_start pB_end pC_start pC_end t) s
            ≫= (fun s2 => Done tt ≫= fun _ => Done s2)
      = Done s').
    by rewrite Hrun.
  - template_shell Hpre Hcov Hok.
    destruct (pre_mode0 eq_refl) as (HA & HB & HC).
    pose proof (wf_h _ pre_B0) as HhB. rewrite HB in HhB.
    rewrite <- HhB.
    rewrite (for_loop_ext 0 (nvec (stB s)) _ (fun kB t =>
      GBI2_initj (stB s) (stC s) kB ≫=
        fun '(j, pB_start, pB_end, pC_start, pC_end) =>
          reference_column false (stA s) (stB s) (mat_i (stC s))
            pB_start pB_end pC_start pC_end t)).
    + by rewrite Hrun.
    + intros p t Hp.
      apply (sparse_body_eq (stB s) (stC s) p
               (fun a b c d => reference_column false (stA s) (stB s)
                                 (mat_i (stC s)) a b c d t));
        done.
Qed.

(** At the end, the value array of C is a function of A, B and the
    pattern of C alone. *)
Lemma values_agree (H1 H2 : bool) (A : Matrix atype) (B : Matrix btype)
    (C : Matrix ztype) (s t s' t' : state) :
  wf_matrix B -> wf_matrix C -> columns_covered B C ->
  length (mat_x (stC s)) = length (mat_i C) ->
  length (mat_x (stC t)) = length (mat_i C) ->
  columns_done H1 A B C s (nvec B) s' ->
  columns_done H2 A B C t (nvec B) t' ->
  mat_x (stC s') = mat_x (stC t').
Proof.
  intros HwfB HwfC Hcov Hls Hlt ((_ & _ & _ & _ & Hl1) & _ & Hv1)
    ((_ & _ & _ & _ & Hl2) & _ & Hv2).
  apply list_eq. intros n.
  destruct (decide (n < length (mat_i C))%nat) as [Hn|Hn].
  - destruct (slot_containing C (Z.of_nat n) HwfC ltac:(lia))
      as (kC & ps & pe & HkC & Hrg & Hin).
    destruct (column_of_in C HwfC kC HkC) as (j & Hj).
    pose proof (column_of_slot C HwfC kC j ltac:(lia) Hj) as Hslot.
    pose proof (range_of_slot C j kC (ps, pe) Hslot Hrg) as HrC.
    pose proof (Hcov j (col_nonempty_range C j ps pe HrC ltac:(lia))) as HB.
    unfold col_nonempty in HB.
    destruct (range_of B j) as [[lo hi]|] eqn:HrB; [|done].
    destruct (range_of_inv B j lo hi HrB) as (kB & HslotB & HrgB).
    destruct (i_lookup C (Z.of_nat n)) as (r & Hr); [lia|].
    pose proof (slot_of_bounds B HwfB j kB HslotB) as HkB.
    pose proof (slot_of_column_of B j kB HslotB) as HcB.
    pose proof (Hv1 kB j lo hi ps pe (Z.of_nat n) r HkB HcB HrgB HrC Hin Hr) as E1.
    pose proof (Hv2 kB j lo hi ps pe (Z.of_nat n) r HkB HcB HrgB HrC Hin Hr) as E2.
    rewrite Nat2Z.id in E1, E2. congruence.
  - rewrite !lookup_ge_None_2; [done | lia | lia].
Qed.

End Reference.

(** * The checks by computation are sound *)

Section ChecksSound.

Context {SR : Semiring}.

Lemma nonemptyb_spec {V : Type} (M : Matrix V) (j : Z) :
  nonemptyb M j = true <-> col_nonempty M j.
Proof.
  unfold nonemptyb, col_nonempty. destruct (range_of M j) as [[ps pe]|].
  - apply Z.ltb_lt.
  - split; [discriminate | done].
Qed.

Lemma col_nonempty_column {V : Type} (M : Matrix V) (j : Z) :
  wf_matrix M -> col_nonempty M j -> 0 <= j < vdim M.
Proof.
  intros Hwf H. unfold col_nonempty in H.
  destruct (range_of M j) as [[ps pe]|] eqn:E; [|done].
  destruct (range_of_inv M j ps pe E) as (k & Hk & _).
  by apply (slot_of_column M Hwf j k).
Qed.

Lemma covered_check_sound (B : Matrix btype) (C : Matrix ztype) :
  wf_matrix C -> covered_check B C = true -> columns_covered B C.
Proof.
  intros HwfC Hchk j Hj. unfold covered_check in Hchk.
  rewrite forallb_forall in Hchk.
  pose proof (col_nonempty_column C j HwfC Hj) as Hjb.
  specialize (Hchk j). rewrite <- list_elem_of_In, elem_of_seqZ in Hchk.
  specialize (Hchk ltac:(lia)).
  apply nonemptyb_spec in Hj. rewrite Hj in Hchk. simpl in Hchk.
  by apply nonemptyb_spec.
Qed.


Lemma position_bounds {V : Type} (M : Matrix V) (i j : Z) :
  wf_matrix M -> is_Some (position M i j) ->
  0 <= i < vlen M /\ 0 <= j < vdim M.
Proof.
  intros Hwf [q Hq]. destruct (position_inv M i j q Hq) as (ps & pe & Hr & _ & Hi).
  destruct (range_of_inv M j ps pe Hr) as (k & Hk & _).
  split; [by apply (row_in_bounds M Hwf q i) | by apply (slot_of_column M Hwf j k)].
Qed.




End ChecksSound.

(** Well-formedness and the preconditions of concrete inputs. *)
Ltac concrete_sorted :=
  repeat match goal with
         | |- StronglySorted _ _ => constructor
         | |- Forall _ _ => constructor
         | |- _ /\ _ => split
         end;
  try lia.

Ltac concrete_wf :=
  constructor; simpl;
  try lia; try reflexivity; try (split; [reflexivity|]);
  concrete_sorted.

Ltac concrete_pre :=
  constructor; simpl; try reflexivity; try lia; try discriminate;
  try concrete_wf.

Ltac concrete_covered :=
  apply covered_check_sound; [concrete_wf | reflexivity].

(** * The remaining claims about the kernel *)

Section Claims3.

Context {SR : Semiring} {KC : Constants}.

(** C3, as amended.  With [HYPER], in a column of C that has entries:
    when A is hypersparse and B(:,j) has more than two entries, the right
    bound of the window is trimmed once, after the clear and before any
    lookup of the column, to a bound [pright] such that the slots of A
    beyond it are exactly those whose column id exceeds the last row id
    [Bi [pB_end-1]] of B(:,j); in all other cases there is no trim and
    the bound is [nvec(A)-1], the full range.  Every lookup of the column
    is made with that bound.  Whether B is hypersparse plays no part. *)
Theorem trim_when_A_hypersparse (A : Matrix atype) (B : Matrix btype)
    (C : Matrix ztype) (kB kC pB_start pB_end pC_start pC_end : Z) (s : state) :
  wf_matrix A -> wf_matrix B -> wf_matrix C ->
  vdim A = vlen B -> vlen C = vlen A ->
  0 <= kB < nvec B -> slot_range B kB = Some (pB_start, pB_end) ->
  0 <= kC < nvec C -> slot_range C kC = Some (pC_start, pC_end) ->
  pC_start < pC_end -> pB_start < pB_end ->
  Z.of_nat (length (w s)) = vlen C ->
  length (mat_x (stC s)) = length (mat_i C) ->
  exists s' imax pright sc,
    column true A B (mat_i C) pB_start pB_end pC_start pC_end s = Done s' /\
    mat_i B !! Z.to_nat (pB_end - 1) = Some imax /\
    trace s' = trace s ++
      clear_events (mat_i C) pC_start pC_end ++
      (if is_hyper A && (2 <? pB_end - pB_start)
       then [EvTrim imax pright] else []) ++
      sc ++
      gather_events (mat_i C) pC_start pC_end /\
    Forall (scatter_event pright) sc /\
    if is_hyper A && (2 <? pB_end - pB_start) then
      pright <= nvec A - 1 /\
      (forall sl x, pright < sl -> mat_h A !! Z.to_nat sl = Some x -> imax < x) /\
      (forall sl x, 0 <= sl <= pright -> mat_h A !! Z.to_nat sl = Some x ->
         x <= imax)
    else pright = nvec A - 1.
Proof.
  intros HwfA HwfB HwfC Hinner Hvlen HkB HrgB HkC HrgC HneC HneB Hwlen Hxlen.
  destruct (column_spec true A B C kB kC pB_start pB_end pC_start pC_end s)
    as (s' & imax & pright & sc & Hrun & _ & Himax & Htr & Hsc & _ & _ & Htrim & _);
    try done.
  exists s', imax, pright, sc. done.
Qed.

(** C5.  A column whose range in the pattern of C is empty is skipped.
    For every stored vector [kB] of B whose column [j] has no entry in C,
    the body of the loop over the columns, in its form with [HYPER] and, for
    sparse B and C, in its form without, returns the very state it was
    given: [w] and [Cx] are untouched and no event is recorded, neither an
    access to the workspace nor a trim or a lookup of the locator.  This is
    the guard of line 76, which skips whenever [pC_end == pC_start]. *)
Theorem empty_column_skipped (HYPER : bool) (A : Matrix atype)
    (B : Matrix btype) (C : Matrix ztype) (kB j : Z) (t : state) :
  wf_matrix B -> wf_matrix C -> vdim C = vdim B ->
  0 <= kB < nvec B -> column_of B kB = Some j ->
  ~ col_nonempty C j ->
  (GBI2_initj B C kB ≫= fun '(_, pB_start, pB_end, pC_start, pC_end) =>
     column HYPER A B (mat_i C) pB_start pB_end pC_start pC_end t) = Done t /\
  (is_hyper B = false -> is_hyper C = false ->
   (pB_start ← (mat_p B).[kB];
    pB_end ← (mat_p B).[kB + 1];
    pC_start ← (mat_p C).[kB];
    pC_end ← (mat_p C).[kB + 1];
    column HYPER A B (mat_i C) pB_start pB_end pC_start pC_end t) = Done t) /\
  (forall pB_start pB_end pC,
     column HYPER A B (mat_i C) pB_start pB_end pC pC t = Done t).
Proof.
  intros HwfB HwfC Hvdim HkB Hcol Hempty.
  assert (Hbody :
    (GBI2_initj B C kB ≫= fun '(_, pB_start, pB_end, pC_start, pC_end) =>
       column HYPER A B (mat_i C) pB_start pB_end pC_start pC_end t) = Done t).
  { destruct (GBI2_initj_spec B C kB HwfB HwfC Hvdim HkB)
      as (j' & lo & hi & Hcol' & Hslot & Hrg & Hinit).
    rewrite Hcol in Hcol'. injection Hcol' as <-.
    rewrite Hinit, bind_Done. unfold col_nonempty in Hempty.
    destruct (range_of C j) as [[ps pe]|] eqn:HrC; simpl.
    - destruct (range_of_inv C j ps pe HrC) as (kC & HslotC & HrgC).
      pose proof (slot_of_bounds C HwfC j kC HslotC) as HkC.
      destruct (slot_range_in C HwfC kC HkC) as (a & b & Hab & Hb0 & _).
      rewrite HrgC in Hab. injection Hab as <- <-.
      apply column_skip. lia.
    - by apply column_skip. }
  split; [exact Hbody|]. split.
  - intros HB HC. rewrite <- Hbody.
    apply (sparse_body_eq B C kB
             (fun a b c d => column HYPER A B (mat_i C) a b c d t)); done.
  - intros pB_start pB_end pC. by apply column_skip.
Qed.

(** C6.  On every input that meets the preconditions, the template and
    the reference, which searches the full range on every probe and never
    trims, both return; they make the same probes in the same order, each
    with the same located slot (or none) and the same range, and they
    leave the same C. *)
Theorem trimming_is_an_optimization (HYPER : bool) (info : GrB_Info) (s : state) :
  kernel_pre HYPER info s ->
  columns_covered (stB s) (stC s) ->
  exists s1 s2 evs1 evs2,
    GB_AxB_Gustavson_nomask HYPER info s = Done s1 /\
    reference_kernel HYPER info s = Done s2 /\
    trace s1 = trace s ++ evs1 /\
    trace s2 = trace s ++ evs2 /\
    probes evs1 = probes evs2 /\
    mat_x (stC s1) = mat_x (stC s2) /\
    stC s1 = stC s2.
Proof.
  intros Hpre Hcov.
  destruct (kernel_spec HYPER info s Hpre Hcov) as (s1 & Hrun1 & Hd1).
  destruct (reference_kernel_spec HYPER info s Hpre Hcov) as (s2 & Hrun2 & Hd2).
  assert (Hx : mat_x (stC s1) = mat_x (stC s2)).
  { destruct Hpre.
    apply (values_agree HYPER HYPER (stA s) (stB s) (stC s) s s s1 s2);
      try done; apply (wf_x_length _ pre_C0). }
  destruct Hd1 as ((_ & _ & HC1 & _) & (evs1 & Htr1 & _ & Hp1) & _).
  destruct Hd2 as ((_ & _ & HC2 & _) & (evs2 & Htr2 & _ & Hp2) & _).
  exists s1, s2, evs1, evs2. repeat split; try done.
  - congruence.
  - rewrite HC1, HC2, Hx. done.
Qed.




(** The outcome of a call does not depend on the magic of C: the check
    of line 47 stores [MAGIC] before it tests. *)
Lemma magic_not_checked (HYPER : bool) (info : GrB_Info) (s : state) :
  GB_AxB_Gustavson_nomask HYPER info s
  = GB_AxB_Gustavson_nomask HYPER info (set_C (set_magic MAGIC (stC s)) s).
Proof. reflexivity. Qed.

(** The other checks of the head of the template do abort the call. *)
Lemma aliasing_aborts (HYPER : bool) (info : GrB_Info) (s : state) :
  NOT_ALIASED_3 (handle (stC s)) 0 (handle (stA s)) (handle (stB s)) = false ->
  GB_AxB_Gustavson_nomask HYPER info s = AssertFail.
Proof. intros H. unfold GB_AxB_Gustavson_nomask, NULL, ASSERT. by rewrite H. Qed.

Lemma dimensions_abort (HYPER : bool) (info : GrB_Info) (s : state) :
  vdim (stC s) <> vdim (stB s) \/ vlen (stC s) <> vlen (stA s) \/
  vdim (stA s) <> vlen (stB s) \/ nvec (stB s) < nvec (stC s) ->
  GB_AxB_Gustavson_nomask HYPER info s = AssertFail.
Proof.
  intros H. unfold GB_AxB_Gustavson_nomask. cbv zeta. unfold ASSERT.
  destruct (NOT_ALIASED_3 _ _ _ _); [|done]. rewrite bind_Done.
  destruct (vdim (stC s) =? vdim (stB s)) eqn:E1; [|done]. rewrite bind_Done.
  destruct (vlen (stC s) =? vlen (stA s)) eqn:E2; [|done]. rewrite bind_Done.
  destruct (vdim (stA s) =? vlen (stB s)) eqn:E3; [|done]. rewrite bind_Done.
  destruct (nvec (stC s) <=? nvec (stB s)) eqn:E4; [|done].
  apply Z.eqb_eq in E1, E2, E3. apply Z.leb_le in E4. lia.
Qed.

(** ** Two calls on the same matrices *)












End Claims3.

(** * The claims on concrete inputs *)

Lemma Record_Get_accessors_overwrite_type_witness :
  Rec.Record_GetScalar Z Z (fun v : Z => v)
    [Rec.mkEntry Z 5 Rec.REC_TYPE_UNKNOWN; Rec.mkEntry Z 8 Rec.REC_TYPE_NODE] 0
  = Done ([Rec.mkEntry Z 5 Rec.REC_TYPE_SCALAR; Rec.mkEntry Z 8 Rec.REC_TYPE_NODE], 5).
Proof.
  apply (Record_Get_accessors_overwrite_type Z Z Z Z
           (fun v => v) (fun v => v) (fun v => v)
           [Rec.mkEntry Z 5 Rec.REC_TYPE_UNKNOWN; Rec.mkEntry Z 8 Rec.REC_TYPE_NODE]
           0 (Rec.mkEntry Z 5 Rec.REC_TYPE_UNKNOWN)); [lia | reflexivity].
Defined.



Lemma trim_when_A_hypersparse_witness :
  exists s' pright sc,
    @column plus_times true hyper_A hyper_B (mat_i hyper_C) 0 3 0 3 hyper_scenario
    = Done s' /\
    trace s' = [] ++ clear_events (mat_i hyper_C) 0 3 ++ [EvTrim 2 pright] ++ sc ++
               gather_events (mat_i hyper_C) 0 3 /\
    Forall (scatter_event pright) sc /\
    pright <= 3.
Proof.
  destruct (@trim_when_A_hypersparse plus_times hyper_A hyper_B hyper_C
              0 0 0 3 0 3 hyper_scenario)
    as (s' & imax & pright & sc & Hrun & Himax & Htr & Hsc & Hle & _);
    [concrete_wf | concrete_wf | concrete_wf | reflexivity | reflexivity
    | simpl; lia | reflexivity | simpl; lia | reflexivity | lia | lia
    | reflexivity | reflexivity |].
  injection Himax as <-.
  exists s', pright, sc. repeat split; assumption.
Defined.

(** C3 as the claim states it fails: with B hypersparse, three entries in
    its column and A sparse, the rule of the specification demands a trim,
    and the kernel makes none: its fourth event is the first lookup, made
    with the full range. *)
Lemma trim_rule_of_the_spec_counterexample :
  ~ @trim_rule_of_the_spec plus_times.
Proof.
  intros Hrule.
  destruct (Hrule sparse_A hyper_B hyper_C 0 0 0 3 0 3 sparse_A_scenario)
    as (s' & imax & pright & sc & Hrun & _ & Htr & _);
    [concrete_wf | concrete_wf | concrete_wf | reflexivity | reflexivity
    | simpl; lia | reflexivity | simpl; lia | reflexivity | lia | lia
    | reflexivity | reflexivity |].
  vm_compute in Hrun. injection Hrun as <-.
  vm_compute in Htr. discriminate Htr.
Qed.

(** C4 at a failing input: C is not marked as finalized, every other
    check passes, and the call returns with the value array written and
    C marked as finalized. *)
Lemma unfinalized_C_goes_undetected :
  magic (stC scenario_unfinalized) <> @MAGIC magic_constants /\
  exists s',
    @GB_AxB_Gustavson_nomask plus_times magic_constants false GrB_SUCCESS
      scenario_unfinalized = Done s' /\
    magic (stC s') = @MAGIC magic_constants /\
    mat_x (stC s') = [1; 1; 2].
Proof.
  split; [discriminate|]. eexists. split; [vm_compute; reflexivity|].
  split; reflexivity.
Qed.

Lemma empty_column_skipped_witness :
  (GBI2_initj gap_B gap_C 0 ≫= fun '(_, pB_start, pB_end, pC_start, pC_end) =>
     @column plus_times false scenario_A gap_B (mat_i gap_C)
       pB_start pB_end pC_start pC_end gap_scenario) = Done gap_scenario.
Proof.
  apply (@empty_column_skipped plus_times false scenario_A gap_B gap_C 0 0
           gap_scenario);
    [concrete_wf | concrete_wf | reflexivity | simpl; lia | reflexivity
    | unfold col_nonempty; simpl; lia].
Defined.

Lemma trimming_is_an_optimization_witness :
  exists s1 s2 evs1 evs2,
    @GB_AxB_Gustavson_nomask plus_times magic_constants true GrB_SUCCESS hyper_scenario
    = Done s1 /\
    @reference_kernel plus_times magic_constants true GrB_SUCCESS hyper_scenario
    = Done s2 /\
    trace s1 = [] ++ evs1 /\ trace s2 = [] ++ evs2 /\
    probes evs1 = probes evs2 /\
    mat_x (stC s1) = mat_x (stC s2).
Proof.
  destruct (@trimming_is_an_optimization plus_times magic_constants
              true GrB_SUCCESS hyper_scenario)
    as (s1 & s2 & evs1 & evs2 & H1 & H2 & H3 & H4 & H5 & H6 & _).
  - concrete_pre.
  - concrete_covered.
  - exists s1, s2, evs1, evs2. repeat split; assumption.
Defined.












(** * The operations of [record.c] on whole records *)

(** A loop that rewrites element [i] of a list in iteration [i]. *)
Lemma for_loop_update {X : Type} (g : Z -> X -> X)
    (body : Z -> list X -> outcome (list X)) (n : Z) (l : list X) :
  0 <= n <= Z.of_nat (length l) ->
  (forall i c e, 0 <= i < n -> c !! Z.to_nat i = Some e ->
     body i c = Done (<[Z.to_nat i := g i e]> c)) ->
  exists l',
    for_loop 0 n body l = Done l' /\
    length l' = length l /\
    forall k : nat,
      l' !! k = if decide (Z.of_nat k < n) then g (Z.of_nat k) <$> l !! k
                else l !! k.
Proof.
  intros Hn Hbody.
  destruct (for_loop_rule (fun i c =>
      length c = length l /\
      forall k : nat,
        c !! k = if decide (Z.of_nat k < i) then g (Z.of_nat k) <$> l !! k
                 else l !! k) 0 n body l) as (l' & Hrun & Hlen & Hl').
  - lia.
  - split; [done|]. intros k. destruct (decide _); [lia | done].
  - intros i c Hi [Hlen Hc].
    destruct (lookup_lt_is_Some_2 l (Z.to_nat i)) as [e He]; [lia|].
    assert (Hce : c !! Z.to_nat i = Some e).
    { rewrite Hc. destruct (decide _); [lia | done]. }
    exists (<[Z.to_nat i := g i e]> c). split; [by apply Hbody|].
    split; [by rewrite length_insert|].
    intros k. destruct (decide (k = Z.to_nat i)) as [->|Hk].
    + rewrite list_lookup_insert_eq by (rewrite Hlen; lia).
      destruct (decide _); [|lia]. rewrite He. simpl. f_equal. f_equal. lia.
    + rewrite list_lookup_insert_ne by done. rewrite Hc.
      destruct (decide (Z.of_nat k < i)), (decide (Z.of_nat k < i + 1));
        try done; lia.
  - by exists l'.
Qed.

Lemma array_get_cases {X : Type} (a : list X) (i : Z) :
  (exists v, 0 <= i /\ a !! Z.to_nat i = Some v /\ a.[i] = Done v) \/
  (~ 0 <= i < Z.of_nat (length a) /\ a.[i] = OutOfBounds).
Proof.
  destruct (decide (0 <= i < Z.of_nat (length a))) as [Hi|Hi].
  - left. destruct (array_get_in_bounds a i Hi) as (v & Hv & Hl).
    exists v. repeat split; [lia | done | done].
  - right. split; [done|]. unfold array_get.
    destruct (decide (0 <= i)); [|done].
    rewrite lookup_ge_None_2; [done | lia].
Qed.

Section RecordOpsFacts.

Context {RT : RecordTypes}.

Abbreviation Entry := (Rec.Entry EntryValue).

Implicit Types (r c : list Entry) (e : Entry) (idx : Z).

Lemma entry_eta e : Rec.mkEntry _ (entry_value e) (entry_type e) = e.
Proof. by destruct e. Qed.

Lemma store_s_spec r idx e (v : SIValue) :
  0 <= idx -> r !! Z.to_nat idx = Some e ->
  store_s r idx v
  = Done (<[Z.to_nat idx :=
             Rec.mkEntry _ (assign_s (entry_value e) v) (entry_type e)]> r).
Proof.
  intros H0 He. unfold store_s.
  rewrite (array_get_lookup r idx e) by done. rewrite bind_Done.
  apply array_set_Done. apply lookup_lt_Some in He. lia.
Qed.

Lemma store_n_spec r idx e (n : Node) :
  0 <= idx -> r !! Z.to_nat idx = Some e ->
  store_n r idx n
  = Done (<[Z.to_nat idx :=
             Rec.mkEntry _ (assign_n (entry_value e) n) (entry_type e)]> r).
Proof.
  intros H0 He. unfold store_n.
  rewrite (array_get_lookup r idx e) by done. rewrite bind_Done.
  apply array_set_Done. apply lookup_lt_Some in He. lia.
Qed.

Lemma store_e_spec r idx e (x : Edge) :
  0 <= idx -> r !! Z.to_nat idx = Some e ->
  store_e r idx x
  = Done (<[Z.to_nat idx :=
             Rec.mkEntry _ (assign_e (entry_value e) x) (entry_type e)]> r).
Proof.
  intros H0 He. unfold store_e.
  rewrite (array_get_lookup r idx e) by done. rewrite bind_Done.
  apply array_set_Done. apply lookup_lt_Some in He. lia.
Qed.

(** Storing the tag that an entry has leaves the record as it is. *)
Lemma store_type_same r idx e :
  0 <= idx -> r !! Z.to_nat idx = Some e ->
  Rec.store_type _ r idx (entry_type e) = Done r.
Proof.
  intros H0 He. rewrite (store_type_spec _ r idx _ e) by done.
  change (Rec.value EntryValue e) with (entry_value e).
  by rewrite entry_eta, list_insert_id.
Qed.

(** The three typed stores: value and tag of entry [idx] are replaced. *)
Lemma Record_AddScalar_spec r idx e (v : SIValue) :
  0 <= idx -> r !! Z.to_nat idx = Some e ->
  Record_AddScalar r idx v
  = Done (<[Z.to_nat idx :=
             Rec.mkEntry _ (assign_s (entry_value e) v) Rec.REC_TYPE_SCALAR]> r).
Proof.
  intros H0 He. unfold Record_AddScalar.
  rewrite (store_s_spec r idx e) by done. rewrite bind_Done.
  assert (Hlt : (Z.to_nat idx < length r)%nat) by (eapply lookup_lt_Some; eauto).
  rewrite (store_type_spec _ _ idx _
             (Rec.mkEntry _ (assign_s (entry_value e) v) (entry_type e)))
    by (done || by rewrite list_lookup_insert_eq).
  by rewrite list_insert_insert_eq.
Qed.

Lemma Record_AddNode_spec r idx e (n : Node) :
  0 <= idx -> r !! Z.to_nat idx = Some e ->
  Record_AddNode r idx n
  = Done (<[Z.to_nat idx :=
             Rec.mkEntry _ (assign_n (entry_value e) n) Rec.REC_TYPE_NODE]> r).
Proof.
  intros H0 He. unfold Record_AddNode.
  rewrite (store_n_spec r idx e) by done. rewrite bind_Done.
  assert (Hlt : (Z.to_nat idx < length r)%nat) by (eapply lookup_lt_Some; eauto).
  rewrite (store_type_spec _ _ idx _
             (Rec.mkEntry _ (assign_n (entry_value e) n) (entry_type e)))
    by (done || by rewrite list_lookup_insert_eq).
  by rewrite list_insert_insert_eq.
Qed.

Lemma Record_AddEdge_spec r idx e (x : Edge) :
  0 <= idx -> r !! Z.to_nat idx = Some e ->
  Record_AddEdge r idx x
  = Done (<[Z.to_nat idx :=
             Rec.mkEntry _ (assign_e (entry_value e) x) Rec.REC_TYPE_EDGE]> r).
Proof.
  intros H0 He. unfold Record_AddEdge.
  rewrite (store_e_spec r idx e) by done. rewrite bind_Done.
  assert (Hlt : (Z.to_nat idx < length r)%nat) by (eapply lookup_lt_Some; eauto).
  rewrite (store_type_spec _ _ idx _
             (Rec.mkEntry _ (assign_e (entry_value e) x) (entry_type e)))
    by (done || by rewrite list_lookup_insert_eq).
  by rewrite list_insert_insert_eq.
Qed.

(** An accessor called on an entry of its own type leaves the record as
    it is. *)
Lemma Record_GetScalar_same r idx e :
  0 <= idx -> r !! Z.to_nat idx = Some e ->
  entry_type e = Rec.REC_TYPE_SCALAR ->
  Rec.Record_GetScalar _ _ member_s r idx = Done (r, member_s (entry_value e)).
Proof.
  intros H0 He Ht. unfold Rec.Record_GetScalar. rewrite <- Ht.
  rewrite (store_type_same r idx e) by done. rewrite bind_Done.
  by rewrite (array_get_lookup r idx e).
Qed.

Lemma Record_GetNode_same r idx e :
  0 <= idx -> r !! Z.to_nat idx = Some e ->
  entry_type e = Rec.REC_TYPE_NODE ->
  Rec.Record_GetNode _ r idx = Done (r, Rec.RefNode idx).
Proof.
  intros H0 He Ht. unfold Rec.Record_GetNode. rewrite <- Ht.
  by rewrite (store_type_same r idx e).
Qed.

Lemma Record_GetEdge_same r idx e :
  0 <= idx -> r !! Z.to_nat idx = Some e ->
  entry_type e = Rec.REC_TYPE_EDGE ->
  Rec.Record_GetEdge _ r idx = Done (r, Rec.RefEdge idx).
Proof.
  intros H0 He Ht. unfold Rec.Record_GetEdge. rewrite <- Ht.
  by rewrite (store_type_same r idx e).
Qed.

Lemma Record_GetType_lookup r idx e :
  0 <= idx -> r !! Z.to_nat idx = Some e ->
  Rec.Record_GetType _ r idx = Done (entry_type e).
Proof.
  intros H0 He. unfold Rec.Record_GetType.
  by rewrite (array_get_lookup r idx e).
Qed.

Lemma Record_Get_set r idx e :
  0 <= idx -> r !! Z.to_nat idx = Some e ->
  entry_type e <> Rec.REC_TYPE_UNKNOWN ->
  Record_Get r idx = Done (r, got idx e).
Proof.
  intros H0 He Hty. unfold Record_Get, got.
  rewrite (array_get_lookup r idx e) by done. rewrite bind_Done.
  destruct (entry_type e) eqn:Ht; [done| | |].
  - unfold Rec.Record_GetScalar. rewrite <- Ht.
    rewrite (store_type_same r idx e) by done. rewrite bind_Done.
    by rewrite (array_get_lookup r idx e).
  - unfold Rec.Record_GetNode. rewrite <- Ht.
    by rewrite (store_type_same r idx e).
  - unfold Rec.Record_GetEdge. rewrite <- Ht.
    by rewrite (store_type_same r idx e).
Qed.


(** X1.  [Record_Get] and [Record_GetGraphEntity] leave the record as it is,
    although they go through the accessors that store a tag: the tag they
    store is the one they have read.  They answer for an entry that is set,
    fail the assertion on an entry of type [REC_TYPE_UNKNOWN], and read
    outside the record for an index that is not one of its entries. *)
Theorem Record_Get_keeps_record r idx :
  match Record_Get r idx with
  | Done (r', v) =>
      r' = r /\
      exists e, 0 <= idx /\ r !! Z.to_nat idx = Some e /\
        entry_type e <> Rec.REC_TYPE_UNKNOWN /\ v = got idx e
  | AssertFail =>
      exists e, 0 <= idx /\ r !! Z.to_nat idx = Some e /\
        entry_type e = Rec.REC_TYPE_UNKNOWN
  | OutOfBounds => ~ 0 <= idx < Z.of_nat (length r)
  | Diverge => False
  end /\
  match Record_GetGraphEntity r idx with
  | Done (r', p) =>
      r' = r /\
      exists e, 0 <= idx /\ r !! Z.to_nat idx = Some e /\
        p = match entry_type e with
            | Rec.REC_TYPE_NODE => Some (EntityAt (Rec.RefNode idx))
            | Rec.REC_TYPE_EDGE => Some (EntityAt (Rec.RefEdge idx))
            | Rec.REC_TYPE_SCALAR =>
                Some (EntityPtr (ptrval (member_s (entry_value e))))
            | Rec.REC_TYPE_UNKNOWN => None
            end /\
        entry_type e <> Rec.REC_TYPE_UNKNOWN
  | AssertFail =>
      exists e, 0 <= idx /\ r !! Z.to_nat idx = Some e /\
        entry_type e = Rec.REC_TYPE_UNKNOWN
  | OutOfBounds => ~ 0 <= idx < Z.of_nat (length r)
  | Diverge => False
  end.
Proof.
  destruct (array_get_cases r idx) as [(e & H0 & He & Hget)|[Hout Hget]].
  - destruct (entry_type e) eqn:Ht.
    + unfold Record_Get, Record_GetGraphEntity. rewrite Hget, !bind_Done, Ht.
      simpl. split; exists e; done.
    + split.
      * rewrite (Record_Get_set r idx e) by (done || by rewrite Ht).
        split; [done|]. exists e. by rewrite Ht.
      * unfold Record_GetGraphEntity. rewrite Hget, bind_Done, Ht.
        unfold Rec.Record_GetScalar. rewrite <- Ht.
        rewrite (store_type_same r idx e) by done. rewrite bind_Done.
        rewrite Hget. simpl. split; [done|]. exists e. by rewrite Ht.
    + split.
      * rewrite (Record_Get_set r idx e) by (done || by rewrite Ht).
        split; [done|]. exists e. by rewrite Ht.
      * unfold Record_GetGraphEntity. rewrite Hget, bind_Done, Ht.
        unfold Rec.Record_GetNode. rewrite <- Ht.
        rewrite (store_type_same r idx e) by done. simpl.
        split; [done|]. exists e. by rewrite Ht.
    + split.
      * rewrite (Record_Get_set r idx e) by (done || by rewrite Ht).
        split; [done|]. exists e. by rewrite Ht.
      * unfold Record_GetGraphEntity. rewrite Hget, bind_Done, Ht.
        unfold Rec.Record_GetEdge. rewrite <- Ht.
        rewrite (store_type_same r idx e) by done. simpl.
        split; [done|]. exists e. by rewrite Ht.
  - unfold Record_Get, Record_GetGraphEntity. rewrite Hget. simpl. done.
Qed.

(** X2.  A value stored by one of the typed stores is the value read back,
    and the reading leaves the record as the store has left it: a scalar
    comes back from [Record_GetScalar] and from [Record_Get]; for a node and
    for an edge, the address of the entry comes back, and the node or the
    edge stored is what is read through it.  The store changes no other
    entry. *)
Theorem Record_Add_Get_round_trip {UL : UnionLaws RT} r idx e
    (v : SIValue) (n : Node) (x : Edge) :
  0 <= idx -> r !! Z.to_nat idx = Some e ->
  (exists r1,
     Record_AddScalar r idx v = Done r1 /\
     Rec.Record_GetType _ r1 idx = Done Rec.REC_TYPE_SCALAR /\
     Rec.Record_GetScalar _ _ member_s r1 idx = Done (r1, v) /\
     Record_Get r1 idx = Done (r1, v) /\
     forall k, k <> Z.to_nat idx -> r1 !! k = r !! k) /\
  (exists r2,
     Record_AddNode r idx n = Done r2 /\
     Rec.Record_GetType _ r2 idx = Done Rec.REC_TYPE_NODE /\
     Rec.Record_GetNode _ r2 idx = Done (r2, Rec.RefNode idx) /\
     Record_Get r2 idx = Done (r2, SI_Node (Rec.RefNode idx)) /\
     Rec.deref_node _ _ member_n r2 (Rec.RefNode idx) = Done n /\
     forall k, k <> Z.to_nat idx -> r2 !! k = r !! k) /\
  (exists r3,
     Record_AddEdge r idx x = Done r3 /\
     Rec.Record_GetType _ r3 idx = Done Rec.REC_TYPE_EDGE /\
     Rec.Record_GetEdge _ r3 idx = Done (r3, Rec.RefEdge idx) /\
     Record_Get r3 idx = Done (r3, SI_Edge (Rec.RefEdge idx)) /\
     Rec.deref_edge _ _ member_e r3 (Rec.RefEdge idx) = Done x /\
     forall k, k <> Z.to_nat idx -> r3 !! k = r !! k).
Proof.
  intros H0 He.
  assert (Hlt : (Z.to_nat idx < length r)%nat) by (eapply lookup_lt_Some; eauto).
  assert (Hat : forall e', <[Z.to_nat idx := e']> r !! Z.to_nat idx = Some e').
  { intros e'. by rewrite list_lookup_insert_eq. }
  split; [|split].
  - eexists. split; [by apply Record_AddScalar_spec|].
    pose (e1 := Rec.mkEntry _ (assign_s (entry_value e) v) Rec.REC_TYPE_SCALAR).
    pose proof (Record_Get_set _ idx e1 H0 (Hat e1) ltac:(by simpl)) as Hg.
    pose proof (Record_GetScalar_same _ idx e1 H0 (Hat e1) eq_refl) as Hs.
    pose proof (Record_GetType_lookup _ idx e1 H0 (Hat e1)) as Ht.
    unfold got in Hg. simpl in Hg, Hs, Ht. rewrite member_assign_s in Hg, Hs.
    repeat split; try done.
    intros k Hk. by rewrite list_lookup_insert_ne.
  - eexists. split; [by apply Record_AddNode_spec|].
    pose (e1 := Rec.mkEntry _ (assign_n (entry_value e) n) Rec.REC_TYPE_NODE).
    pose proof (Record_Get_set _ idx e1 H0 (Hat e1) ltac:(by simpl)) as Hg.
    pose proof (Record_GetNode_same _ idx e1 H0 (Hat e1) eq_refl) as Hs.
    pose proof (Record_GetType_lookup _ idx e1 H0 (Hat e1)) as Ht.
    unfold got in Hg. simpl in Hg, Hs, Ht.
    repeat split; try done.
    + unfold Rec.deref_node.
      rewrite (array_get_lookup _ idx _ H0 (Hat _)). simpl.
      by rewrite member_assign_n.
    + intros k Hk. by rewrite list_lookup_insert_ne.
  - eexists. split; [by apply Record_AddEdge_spec|].
    pose (e1 := Rec.mkEntry _ (assign_e (entry_value e) x) Rec.REC_TYPE_EDGE).
    pose proof (Record_Get_set _ idx e1 H0 (Hat e1) ltac:(by simpl)) as Hg.
    pose proof (Record_GetEdge_same _ idx e1 H0 (Hat e1) eq_refl) as Hs.
    pose proof (Record_GetType_lookup _ idx e1 H0 (Hat e1)) as Ht.
    unfold got in Hg. simpl in Hg, Hs, Ht.
    repeat split; try done.
    + unfold Rec.deref_edge.
      rewrite (array_get_lookup _ idx _ H0 (Hat _)). simpl.
      by rewrite member_assign_e.
    + intros k Hk. by rewrite list_lookup_insert_ne.
Qed.


Lemma to_uint_small (z : Z) : 0 <= z < 2 ^ 32 -> to_uint z = z.
Proof. intros H. unfold to_uint. by apply Z.mod_small. Qed.

Lemma to_uint_negative (z : Z) : - 2 ^ 31 <= z < 0 -> to_uint z = z + 2 ^ 32.
Proof.
  intros H. unfold to_uint. symmetry. apply (Z.mod_unique _ _ (-1)); lia.
Qed.

Lemma to_int_small (z : Z) : 0 <= z < 2 ^ 31 -> to_int z = z.
Proof. intros H. unfold to_int. rewrite Z.mod_small; lia. Qed.

Lemma Record_length_ok (r : _Record) :
  Record_ok r ->
  Record_length r = Z.of_nat (length (entries r)) /\
  Z.of_nat (length (entries r)) < 2 ^ 31.
Proof.
  intros [Hlen Hmax]. unfold Record_length.
  rewrite to_uint_small by lia. lia.
Qed.

(** X3.  [Record_Add] checks its index before it writes: on a record with
    fewer than 2^31 entries, laid out as [Record_New] does, an index that is
    not one of the entries, negative ones included, fails the assertion;
    otherwise the entry is replaced by the node or the edge that the value
    points to, or by the value itself, and tagged accordingly. *)
Theorem Record_Add_checks_index (r : _Record) idx (v : SIValue) :
  Record_ok r ->
  - 2 ^ 31 <= idx < 2 ^ 31 ->
  if decide (0 <= idx < Z.of_nat (length (entries r))) then
    exists e, entries r !! Z.to_nat idx = Some e /\
      Record_Add r idx v
      = Done (with_entries r (<[Z.to_nat idx := added v e]> (entries r)))
  else Record_Add r idx v = AssertFail.
Proof.
  intros Hok Hidx. destruct (Record_length_ok r Hok) as [Hlen Hmax].
  unfold Record_Add. rewrite Hlen.
  destruct (decide _) as [Hin|Hout].
  - rewrite to_uint_small by lia.
    replace (idx <? Z.of_nat (length (entries r))) with true
      by (symmetry; apply Z.ltb_lt; lia).
    simpl c_assert. rewrite bind_Done.
    destruct (lookup_lt_is_Some_2 (entries r) (Z.to_nat idx)) as [e He]; [lia|].
    exists e. split; [done|]. unfold added.
    destruct (SI_TYPE v);
      rewrite ?(Record_AddScalar_spec _ idx e), ?(Record_AddNode_spec _ idx e),
        ?(Record_AddEdge_spec _ idx e) by (lia || done); done.
  - replace (to_uint idx <? Z.of_nat (length (entries r))) with false; [done|].
    symmetry. apply Z.ltb_ge.
    destruct (decide (idx < 0)).
    + rewrite to_uint_negative by lia. lia.
    + rewrite to_uint_small by lia. lia.
Qed.


Lemma update_s_spec (f : SIValue -> SIValue) c idx e :
  0 <= idx -> c !! Z.to_nat idx = Some e ->
  update_s f c idx
  = Done (<[Z.to_nat idx :=
             Rec.mkEntry _ (assign_s (entry_value e) (f (member_s (entry_value e))))
               (entry_type e)]> c).
Proof.
  intros H0 He. unfold update_s.
  rewrite (array_get_lookup c idx e) by done. rewrite bind_Done.
  by apply store_s_spec.
Qed.

(** One iteration of the loops that change the scalars in place. *)
Lemma scalar_step (f : SIValue -> SIValue) c idx e :
  0 <= idx -> c !! Z.to_nat idx = Some e ->
  match entry_type e with
  | Rec.REC_TYPE_SCALAR => update_s f c idx
  | _ => Done c
  end = Done (<[Z.to_nat idx := map_scalar f e]> c).
Proof.
  intros H0 He. unfold map_scalar.
  destruct (entry_type e) eqn:Ht; rewrite ?list_insert_id by done; try done.
  rewrite (update_s_spec f c idx e) by done. by rewrite Ht.
Qed.

(** The loop of [Record_Clone], [Record_PersistScalars]: every scalar of
    the first [n] entries goes through [f]. *)
Lemma scalar_loop (f : SIValue -> SIValue)
    (body : Z -> list Entry -> outcome (list Entry)) (n : Z) (l : list Entry) :
  0 <= n <= Z.of_nat (length l) ->
  (forall i c e, 0 <= i < n -> c !! Z.to_nat i = Some e ->
     body i c = Done (<[Z.to_nat i := map_scalar f e]> c)) ->
  for_loop 0 n body l
  = Done ((map_scalar f <$> take (Z.to_nat n) l) ++ drop (Z.to_nat n) l).
Proof.
  intros Hn Hbody.
  destruct (for_loop_update (fun _ => map_scalar f) body n l Hn Hbody)
    as (l' & Hrun & Hlen & Hl').
  rewrite Hrun. f_equal. apply list_eq. intros k. rewrite Hl'.
  destruct (decide (Z.of_nat k < n)) as [Hk|Hk].
  - rewrite lookup_app_l by (rewrite length_fmap, length_take; lia).
    rewrite list_lookup_fmap, lookup_take_lt by lia. done.
  - rewrite lookup_app_r by (rewrite length_fmap, length_take; lia).
    rewrite length_fmap, length_take, lookup_drop. f_equal. lia.
Qed.

(** [Record_Clone] into a record that is long enough. *)
Lemma Record_Clone_spec (r clone : _Record) :
  Record_ok r ->
  (length (entries r) <= length (entries clone))%nat ->
  Record_Clone r clone
  = Done (with_entries clone
            ((map_scalar SIValue_MakeVolatile <$> entries r) ++
             drop (length (entries r)) (entries clone))).
Proof.
  intros Hok Hle. destruct (Record_length_ok r Hok) as [Hlen Hmax].
  unfold Record_Clone. cbv zeta. rewrite Hlen, to_int_small by lia.
  unfold memcpy. rewrite Nat2Z.id, firstn_all.
  destruct (decide _) as [_|Hno]; [|lia]. rewrite bind_Done.
  rewrite (scalar_loop SIValue_MakeVolatile).
  - rewrite bind_Done, Nat2Z.id. do 2 f_equal.
    by rewrite take_app_length', drop_app_length'.
  - rewrite length_app, length_drop. lia.
  - intros i c e Hi He. rewrite (Record_GetType_lookup c i e) by (lia || done).
    rewrite bind_Done. apply scalar_step; [lia | done].
Qed.

(** X4.  [Record_Clone] copies the entries of [r] over the first entries of
    [clone], the scalars among them made volatile, each entry keeping its
    tag; the entries of [clone] past those of [r] and its mapping are kept.
    A [clone] with fewer entries than [r] is written past its end. *)
Theorem Record_Clone_copies (r clone : _Record) :
  Record_ok r ->
  if decide (length (entries r) <= length (entries clone))%nat then
    Record_Clone r clone
    = Done (with_entries clone
              ((map_scalar SIValue_MakeVolatile <$> entries r) ++
               drop (length (entries r)) (entries clone)))
  else Record_Clone r clone = OutOfBounds.
Proof.
  intros Hok. destruct (decide _) as [Hle|Hgt].
  - by apply Record_Clone_spec.
  - destruct (Record_length_ok r Hok) as [Hlen Hmax].
    unfold Record_Clone. cbv zeta. rewrite Hlen, to_int_small by lia.
    unfold memcpy. destruct (decide _) as [Hyes|_]; [lia | done].
Qed.


Lemma merged_lookup (a b : list Entry) (k : nat) :
  (length b <= length a)%nat ->
  merged a b !! k
  = match b !! k with
    | Some eb => (fun ea => override ea eb) <$> a !! k
    | None => a !! k
    end.
Proof.
  intros Hle. unfold merged.
  destruct (b !! k) as [eb|] eqn:Hb.
  - pose proof (lookup_lt_Some _ _ _ Hb) as Hk.
    rewrite lookup_app_l by (rewrite length_zip_with; lia).
    rewrite lookup_zip_with, Hb.
    destruct (a !! k); done.
  - pose proof (lookup_ge_None_1 _ _ Hb) as Hk.
    rewrite lookup_app_r by (rewrite length_zip_with; lia).
    rewrite length_zip_with, lookup_drop. f_equal. lia.
Qed.

Lemma merged_length (a b : list Entry) :
  (length b <= length a)%nat -> length (merged a b) = length a.
Proof.
  intros Hle. unfold merged.
  rewrite length_app, length_zip_with, length_drop. lia.
Qed.

(** One iteration of the loop of [Record_Merge]. *)
Lemma merge_step (c : list Entry) (i : Z) (ea eb : Entry) :
  0 <= i -> c !! Z.to_nat i = Some ea ->
  match entry_type eb with
  | Rec.REC_TYPE_UNKNOWN => Done c
  | _ => array_set c i eb
  end = Done (<[Z.to_nat i := override ea eb]> c).
Proof.
  intros H0 Hc. pose proof (lookup_lt_Some _ _ _ Hc) as Hlt. unfold override.
  destruct (entry_type eb); rewrite ?list_insert_id by done; try done;
    apply array_set_Done; lia.
Qed.

(** [Record_Merge] into a record that is long enough. *)
Lemma Record_Merge_spec (a b : _Record) :
  Record_ok b ->
  (length (entries b) <= length (entries a))%nat ->
  Record_Merge a b = Done (with_entries a (merged (entries a) (entries b))).
Proof.
  intros Hok Hle. destruct (Record_length_ok b Hok) as [Hlen Hmax].
  unfold Record_Merge. cbv zeta. rewrite Hlen.
  destruct (for_loop_update
              (fun i ea => match entries b !! Z.to_nat i with
                           | Some eb => override ea eb
                           | None => ea
                           end)
              (fun i ea =>
                 e ← (entries b).[i];
                 match entry_type e with
                 | Rec.REC_TYPE_UNKNOWN => Done ea
                 | _ => array_set ea i e
                 end)
              (Z.of_nat (length (entries b))) (entries a))
    as (l' & Hrun & Hl & Hl').
  - lia.
  - intros i c ea Hi Hc.
    destruct (lookup_lt_is_Some_2 (entries b) (Z.to_nat i)) as [eb Hb]; [lia|].
    rewrite (array_get_lookup _ i eb) by (lia || done). rewrite bind_Done, Hb.
    apply merge_step; [lia | done].
  - rewrite Hrun, bind_Done. do 2 f_equal. apply list_eq. intros k.
    rewrite Hl', merged_lookup by done. rewrite Nat2Z.id.
    destruct (decide (Z.of_nat k < Z.of_nat (length (entries b)))) as [Hk|Hk].
    + destruct (lookup_lt_is_Some_2 (entries b) k) as [eb Hb]; [lia|].
      by rewrite Hb.
    + by rewrite (lookup_ge_None_2 (entries b)) by lia.
Qed.

Lemma for_loop_split {S : Type} (lo mid hi : Z) (body : Z -> S -> outcome S)
    (s : S) :
  lo <= mid <= hi ->
  for_loop lo hi body s = for_loop lo mid body s ≫= for_loop mid hi body.
Proof.
  intros Hm. remember (Z.to_nat (mid - lo)) as n eqn:Hn.
  revert lo s Hm Hn. induction n as [|n IH]; intros lo s Hm Hn.
  - assert (lo = mid) as -> by lia. by rewrite (for_loop_empty mid mid).
  - rewrite (for_loop_step lo hi), (for_loop_step lo mid) by lia.
    destruct (body lo s) as [t| | |]; try done.
    rewrite !bind_Done. apply IH; lia.
Qed.

(** The loop of [Record_Merge] past the end of [a]: an entry of [b] that
    is set is written outside [a]. *)
Lemma merge_tail (a b : list Entry) (n : nat) (lo : Z) :
  Z.of_nat (length a) <= lo -> lo + Z.of_nat n = Z.of_nat (length b) ->
  for_loop lo (Z.of_nat (length b)) (fun i ea =>
    e ← b.[i];
    match entry_type e with
    | Rec.REC_TYPE_UNKNOWN => Done ea
    | _ => array_set ea i e
    end) a
  = if forallb unset (drop (Z.to_nat lo) b) then Done a else OutOfBounds.
Proof.
  revert lo. induction n as [|n IH]; intros lo Hlo Hn.
  - rewrite for_loop_empty by lia. by rewrite drop_ge by lia.
  - rewrite for_loop_step by lia.
    destruct (lookup_lt_is_Some_2 b (Z.to_nat lo)) as [e He]; [lia|].
    rewrite (array_get_lookup b lo e) by (lia || done). rewrite bind_Done.
    rewrite (drop_S b e (Z.to_nat lo)) by done. simpl forallb.
    replace (S (Z.to_nat lo)) with (Z.to_nat (lo + 1)) by lia.
    assert (Hset : forall e', array_set a lo e' = OutOfBounds).
    { intros e'. unfold array_set. destruct (decide _); [lia | done]. }
    unfold unset at 1.
    destruct (entry_type e); rewrite ?Hset; try done.
    rewrite bind_Done. simpl. apply IH; lia.
Qed.

Lemma zip_override_lookup (a b : list Entry) (k : nat) :
  zip_with override a b !! k
  = match a !! k, b !! k with
    | Some ea, Some eb => Some (override ea eb)
    | _, _ => None
    end.
Proof.
  rewrite lookup_zip_with. destruct (a !! k); [|done]. simpl.
  by destruct (b !! k).
Qed.

(** X5.  [Record_Merge] writes the entries of [b] that are set over those
    of [a], and keeps the entries of [a] where [b] has an entry of type
    [REC_TYPE_UNKNOWN], and past the entries of [b]; the mapping of [a] is
    kept.  When [a] has fewer entries than [b], the call writes outside
    [a] exactly when an entry of [b] past the end of [a] is set. *)
Theorem Record_Merge_overrides (a b : _Record) :
  Record_ok b ->
  Record_Merge a b
  = if forallb unset (drop (length (entries a)) (entries b))
    then Done (with_entries a (merged (entries a) (entries b)))
    else OutOfBounds.
Proof.
  intros Hok.
  destruct (decide (length (entries b) <= length (entries a))%nat) as [Hle|Hgt].
  - rewrite drop_ge by done. simpl. by apply Record_Merge_spec.
  - destruct (Record_length_ok b Hok) as [Hlen Hmax].
    unfold Record_Merge. cbv zeta. rewrite Hlen.
    rewrite (for_loop_split 0 (Z.of_nat (length (entries a)))) by lia.
    destruct (for_loop_update
                (fun i ea => match entries b !! Z.to_nat i with
                             | Some eb => override ea eb
                             | None => ea
                             end)
                (fun i ea =>
                   e ← (entries b).[i];
                   match entry_type e with
                   | Rec.REC_TYPE_UNKNOWN => Done ea
                   | _ => array_set ea i e
                   end)
                (Z.of_nat (length (entries a))) (entries a))
      as (l' & Hrun & Hl & Hl').
    + lia.
    + intros i c ea Hi Hc.
      destruct (lookup_lt_is_Some_2 (entries b) (Z.to_nat i)) as [eb Hb]; [lia|].
      rewrite (array_get_lookup _ i eb) by (lia || done). rewrite bind_Done, Hb.
      apply merge_step; [lia | done].
    + rewrite Hrun, bind_Done.
      rewrite (merge_tail l' (entries b)
                 (length (entries b) - length (entries a))) by lia.
      rewrite Nat2Z.id.
      destruct (forallb unset (drop (length (entries a)) (entries b))); [|done].
      rewrite bind_Done. do 2 f_equal. apply list_eq. intros k.
      rewrite Hl'. unfold merged. rewrite (drop_ge (entries a)) by lia.
      rewrite app_nil_r, zip_override_lookup, Nat2Z.id.
      destruct (decide (Z.of_nat k < Z.of_nat (length (entries a)))) as [Hk|Hk].
      * destruct (lookup_lt_is_Some_2 (entries a) k) as [ea Hea]; [lia|].
        destruct (lookup_lt_is_Some_2 (entries b) k) as [eb Heb]; [lia|].
        by rewrite Hea, Heb.
      * by rewrite (lookup_ge_None_2 (entries a)) by lia.
Qed.

Lemma override_assoc (x y z : Entry) :
  override (override x y) z = override x (override y z).
Proof. unfold override. destruct (entry_type z) eqn:Hz; by rewrite ?Hz. Qed.

Lemma override_idem (x y : Entry) : override (override x y) y = override x y.
Proof. unfold override. by destruct (entry_type y) eqn:Hy; rewrite ?Hy. Qed.

Lemma merged_same_length (a b : list Entry) :
  length a = length b -> merged a b = zip_with override a b.
Proof.
  intros Hl. unfold merged. rewrite drop_ge by lia. by rewrite app_nil_r.
Qed.

(** X6.  Merging composes: for records of one length, merging [b] and then
    [c] into [a] is merging into [a] the merge of [c] into [b]; merging [b]
    a second time changes nothing; and an entry of the result is set exactly
    when it is set in [a] or in [b]. *)
Theorem Record_Merge_composes (a b c : _Record) :
  Record_ok a -> Record_ok b -> Record_ok c ->
  length (entries a) = length (entries b) ->
  length (entries b) = length (entries c) ->
  exists ab bc abc,
    Record_Merge a b = Done ab /\
    Record_Merge b c = Done bc /\
    Record_Merge ab c = Done abc /\
    Record_Merge a bc = Done abc /\
    Record_Merge ab b = Done ab /\
    forall k ea eb, entries a !! k = Some ea -> entries b !! k = Some eb ->
      exists e, entries ab !! k = Some e /\
        (entry_type e = Rec.REC_TYPE_UNKNOWN <->
         entry_type ea = Rec.REC_TYPE_UNKNOWN /\
         entry_type eb = Rec.REC_TYPE_UNKNOWN).
Proof.
  intros Ha Hb Hc Hab Hbc.
  exists (with_entries a (merged (entries a) (entries b))),
    (with_entries b (merged (entries b) (entries c))),
    (with_entries a (merged (merged (entries a) (entries b)) (entries c))).
  assert (Hlab : length (merged (entries a) (entries b)) = length (entries a))
    by (apply merged_length; lia).
  assert (Hlbc : length (merged (entries b) (entries c)) = length (entries b))
    by (apply merged_length; lia).
  split; [apply Record_Merge_spec; [done | lia]|].
  split; [apply Record_Merge_spec; [done | lia]|].
  split; [|split; [|split]].
  - rewrite Record_Merge_spec; [done | done | simpl; lia].
  - rewrite Record_Merge_spec.
    + simpl. do 2 f_equal.
      rewrite !merged_same_length by (rewrite ?merged_same_length, ?length_zip_with; lia).
      apply list_eq. intros k. rewrite !lookup_zip_with.
      destruct (entries a !! k), (entries b !! k), (entries c !! k); simpl; try done.
      by rewrite override_assoc.
    + destruct Hb as [Hb1 Hb2]. split; simpl; [rewrite Hlbc|]; done.
    + simpl. lia.
  - rewrite Record_Merge_spec; [|done | simpl; lia].
    simpl. do 2 f_equal.
    rewrite !merged_same_length by (rewrite ?merged_same_length, ?length_zip_with; lia).
    apply list_eq. intros k. rewrite !lookup_zip_with.
    destruct (entries a !! k), (entries b !! k); simpl; try done.
    by rewrite override_idem.
  - intros k ea eb Hea Heb. exists (override ea eb). split.
    + simpl. rewrite merged_lookup by lia. by rewrite Heb, Hea.
    + unfold override. destruct (entry_type eb) eqn:Ht; rewrite ?Ht;
        intuition congruence.
Qed.


(** One iteration of the loop of [Record_TransferEntries]. *)
Lemma transfer_step (t f : list Entry) (i : Z) (ta e : Entry) :
  0 <= i -> t !! Z.to_nat i = Some ta -> f !! Z.to_nat i = Some e ->
  match entry_type e with
  | Rec.REC_TYPE_UNKNOWN => Done (t, f)
  | _ => _RecordPropagateEntry t f i
  end
  = Done (<[Z.to_nat i := override ta e]> t,
          <[Z.to_nat i := map_scalar SIValue_MakeVolatile e]> f).
Proof.
  intros H0 Ht Hf. pose proof (lookup_lt_Some _ _ _ Ht) as Hlt.
  unfold _RecordPropagateEntry, override, map_scalar.
  rewrite (array_get_lookup f i e) by done. rewrite bind_Done.
  rewrite (array_set_Done t i e) by lia. rewrite bind_Done.
  destruct (entry_type e) eqn:He;
    rewrite ?(list_insert_id t), ?(list_insert_id f) by done; try done.
  rewrite (update_s_spec _ f i e) by done. by rewrite He.
Qed.

(** [Record_TransferEntries] into a record that is long enough. *)
Lemma Record_TransferEntries_spec (to from : _Record) :
  Record_ok from ->
  (length (entries from) <= length (entries to))%nat ->
  Record_TransferEntries to from
  = Done (with_entries to (merged (entries to) (entries from)),
          with_entries from (map_scalar SIValue_MakeVolatile <$> entries from)).
Proof.
  intros Hok Hle.
  destruct (Record_length_ok from Hok) as [Hlen Hmax].
  unfold Record_TransferEntries. cbv zeta. rewrite Hlen.
  destruct (for_loop_rule (fun i (tf : list Entry * list Entry) =>
      length tf.1 = length (entries to) /\
      length tf.2 = length (entries from) /\
      forall k : nat,
        tf.1 !! k = (if decide (Z.of_nat k < i)
                     then merged (entries to) (entries from) !! k
                     else entries to !! k) /\
        tf.2 !! k = (if decide (Z.of_nat k < i)
                     then map_scalar SIValue_MakeVolatile <$> entries from !! k
                     else entries from !! k))
      0 (Z.of_nat (length (entries from)))
      (fun i (tf : list Entry * list Entry) =>
         e ← (tf.2).[i];
         match entry_type e with
         | Rec.REC_TYPE_UNKNOWN => Done tf
         | _ => _RecordPropagateEntry tf.1 tf.2 i
         end)
      (entries to, entries from)) as ([t f] & Hrun & Hlt & Hlf & Hk).
  - lia.
  - simpl. repeat split; destruct (decide _); done || lia.
  - intros i [t f] Hi (Hlt & Hlf & Hk). simpl in *.
    destruct (lookup_lt_is_Some_2 (entries from) (Z.to_nat i)) as [e He]; [lia|].
    destruct (lookup_lt_is_Some_2 (entries to) (Z.to_nat i)) as [ta Hta]; [lia|].
    assert (Hf : f !! Z.to_nat i = Some e).
    { rewrite (proj2 (Hk _)). destruct (decide _); [lia | done]. }
    assert (Ht : t !! Z.to_nat i = Some ta).
    { rewrite (proj1 (Hk _)). destruct (decide _); [lia | done]. }
    rewrite (array_get_lookup f i e) by (lia || done). rewrite bind_Done.
    rewrite (transfer_step t f i ta e) by (lia || done).
    eexists. split; [done|]. simpl. rewrite !length_insert.
    split; [done|]. split; [done|]. intros k.
    destruct (decide (k = Z.to_nat i)) as [->|Hne].
    + rewrite !list_lookup_insert_eq by lia.
      destruct (decide _); [|lia]. rewrite merged_lookup by done.
      by rewrite He, Hta.
    + rewrite !list_lookup_insert_ne by done.
      destruct (Hk k) as [-> ->].
      destruct (decide (Z.of_nat k < i)), (decide (Z.of_nat k < i + 1));
        done || lia.
  - simpl in *. rewrite Hrun, bind_Done. simpl. do 3 f_equal.
    + apply list_eq. intros k. rewrite (proj1 (Hk k)).
      destruct (decide _) as [|Hge]; [done|].
      rewrite merged_lookup by done.
      by rewrite (lookup_ge_None_2 (entries from)) by lia.
    + apply list_eq. intros k. rewrite (proj2 (Hk k)), list_lookup_fmap.
      destruct (decide _) as [|Hge]; [done|].
      by rewrite (lookup_ge_None_2 (entries from)) by lia.
Qed.

(** X7.  [Record_TransferEntries] leaves in the destination what
    [Record_Merge] leaves there, the entries as the source held them before
    the call, and in the source the same entries with every scalar made
    volatile: tags, nodes and edges of the source are kept. *)
Theorem Record_TransferEntries_moves (to from : _Record) :
  Record_ok from ->
  (length (entries from) <= length (entries to))%nat ->
  exists to',
    Record_Merge to from = Done to' /\
    Record_TransferEntries to from
    = Done (to', with_entries from
                   (map_scalar SIValue_MakeVolatile <$> entries from)) /\
    forall k e, entries from !! k = Some e ->
      entry_type e <> Rec.REC_TYPE_UNKNOWN -> entries to' !! k = Some e.
Proof.
  intros Hok Hle. eexists. split; [by apply Record_Merge_spec|].
  split; [by apply Record_TransferEntries_spec|].
  intros k e He Hset. simpl. rewrite merged_lookup by done. rewrite He.
  destruct (lookup_lt_is_Some_2 (entries to) k) as [ta Hta].
  { apply lookup_lt_Some in He. lia. }
  rewrite Hta. simpl. unfold override. by destruct (entry_type e).
Qed.

Lemma scalars_app (l1 l2 : list Entry) :
  scalars (l1 ++ l2) = scalars l1 ++ scalars l2.
Proof. unfold scalars. by rewrite filter_app, fmap_app. Qed.

Lemma scalars_cons (e : Entry) (l : list Entry) :
  scalars (e :: l)
  = if is_scalar e then member_s (entry_value e) :: scalars l else scalars l.
Proof.
  unfold scalars. rewrite filter_cons.
  destruct (decide _) as [->|Hn]; [done|]. by destruct (is_scalar e).
Qed.

(** [Record_FreeEntries] hands to [SIValue_Free] the scalars of the
    record, each once, in the order of the entries. *)
Lemma Record_FreeEntries_scalars (r : _Record) :
  Record_ok r -> Record_FreeEntries r = Done (scalars (entries r)).
Proof.
  intros Hok. destruct (Record_length_ok r Hok) as [Hlen Hmax].
  unfold Record_FreeEntries. cbv zeta. rewrite Hlen.
  destruct (for_loop_rule (fun i (freed : list SIValue) =>
      freed = scalars (take (Z.to_nat i) (entries r)))
      0 (Z.of_nat (length (entries r)))
      (fun i (freed : list SIValue) =>
         e ← (entries r).[i];
         match entry_type e with
         | Rec.REC_TYPE_SCALAR => Done (freed ++ [member_s (entry_value e)])
         | _ => Done freed
         end) []) as (fr & Hrun & Hfr).
  - lia.
  - done.
  - intros i freed Hi ->.
    destruct (lookup_lt_is_Some_2 (entries r) (Z.to_nat i)) as [e He]; [lia|].
    rewrite (array_get_lookup _ i e) by (lia || done). rewrite bind_Done.
    replace (Z.to_nat (i + 1)) with (S (Z.to_nat i)) by lia.
    rewrite (take_S_r _ _ e) by done. rewrite scalars_app, scalars_cons.
    unfold is_scalar.
    destruct (entry_type e); eexists; (split; [done|]);
      by rewrite ?app_nil_r.
  - rewrite Hrun, Hfr, Nat2Z.id, firstn_all. done.
Qed.

(** [Record_PersistScalars] persists every scalar and keeps the tags, the
    nodes and the edges. *)
Lemma Record_PersistScalars_spec (r : _Record) :
  Record_ok r ->
  Record_PersistScalars r
  = Done (with_entries r (map_scalar SIValue_Persist <$> entries r)).
Proof.
  intros Hok. destruct (Record_length_ok r Hok) as [Hlen Hmax].
  unfold Record_PersistScalars. cbv zeta. rewrite Hlen.
  rewrite (scalar_loop SIValue_Persist).
  - by rewrite bind_Done, Nat2Z.id, firstn_all, drop_all, app_nil_r.
  - lia.
  - intros i c e Hi He. rewrite (array_get_lookup c i e) by (lia || done).
    rewrite bind_Done. apply scalar_step; [lia | done].
Qed.

Section Ownership.

Context {UL : UnionLaws RT}.

Lemma scalars_map_scalar (f : SIValue -> SIValue) (l : list Entry) :
  scalars (map_scalar f <$> l) = f <$> scalars l.
Proof.
  induction l as [|e l IH]; [done|].
  rewrite fmap_cons, !scalars_cons, IH.
  unfold is_scalar, map_scalar.
  destruct (entry_type e) eqn:He; simpl; rewrite ?He; try done.
  by rewrite member_assign_s.
Qed.

Lemma scalars_merged (a b : list Entry) :
  (length b <= length a)%nat -> sublist (scalars b) (scalars (merged a b)).
Proof.
  intros Hle. unfold merged. rewrite scalars_app.
  apply sublist_inserts_r.
  revert a Hle. induction b as [|eb b IH]; intros a Hle.
  - apply sublist_nil_l.
  - destruct a as [|ea a]; [simpl in Hle; lia|]. simpl in Hle.
    change (zip_with override (ea :: a) (eb :: b))
      with (override ea eb :: zip_with override a b).
    rewrite !scalars_cons. specialize (IH a ltac:(lia)).
    unfold is_scalar, override.
    destruct (entry_type eb) eqn:Hb; rewrite ?Hb.
    + destruct (entry_type ea); [done| |done|done]. by apply sublist_cons.
    + by apply sublist_skip.
    + done.
    + done.
Qed.

(** X8.  Who frees what.  [Record_FreeEntries] frees the scalars of a
    record.  Those of a clone are the scalars of the original made volatile,
    so are those of the source of a transfer after it, whereas its
    destination then holds the scalars of the source as they were; and after
    [Record_PersistScalars] the scalars are the persisted ones. *)
Theorem Record_FreeEntries_after (r other : _Record) :
  Record_ok r -> Record_ok other ->
  length (entries other) = length (entries r) ->
  Record_FreeEntries r = Done (scalars (entries r)) /\
  (exists cl : _Record, Record_Clone r other = Done cl /\
     Record_FreeEntries cl
     = Done (SIValue_MakeVolatile <$> scalars (entries r))) /\
  (exists t f, Record_TransferEntries other r = Done (t, f) /\
     Record_FreeEntries f
     = Done (SIValue_MakeVolatile <$> scalars (entries r)) /\
     exists freed, Record_FreeEntries t = Done freed /\
       sublist (scalars (entries r)) freed) /\
  (exists p,
     Record_PersistScalars r = Done p /\
     entries p = (map_scalar SIValue_Persist <$> entries r) /\
     Record_FreeEntries p = Done (SIValue_Persist <$> scalars (entries r))).
Proof.
  intros Hr Ho Hlen.
  split; [by apply Record_FreeEntries_scalars|]. split; [|split].
  - eexists. split; [apply (Record_Clone_spec r other Hr); lia|].
    rewrite Record_FreeEntries_scalars.
    + simpl. rewrite <- Hlen, drop_all, app_nil_r.
      by rewrite scalars_map_scalar.
    + destruct Ho as [Ho1 Ho2]. split; simpl; [|done].
      rewrite length_app, length_fmap, length_drop. lia.
  - do 2 eexists.
    split; [apply (Record_TransferEntries_spec other r Hr); lia|]. split.
    + rewrite Record_FreeEntries_scalars.
      * simpl. by rewrite scalars_map_scalar.
      * destruct Hr as [Hr1 Hr2]. split; simpl; [|done].
        by rewrite length_fmap.
    + eexists. split.
      * apply Record_FreeEntries_scalars.
        destruct Ho as [Ho1 Ho2]. split; simpl; [|done].
        rewrite merged_length by lia. done.
      * simpl. apply scalars_merged. lia.
  - eexists. split; [by apply Record_PersistScalars_spec|]. split; [done|].
    rewrite Record_FreeEntries_scalars.
    + simpl. by rewrite scalars_map_scalar.
    + destruct Hr as [Hr1 Hr2]. split; simpl; [|done].
      by rewrite length_fmap.
Qed.

End Ownership.

End RecordOpsFacts.

Section MakingFacts.

Context {RT : RecordTypes} {LT : Layout RT}.

(** X9.  [Record_New] computes the size of the block in a [uint].  While the
    size fits, the record has one entry for every alias of the mapping, all
    of them zero, which is the layout the other operations rely on; once it
    does not fit, the block holds fewer entries than the mapping has
    aliases, or not even the struct. *)
Theorem Record_New_layout (m : rax) :
  0 < sizeof_Entry -> 0 <= sizeof_Record ->
  0 <= raxSize m < 2 ^ 31 ->
  if decide (sizeof_Record + sizeof_Entry * raxSize m < 2 ^ 32) then
    Record_New m
    = Done (mk_Record m (replicate (Z.to_nat (raxSize m)) zero_entry)) /\
    Record_ok (mk_Record m (replicate (Z.to_nat (raxSize m)) zero_entry))
  else
    forall r, Record_New m = Done r ->
      mapping r = m /\ Z.of_nat (length (entries r)) < raxSize m.
Proof.
  intros HsE HsR Hm. unfold Record_New. cbv zeta.
  rewrite (to_uint_small (raxSize m)) by lia.
  destruct (decide _) as [Hfit|Hwrap].
  - rewrite to_uint_small by nia.
    replace (sizeof_Record + sizeof_Entry * raxSize m <? sizeof_Record)
      with false by (symmetry; apply Z.ltb_ge; nia).
    replace (sizeof_Record + sizeof_Entry * raxSize m - sizeof_Record)
      with (raxSize m * sizeof_Entry) by lia.
    rewrite Z.div_mul by lia. split; [done|].
    split; simpl; [|lia]. rewrite length_replicate. lia.
  - intros r.
    set (total := sizeof_Record + sizeof_Entry * raxSize m) in *.
    assert (Hr : 0 <= to_uint total <= total - 2 ^ 32).
    { unfold to_uint.
      pose proof (Z.mod_pos_bound total (2 ^ 32) ltac:(lia)) as Hb.
      pose proof (Z.div_mod total (2 ^ 32) ltac:(lia)) as Hd.
      assert (1 <= total / 2 ^ 32) by (apply Z.div_le_lower_bound; lia).
      nia. }
    destruct (to_uint total <? sizeof_Record) eqn:Hlt; [done|].
    apply Z.ltb_ge in Hlt. intros [= <-]. simpl. split; [done|].
    rewrite length_replicate.
    rewrite Z2Nat.id
      by (apply Z.div_pos; [apply Z.le_0_sub; exact Hlt | exact HsE]).
    apply Z.div_lt_upper_bound; [exact HsE|].
    destruct Hr as [_ Hr]. subst total. lia.
Qed.

End MakingFacts.

Section PrintingFacts.

Context {RT : RecordTypes} {ST : Strings RT}.

Abbreviation Entry := (Rec.Entry EntryValue).

Lemma with_entries_same (r : _Record) : with_entries r (entries r) = r.
Proof. by destruct r. Qed.

(** One iteration of the loop of [Record_ToString]. *)
Lemma shown_step (r : list Entry) (vs : list SIValue) (i : Z) (e : Entry) :
  0 <= i -> r !! Z.to_nat i = Some e ->
  (t ← Rec.Record_GetType _ r i;
   match t with
   | Rec.REC_TYPE_UNKNOWN => Done (r, vs ++ [SI_ConstStringVal chars_UNKNOWN])
   | _ => '(r', v) ← Record_Get r i; Done (r', vs ++ [v])
   end) = Done (r, vs ++ [shown i e]).
Proof.
  intros H0 He. rewrite (Record_GetType_lookup r i e) by done.
  rewrite bind_Done. unfold shown.
  destruct (entry_type e) eqn:Ht; [done| | |];
    by rewrite (Record_Get_set r i e) by (done || by rewrite Ht).
Qed.

(** X10.  [Record_ToString] never fails on a record laid out as [Record_New]
    does, whatever its entries hold, and leaves the record as it is: an
    entry of type [REC_TYPE_UNKNOWN] is printed as the string UNKNOWN and
    does not reach the assertion of [Record_Get].  The values are joined
    into the buffer given, or into one of the required length when the
    capacity given is smaller: the capacity handed on is never below the one
    given. *)
Theorem Record_ToString_prints (r : _Record) (buf : buffer) (buf_cap : Z) :
  Record_ok r ->
  let values := imap (fun i e => shown (Z.of_nat i) e) (entries r) in
  let required_len := SIValue_StringJoinLen values chars_comma in
  let joined :=
    SIValue_StringJoin values chars_comma
      (if buf_cap <? required_len then rm_realloc buf required_len else buf)
      (Z.max buf_cap required_len) in
  Record_ToString r buf buf_cap = Done (r, joined.1.1, joined.1.2, joined.2).
Proof.
  intros Hok values required_len joined.
  destruct (Record_length_ok r Hok) as [Hlen Hmax].
  unfold Record_ToString. cbv zeta. rewrite Hlen.
  destruct (for_loop_rule (fun i (rv : list Entry * list SIValue) =>
      rv.1 = entries r /\
      rv.2 = imap (fun i e => shown (Z.of_nat i) e)
               (take (Z.to_nat i) (entries r)))
      0 (Z.of_nat (length (entries r)))
      (fun i (rv : list Entry * list SIValue) =>
         t ← Rec.Record_GetType _ rv.1 i;
         match t with
         | Rec.REC_TYPE_UNKNOWN =>
             Done (rv.1, rv.2 ++ [SI_ConstStringVal chars_UNKNOWN])
         | _ => '(r', v) ← Record_Get rv.1 i; Done (r', rv.2 ++ [v])
         end)
      (entries r, [])) as ([r' vs] & Hrun & Hr' & Hvs).
  - lia.
  - done.
  - intros i [r' vs] Hi [Hr' Hvs]. simpl in *. subst r'.
    destruct (lookup_lt_is_Some_2 (entries r) (Z.to_nat i)) as [e He]; [lia|].
    rewrite (shown_step (entries r) vs i e) by (lia || done).
    eexists. split; [done|]. simpl. split; [done|].
    replace (Z.to_nat (i + 1)) with (S (Z.to_nat i)) by lia.
    rewrite (take_S_r _ _ e) by done. rewrite imap_app. simpl.
    rewrite length_take_le by lia. rewrite Nat.add_0_r, Z2Nat.id by lia.
    by rewrite Hvs.
  - simpl in *. rewrite Hrun, bind_Done. simpl.
    rewrite Hr', Hvs, Nat2Z.id, firstn_all, with_entries_same.
    fold values. fold required_len.
    assert (Hbc : (if buf_cap <? required_len
                   then (rm_realloc buf required_len, required_len)
                   else (buf, buf_cap))
                  = (if buf_cap <? required_len
                     then rm_realloc buf required_len else buf,
                     Z.max buf_cap required_len)).
    { destruct (buf_cap <? required_len) eqn:Hc.
      - apply Z.ltb_lt in Hc. by rewrite Z.max_r by lia.
      - apply Z.ltb_ge in Hc. by rewrite Z.max_l by lia. }
    rewrite Hbc. simpl. fold joined. by destruct joined as [[b2 c2] n].
Qed.

End PrintingFacts.

Lemma mapM_same {X Y : Type} (f : X -> option Y) (l1 l2 : list X) :
  f <$> l1 = f <$> l2 -> mapM f l1 = mapM f l2.
Proof.
  revert l2. induction l1 as [|x l1 IH]; intros [|y l2] Heq; try done.
  rewrite !fmap_cons in Heq. injection Heq as Hxy Hl.
  simpl. by rewrite Hxy, (IH l2 Hl).
Qed.

Section HashingFacts.

Context {RT : RecordTypes} {H : Hashing RT} {HO : HashingOk H}.

Abbreviation Entry := (Rec.Entry EntryValue).

(** One iteration of the loop of [Record_Hash64]. *)
Lemma hash_entry_spec (r : list Entry) (st : XXH64_state_t) (i : Z) (e : Entry) :
  0 <= i -> r !! Z.to_nat i = Some e ->
  hash_entry i (r, st)
  = match hash_data e with
    | Some d => Done (r, (XXH64_update st d).2)
    | None => AssertFail
    end.
Proof.
  intros H0 He. unfold hash_entry, hash_data. simpl.
  rewrite (array_get_lookup r i e) by done. rewrite bind_Done.
  destruct (entry_type e) eqn:Ht.
  - rewrite bind_Done. simpl. by rewrite XXH64_update_ok.
  - rewrite (Record_GetScalar_same r i e) by done. rewrite bind_Done.
    destruct (SI_TYPE (member_s (entry_value e)));
      rewrite ?bind_Done; simpl; rewrite ?XXH64_update_ok; done.
  - unfold Record_GetGraphEntity.
    rewrite (array_get_lookup r i e), bind_Done, Ht by done.
    rewrite (Record_GetNode_same r i e) by done.
    rewrite !bind_Done. simpl.
    rewrite (array_get_lookup r i e) by done. rewrite !bind_Done. simpl.
    by rewrite XXH64_update_ok.
  - unfold Record_GetGraphEntity.
    rewrite (array_get_lookup r i e), bind_Done, Ht by done.
    rewrite (Record_GetEdge_same r i e) by done.
    rewrite !bind_Done. simpl.
    rewrite (array_get_lookup r i e) by done. rewrite !bind_Done. simpl.
    by rewrite XXH64_update_ok.
Qed.

Lemma hash_loop (r : list Entry) (n : nat) (lo : Z) (st : XXH64_state_t) :
  0 <= lo -> lo + Z.of_nat n = Z.of_nat (length r) ->
  for_loop lo (Z.of_nat (length r)) hash_entry (r, st)
  = match mapM hash_data (drop (Z.to_nat lo) r) with
    | Some ds => Done (r, feed st ds)
    | None => AssertFail
    end.
Proof.
  revert lo st. induction n as [|n IH]; intros lo st Hlo Hn.
  - rewrite for_loop_empty by lia. by rewrite drop_ge by lia.
  - rewrite for_loop_step by lia.
    destruct (lookup_lt_is_Some_2 r (Z.to_nat lo)) as [e He]; [lia|].
    rewrite (hash_entry_spec r st lo e) by done.
    rewrite (drop_S r e (Z.to_nat lo)) by done.
    replace (S (Z.to_nat lo)) with (Z.to_nat (lo + 1)) by lia.
    simpl mapM. destruct (hash_data e) as [d|]; [|done].
    rewrite bind_Done, IH by lia. simpl.
    by destruct (mapM hash_data (drop (Z.to_nat (lo + 1)) r)).
Qed.

(** X11.  [Record_Hash64] leaves the record as it is, and hashes, in the
    order of the entries, the bytes that stand for each entry: the id of the
    entity for a node and for an edge alike, the characters of
    REC_TYPE_UNKNOWN for an entry that is not set, and for a scalar the
    bytes that its type selects; the call fails the assertion when a scalar
    has a type that is not handled.  Hence two records whose entries stand
    for the same bytes have the same hash. *)
Theorem Record_Hash64_hashes (r r2 : _Record) :
  Record_ok r -> Record_ok r2 ->
  Record_Hash64 r
  = match mapM hash_data (entries r) with
    | Some ds => Done (r, XXH64_digest (feed (XXH64_reset 0).2 ds))
    | None => AssertFail
    end /\
  (hash_data <$> entries r = hash_data <$> entries r2 ->
   forall r' h, Record_Hash64 r = Done (r', h) ->
     Record_Hash64 r2 = Done (r2, h)).
Proof.
  assert (Hspec : forall r0 : _Record, Record_ok r0 ->
            Record_Hash64 r0
            = match mapM hash_data (entries r0) with
              | Some ds => Done (r0, XXH64_digest (feed (XXH64_reset 0).2 ds))
              | None => AssertFail
              end).
  { intros r0 Hok. destruct (Record_length_ok r0 Hok) as [Hlen Hmax].
    unfold Record_Hash64. cbv zeta. rewrite Hlen, XXH64_reset_ok. simpl.
    rewrite (hash_loop (entries r0) (length (entries r0)) 0) by lia.
    change (Z.to_nat 0) with 0%nat. rewrite drop_0.
    destruct (mapM hash_data (entries r0)); [|done].
    simpl. by rewrite with_entries_same. }
  intros Hok Hok2. split; [by apply Hspec|].
  intros Hsame r' h. rewrite (Hspec r Hok), (Hspec r2 Hok2).
  assert (Hm : mapM hash_data (entries r) = mapM hash_data (entries r2)).
  { by apply mapM_same. }
  rewrite <- Hm. destruct (mapM hash_data (entries r)); [|done].
  by intros [= -> ->].
Qed.

End HashingFacts.

(** * More on the kernel *)

Lemma for_loop_skip {S : Type} (lo hi : Z) (body : Z -> S -> outcome S) (s : S) :
  (forall p t, lo <= p < hi -> body p t = Done t) ->
  for_loop lo hi body s = Done s.
Proof.
  intros Hbody. destruct (Z.le_gt_cases hi lo) as [Hle|Hlt].
  - by apply for_loop_empty.
  - destruct (for_loop_rule (fun _ t => t = s) lo hi body s)
      as (s' & Hrun & ->); [lia | done | | done].
    intros p t Hp ->. exists s. split; [by apply Hbody | done].
Qed.

Section KernelFacts.

Context {SR : Semiring} {KC : Constants}.

Lemma wf_set_x {V : Type} (M : Matrix V) (x : list V) :
  wf_matrix M -> length x = length (mat_i M) -> wf_matrix (set_x x M).
Proof. intros [] Hx. by constructor. Qed.

Lemma set_x_set_x {V : Type} (M : Matrix V) (x y : list V) :
  set_x x (set_x y M) = set_x x M.
Proof. done. Qed.

Lemma kernel_pre_values (HYPER : bool) (info : GrB_Info) (s : state)
    (x w' : list ztype) (tr : list event) :
  kernel_pre HYPER info s ->
  length x = length (mat_x (stC s)) -> length w' = length (w s) ->
  kernel_pre HYPER info
    {| stA := stA s; stB := stB s; stC := set_x x (stC s); w := w';
       trace := tr |}.
Proof.
  intros [pA pB pC pal pvd pvl pin pnv pmg pmn pw pinfo pmode] Hx Hw.
  constructor; simpl; try done.
  - apply wf_set_x; [done|]. by rewrite Hx, (wf_x_length _ pC).
  - by rewrite Hw.
Qed.

(** X12.  The call overwrites the values of C, it does not add to them: what
    the value array of C and the workspace hold on entry has no part in the
    result, and a second call on the result of a first one leaves the same
    C. *)
Theorem values_are_overwritten (HYPER : bool) (info : GrB_Info) (s : state)
    (x w' : list ztype) (tr : list event) :
  kernel_pre HYPER info s ->
  columns_covered (stB s) (stC s) ->
  length x = length (mat_x (stC s)) -> length w' = length (w s) ->
  exists s1 s2 s3,
    GB_AxB_Gustavson_nomask HYPER info s = Done s1 /\
    GB_AxB_Gustavson_nomask HYPER info
      {| stA := stA s; stB := stB s; stC := set_x x (stC s); w := w';
         trace := tr |} = Done s2 /\
    GB_AxB_Gustavson_nomask HYPER info s1 = Done s3 /\
    stC s2 = stC s1 /\ stC s3 = stC s1.
Proof.
  intros Hpre Hcov Hx Hw.
  pose proof (kernel_pre_values HYPER info s x w' tr Hpre Hx Hw) as Hpre2.
  set (t := {| stA := stA s; stB := stB s; stC := set_x x (stC s); w := w';
               trace := tr |}) in *.
  destruct (kernel_spec HYPER info s Hpre Hcov) as (s1 & Hrun1 & Hd1).
  destruct (kernel_spec HYPER info t Hpre2 Hcov) as (s2 & Hrun2 & Hd2).
  assert (HC1 : stC s1 = set_x (mat_x (stC s1)) (stC s)).
  { by destruct Hd1 as ((_ & _ & HC1 & _) & _). }
  assert (Hev1 : evolves s s1) by (by destruct Hd1).
  assert (Hpre3 : kernel_pre HYPER info s1).
  { destruct Hev1 as (HA & HB & HC & Hlw & Hlx). destruct s1 as [A1 B1 C1 w1 t1].
    simpl in *. subst A1 B1. rewrite HC.
    by apply (kernel_pre_values HYPER info s). }
  assert (Hcov3 : columns_covered (stB s1) (stC s1)).
  { destruct Hev1 as (HA & HB & HC & _). by rewrite HB, HC. }
  destruct (kernel_spec HYPER info s1 Hpre3 Hcov3) as (s3 & Hrun3 & Hd3).
  exists s1, s2, s3. do 3 (split; [done|]).
  pose proof (pre_B _ _ _ Hpre) as HwfB. pose proof (pre_C _ _ _ Hpre) as HwfC.
  pose proof (wf_x_length _ HwfC) as HxC.
  split.
  - assert (HC2 : stC s2 = set_x (mat_x (stC s2)) (set_x x (stC s)))
      by (by destruct Hd2 as ((_ & _ & HC2 & _) & _)). 
    rewrite HC2, HC1, set_x_set_x. f_equal.
    apply (values_agree HYPER HYPER (stA s) (stB s) (stC s) t s s2 s1);
      try done. simpl. lia.
  - assert (HC3 : stC s3 = set_x (mat_x (stC s3)) (stC s1))
      by (by destruct Hd3 as ((_ & _ & HC3 & _) & _)).
    rewrite HC3. etransitivity; [|symmetry; exact HC1].
    rewrite HC1 at 1. rewrite set_x_set_x. f_equal.
    destruct Hev1 as (HA & HB & HC & Hlw & Hlx).
    rewrite HA, HB, HC in Hd3.
    apply (values_agree HYPER HYPER (stA s) (stB s) (stC s) s1 s s3 s1);
      try done. lia.
Qed.


(** X13.  On matrices in the standard form the template expanded with
    [HYPER] and the template expanded without it leave the same C. *)
Theorem HYPER_agrees_on_standard_matrices (info : GrB_Info) (s : state) :
  kernel_pre false info s ->
  columns_covered (stB s) (stC s) ->
  exists s1 s2,
    GB_AxB_Gustavson_nomask false info s = Done s1 /\
    GB_AxB_Gustavson_nomask true info s = Done s2 /\
    stC s1 = stC s2.
Proof.
  intros Hpre Hcov.
  assert (Hpre' : kernel_pre true info s).
  { destruct Hpre. by constructor. }
  destruct (kernel_spec false info s Hpre Hcov) as (s1 & Hrun1 & Hd1).
  destruct (kernel_spec true info s Hpre' Hcov) as (s2 & Hrun2 & Hd2).
  exists s1, s2. do 2 (split; [done|]).
  pose proof (pre_B _ _ _ Hpre) as HwfB. pose proof (pre_C _ _ _ Hpre) as HwfC.
  pose proof (wf_x_length _ HwfC) as HxC.
  assert (HC1 : stC s1 = set_x (mat_x (stC s1)) (stC s))
    by (by destruct Hd1 as ((_ & _ & HC1 & _) & _)).
  assert (HC2 : stC s2 = set_x (mat_x (stC s2)) (stC s))
    by (by destruct Hd2 as ((_ & _ & HC2 & _) & _)).
  rewrite HC1, HC2. f_equal.
  by apply (values_agree false true (stA s) (stB s) (stC s) s s s1 s2).
Qed.

(** X14.  The status [info] is tested once, by the check of line 153,
    when the work on the columns is done: a call with a status other than
    [GrB_SUCCESS] fails where the call with [GrB_SUCCESS] fails, be it a
    check of the lines 21 to 78 or an access out of bounds in the loops, and
    in the same way; where the call with [GrB_SUCCESS] returns, it fails
    the check of line 153. *)
Theorem status_is_checked_last (HYPER : bool) (code : Z) (s : state) :
  GB_AxB_Gustavson_nomask HYPER (GrB_FAILURE code) s
  = match GB_AxB_Gustavson_nomask HYPER GrB_SUCCESS s with
    | Done _ => AssertFail
    | AssertFail => AssertFail
    | OutOfBounds => OutOfBounds
    | Diverge => Diverge
    end.
Proof.
  unfold GB_AxB_Gustavson_nomask. cbv zeta.
  do 6 (match goal with
        | |- context [ASSERT ?c ≫= _] =>
            destruct (ASSERT c) as [[]| | |];
              cbn [mbind outcome_bind]; [|done..]
        end).
  match goal with
  | |- context [?m ≫= _] => destruct m; cbn [mbind outcome_bind]; done
  end.
Qed.

(** The body of the loop over the columns, without [HYPER]. *)
Lemma sparse_column_cases (A : Matrix atype) (B : Matrix btype)
    (C : Matrix ztype) (j : Z) (t : state) :
  wf_matrix A -> wf_matrix B -> wf_matrix C ->
  is_hyper A = false -> is_hyper B = false -> is_hyper C = false ->
  vdim C = vdim B -> vdim A = vlen B -> vlen C = vlen A ->
  Z.of_nat (length (w t)) = vlen C ->
  length (mat_x (stC t)) = length (mat_i C) ->
  0 <= j < vdim C ->
  let body :=
    pB_start ← (mat_p B).[j];
    pB_end ← (mat_p B).[j + 1];
    pC_start ← (mat_p C).[j];
    pC_end ← (mat_p C).[j + 1];
    column false A B (mat_i C) pB_start pB_end pC_start pC_end t in
  (exists t', body = Done t' /\ evolves t t' /\
     (col_nonempty C j -> col_nonempty B j)) \/
  (body = AssertFail /\ col_nonempty C j /\ ~ col_nonempty B j).
Proof.
  intros HwfA HwfB HwfC HA HB HC Hvdim Hinner Hvlen Hw Hx Hj body.
  pose proof (wf_h _ HwfB) as HnB. rewrite HB in HnB.
  pose proof (wf_h _ HwfC) as HnC. rewrite HC in HnC.
  destruct (slot_range_in B HwfB j ltac:(lia)) as (bs & be & HrB & HbB & _).
  destruct (slot_range_in C HwfC j ltac:(lia)) as (cs & ce & HrC & HbC & _).
  destruct (slot_range_Some B j bs be HrB) as [Hbs Hbe].
  destruct (slot_range_Some C j cs ce HrC) as [Hcs Hce].
  assert (HsB : slot_of B j = Some j).
  { unfold slot_of. rewrite HB. destruct (decide _); [done | lia]. }
  assert (HsC : slot_of C j = Some j).
  { unfold slot_of. rewrite HC. destruct (decide _); [done | lia]. }
  pose proof (range_of_slot B j j _ HsB HrB) as HB'.
  pose proof (range_of_slot C j j _ HsC HrC) as HC'.
  assert (Hbody : body = column false A B (mat_i C) bs be cs ce t).
  { unfold body.
    rewrite (array_get_lookup (mat_p B) j bs), bind_Done by (lia || done).
    rewrite (array_get_lookup (mat_p B) (j + 1) be), bind_Done by (lia || done).
    rewrite (array_get_lookup (mat_p C) j cs), bind_Done by (lia || done).
    by rewrite (array_get_lookup (mat_p C) (j + 1) ce), bind_Done
      by (lia || done). }
  rewrite Hbody. unfold col_nonempty. rewrite HB', HC'.
  destruct (decide (cs < ce)) as [HneC|HeC].
  - destruct (decide (bs < be)) as [HneB|HeB].
    + left.
      destruct (column_column_ok false A B C HwfA HwfB HwfC
                  ltac:(done) Hinner Hvlen) as [_ Hok].
      destruct (Hok j j bs be cs ce t) as (t' & evs & Hrun & Hev & _);
        try done; try lia.
      exists t'. split; [done|]. split; done.
    + right. split; [|done]. unfold column.
      replace (ce =? cs) with false by (symmetry; apply Z.eqb_neq; lia).
      replace (0 <? be - bs) with false by (symmetry; apply Z.ltb_ge; lia).
      done.
  - left. exists t. split; [apply column_skip; lia|].
    split; [apply evolves_refl | lia].
Qed.

(** Without [HYPER], the loop over the columns from [lo] on. *)
Lemma sparse_columns_cases (A : Matrix atype) (B : Matrix btype)
    (C : Matrix ztype) (n : nat) (lo : Z) (t : state) :
  wf_matrix A -> wf_matrix B -> wf_matrix C ->
  is_hyper A = false -> is_hyper B = false -> is_hyper C = false ->
  vdim C = vdim B -> vdim A = vlen B -> vlen C = vlen A ->
  Z.of_nat (length (w t)) = vlen C ->
  length (mat_x (stC t)) = length (mat_i C) ->
  0 <= lo -> lo + Z.of_nat n = vdim C ->
  let loop :=
    for_loop lo (vdim C) (fun j s' =>
      pB_start ← (mat_p B).[j];
      pB_end ← (mat_p B).[j + 1];
      pC_start ← (mat_p C).[j];
      pC_end ← (mat_p C).[j + 1];
      column false A B (mat_i C) pB_start pB_end pC_start pC_end s') t in
  (exists t', loop = Done t' /\
     forall j, lo <= j < vdim C -> col_nonempty C j -> col_nonempty B j) \/
  (loop = AssertFail /\
   exists j, lo <= j < vdim C /\ col_nonempty C j /\ ~ col_nonempty B j).
Proof.
  intros HwfA HwfB HwfC HA HB HC Hvdim Hinner Hvlen.
  revert lo t. induction n as [|n IH]; intros lo t Hw Hx Hlo Hn loop.
  - left. exists t. unfold loop. rewrite for_loop_empty by lia.
    split; [done|]. intros j Hj. lia.
  - unfold loop. rewrite for_loop_step by lia.
    destruct (sparse_column_cases A B C lo t) as
      [(t' & Hrun & Hev & Hcov)|(Hrun & HneC & HeB)];
      try done; try lia; cbv zeta in Hrun; rewrite Hrun.
    + rewrite bind_Done.
      destruct Hev as (_ & _ & HC' & Hlw & Hlx).
      destruct (IH (lo + 1) t' ltac:(by rewrite Hlw) ltac:(by rewrite Hlx)
                  ltac:(lia) ltac:(lia)) as
        [(t'' & Hrun' & Hcov')|(Hrun' & j & Hj & HneC & HeB)].
      * left. exists t''. split; [done|].
        intros j Hj. destruct (decide (j = lo)) as [->|Hne]; [done|].
        apply Hcov'. lia.
      * right. split; [done|]. exists j. split; [lia | done].
    + right. split; [done|]. exists lo. split; [lia | done].
Qed.

(** X15.  Without [HYPER], a call returns exactly when every column that has
    entries in C has entries in B: a column of C with entries whose column
    of B has none fails the check of line 78. *)
Theorem missing_column_of_B_aborts (info : GrB_Info) (s : state) :
  kernel_pre false info s ->
  (columns_covered (stB s) (stC s) ->
   exists s', GB_AxB_Gustavson_nomask false info s = Done s') /\
  (~ columns_covered (stB s) (stC s) ->
   GB_AxB_Gustavson_nomask false info s = AssertFail).
Proof.
  intros Hpre. split.
  - intros Hcov. destruct (kernel_spec false info s Hpre Hcov) as (s' & Hrun & _).
    by exists s'.
  - intros Hncov. template_checks Hpre.
    destruct (pre_mode0 eq_refl) as (HA & HB & HC).
    destruct (sparse_columns_cases (stA s) (stB s) (stC s)
                (Z.to_nat (vdim (stC s))) 0 s) as
      [(t' & Hrun & Hcov)|(Hrun & _)]; try done.
    + apply (wf_x_length _ pre_C0).
    + pose proof (wf_vdim _ pre_C0). lia.
    + exfalso. apply Hncov. intros j Hj. apply Hcov; [|done].
      unfold col_nonempty in Hj.
      destruct (range_of (stC s) j) as [[ps pe]|] eqn:Hr; [|done].
      destruct (range_of_inv _ _ _ _ Hr) as (sl & Hsl & _).
      apply (slot_of_column _ pre_C0 j sl Hsl).
    + cbv zeta in Hrun. rewrite <- pre_vdim0. by rewrite Hrun.
Qed.

Lemma empty_pattern_ranges (C : Matrix ztype) (j : Z) :
  wf_matrix C -> mat_i C = [] ->
  (default (-1, -1) (range_of C j)).2 = (default (-1, -1) (range_of C j)).1.
Proof.
  intros HwfC Hempty.
  destruct (range_of C j) as [[ps pe]|] eqn:Hr; [|done]. simpl.
  destruct (range_of_inv _ _ _ _ Hr) as (sl & Hsl & Hrg).
  pose proof (slot_of_bounds _ HwfC j sl Hsl) as Hb.
  destruct (slot_range_in _ HwfC sl Hb) as (ps' & pe' & Hrg' & Hps & Hpe).
  rewrite Hrg in Hrg'. injection Hrg' as <- <-.
  rewrite Hempty in Hpe. simpl in Hpe. lia.
Qed.

(** X16.  A pattern of C without entries: the call returns the state it was
    given; nothing is cleared, looked up or written. *)
Theorem empty_pattern_is_a_no_op (HYPER : bool) (info : GrB_Info) (s : state) :
  kernel_pre HYPER info s ->
  mat_i (stC s) = [] ->
  GB_AxB_Gustavson_nomask HYPER info s = Done s.
Proof.
  intros Hpre Hempty.
  assert (Hbody : forall kB t, 0 <= kB < nvec (stB s) ->
            (GBI2_initj (stB s) (stC s) kB ≫=
               fun '(j, pB_start, pB_end, pC_start, pC_end) =>
                 column HYPER (stA s) (stB s) (mat_i (stC s))
                   pB_start pB_end pC_start pC_end t) = Done t).
  { intros kB t HkB. destruct Hpre.
    destruct (GBI2_initj_spec (stB s) (stC s) kB) as (j & lo & hi & _ & _ & _ & ->);
      try done.
    rewrite bind_Done. apply column_skip. by apply empty_pattern_ranges. }
  destruct HYPER.
  - template_checks Hpre. unfold for_each_vector2.
    change (for_loop 0 (nvec (stB s)) (fun kB t =>
      GBI2_initj (stB s) (stC s) kB ≫=
        fun '(j, pB_start, pB_end, pC_start, pC_end) =>
          column true (stA s) (stB s) (mat_i (stC s))
            pB_start pB_end pC_start pC_end t) s
            ≫= (fun s2 => (if is_success info then Done tt else AssertFail)
                            ≫= fun _ => Done s2)
      = Done s).
    rewrite for_loop_skip by (intros; by apply Hbody).
    by rewrite pre_info0.
  - template_checks Hpre.
    destruct (pre_mode0 eq_refl) as (HA & HB & HC).
    pose proof (wf_h _ pre_B0) as HhB. rewrite HB in HhB. rewrite <- HhB.
    rewrite for_loop_skip; [by rewrite pre_info0|].
    intros p t Hp.
    rewrite (sparse_body_eq (stB s) (stC s) p
               (fun a b c d => column false (stA s) (stB s) (mat_i (stC s)) a b c d t))
      by done.
    by apply Hbody.
Qed.

End KernelFacts.

(** * The further properties on concrete inputs *)

Lemma example_union_laws : UnionLaws example_records.
Proof. split; by intros [[t z] o]. Qed.

Lemma example_hashing_ok : HashingOk example_hashing.
Proof. split; done. Qed.

Lemma record_a_ok : Record_ok record_a.
Proof. split; [reflexivity | reflexivity]. Qed.

Lemma record_b_ok : Record_ok record_b.
Proof. split; [reflexivity | reflexivity]. Qed.

Lemma Record_Add_Get_round_trip_witness :
  exists r1,
    @Record_AddScalar example_records (entries record_a) 1 (T_INT64, 9, true)
    = Done r1 /\
    @Record_Get example_records r1 1 = Done (r1, (T_INT64, 9, true)).
Proof.
  destruct (@Record_Add_Get_round_trip example_records example_union_laws
              (entries record_a) 1
              (example_entry T_NULL 0 false Rec.REC_TYPE_UNKNOWN)
              (T_INT64, 9, true) 4 4 ltac:(lia) eq_refl)
    as [(r1 & H1 & _ & _ & H2 & _) _].
  exists r1. split; assumption.
Defined.

Lemma Record_Add_checks_index_witness :
  @Record_Add example_records record_a (-1) (T_INT64, 9, true) = AssertFail.
Proof.
  pose proof (@Record_Add_checks_index example_records record_a (-1)
                (T_INT64, 9, true) record_a_ok ltac:(lia)) as H.
  destruct (decide _) as [Hin|_] in H; [lia | exact H].
Defined.

Lemma Record_Clone_copies_witness :
  @Record_Clone example_records record_a record_b
  = Done (@mk_Record example_records 3
            [example_entry T_INT64 5 false Rec.REC_TYPE_SCALAR;
             example_entry T_NULL 0 false Rec.REC_TYPE_UNKNOWN;
             example_entry T_NODE 7 false Rec.REC_TYPE_NODE]).
Proof.
  pose proof (@Record_Clone_copies example_records record_a record_b
                record_a_ok) as H.
  destruct (decide _) as [_|Hout] in H; [exact H | simpl in Hout; lia].
Defined.

Lemma Record_Merge_overrides_witness :
  @Record_Merge example_records record_a record_b
  = Done (@mk_Record example_records 3
            [example_entry T_INT64 5 true Rec.REC_TYPE_SCALAR;
             example_entry T_STRING 2 true Rec.REC_TYPE_SCALAR;
             example_entry T_EDGE 7 false Rec.REC_TYPE_EDGE]).
Proof.
  exact (@Record_Merge_overrides example_records record_a record_b
           record_b_ok).
Defined.

Lemma Record_Merge_composes_witness :
  exists ab,
    @Record_Merge example_records record_a record_b = Done ab /\
    @Record_Merge example_records ab record_b = Done ab.
Proof.
  destruct (@Record_Merge_composes example_records record_a record_b record_c
              record_a_ok record_b_ok ltac:(split; reflexivity)
              eq_refl eq_refl)
    as (ab & bc & abc & H1 & _ & _ & _ & H2 & _).
  exists ab. split; assumption.
Defined.

Lemma Record_TransferEntries_moves_witness :
  exists to',
    @Record_Merge example_records record_b record_a = Done to' /\
    @Record_TransferEntries example_records record_b record_a
    = Done (to',
            @mk_Record example_records 3
              [example_entry T_INT64 5 false Rec.REC_TYPE_SCALAR;
               example_entry T_NULL 0 false Rec.REC_TYPE_UNKNOWN;
               example_entry T_NODE 7 false Rec.REC_TYPE_NODE]).
Proof.
  destruct (@Record_TransferEntries_moves example_records record_b record_a
              record_a_ok ltac:(simpl; lia)) as (to' & H1 & H2 & _).
  exists to'. split; [exact H1 | exact H2].
Defined.

Lemma Record_FreeEntries_after_witness :
  @Record_FreeEntries example_records record_a = Done [(T_INT64, 5, true)] /\
  exists cl, @Record_Clone example_records record_a record_b = Done cl /\
    @Record_FreeEntries example_records cl = Done [(T_INT64, 5, false)].
Proof.
  destruct (@Record_FreeEntries_after example_records example_union_laws
              record_a record_b record_a_ok record_b_ok eq_refl)
    as (H1 & (cl & H2 & H3) & _).
  split; [exact H1|]. exists cl. split; assumption.
Defined.

Lemma Record_New_layout_witness :
  @Record_New example_records example_layout 2
  = Done (@mk_Record example_records 2
            [example_entry T_NULL 0 false Rec.REC_TYPE_UNKNOWN;
             example_entry T_NULL 0 false Rec.REC_TYPE_UNKNOWN]).
Proof.
  pose proof (@Record_New_layout example_records example_layout 2
                ltac:(simpl; lia) ltac:(simpl; lia) ltac:(simpl; lia)) as H.
  destruct (decide _) as [_|Hwrap] in H;
    [exact (proj1 H) | simpl in Hwrap; lia].
Defined.

Lemma Record_ToString_prints_witness :
  @Record_ToString example_records example_strings record_a [] 2
  = Done (record_a, [], 3, 3).
Proof.
  apply (@Record_ToString_prints example_records example_strings record_a
           [] 2 record_a_ok).
Defined.

Lemma Record_Hash64_hashes_witness :
  @Record_Hash64 example_records example_hashing record_a
  = Done (record_a, 28) /\
  @Record_Hash64 example_records example_hashing record_c
  = Done (record_c, 28).
Proof.
  destruct (@Record_Hash64_hashes example_records example_hashing
              example_hashing_ok record_a record_c record_a_ok
              ltac:(split; reflexivity)) as [H1 H2].
  split; [exact H1|]. apply (H2 eq_refl record_a 28). exact H1.
Defined.

Lemma values_are_overwritten_witness :
  exists s1 s2 s3,
    @GB_AxB_Gustavson_nomask plus_times magic_constants false GrB_SUCCESS scenario
    = Done s1 /\
    @GB_AxB_Gustavson_nomask plus_times magic_constants false GrB_SUCCESS
      (@mkState plus_times scenario_A scenario_B
         (set_x [0; 0; 0] scenario_C) [1; 1] []) = Done s2 /\
    @GB_AxB_Gustavson_nomask plus_times magic_constants false GrB_SUCCESS s1
    = Done s3 /\
    stC s2 = stC s1 /\ stC s3 = stC s1.
Proof.
  apply (@values_are_overwritten plus_times magic_constants false GrB_SUCCESS
           scenario [0; 0; 0] [1; 1] []);
    [concrete_pre | concrete_covered | reflexivity | reflexivity].
Defined.

Lemma HYPER_agrees_on_standard_matrices_witness :
  exists s1 s2,
    @GB_AxB_Gustavson_nomask plus_times magic_constants false GrB_SUCCESS scenario
    = Done s1 /\
    @GB_AxB_Gustavson_nomask plus_times magic_constants true GrB_SUCCESS scenario
    = Done s2 /\
    stC s1 = stC s2.
Proof.
  apply (@HYPER_agrees_on_standard_matrices plus_times magic_constants
           GrB_SUCCESS scenario);
    [concrete_pre | concrete_covered].
Defined.

Lemma missing_column_of_B_aborts_witness :
  @GB_AxB_Gustavson_nomask plus_times magic_constants false GrB_SUCCESS
    missing_scenario = AssertFail.
Proof.
  apply (@missing_column_of_B_aborts plus_times magic_constants GrB_SUCCESS
           missing_scenario); [concrete_pre|].
  intros Hcov. specialize (Hcov 0). unfold col_nonempty in Hcov.
  simpl in Hcov. lia.
Defined.

Lemma empty_pattern_is_a_no_op_witness :
  @GB_AxB_Gustavson_nomask plus_times magic_constants false GrB_SUCCESS
    empty_scenario = Done empty_scenario.
Proof.
  apply (@empty_pattern_is_a_no_op plus_times magic_constants false
           GrB_SUCCESS empty_scenario); [concrete_pre | reflexivity].
Defined.

Lemma status_is_checked_last_witness :
  @GB_AxB_Gustavson_nomask plus_times magic_constants false (GrB_FAILURE 1)
    short_scenario = OutOfBounds /\
  @GB_AxB_Gustavson_nomask plus_times magic_constants false (GrB_FAILURE 1)
    missing_scenario = AssertFail /\
  @GB_AxB_Gustavson_nomask plus_times magic_constants false (GrB_FAILURE 1)
    scenario = AssertFail.
Proof.
  rewrite !(@status_is_checked_last plus_times magic_constants).
  repeat split; vm_compute; reflexivity.
Defined.
